(** * The trial driver and the run driver of LKH

    A shallow embedding of [FindTour] (FindTour.c) and [main] (LKHmain.c).

    Both functions work on the program's global variables and call many
    routines defined in other files.  The globals are gathered in records,
    the program is written in a small state-and-error monad, and every
    routine of another file is a field of the interface [Externals].

    - A [Node *] is [Some i] for [&NodeSet[i]] and [None] for the null
      pointer; reading or writing through a null or out-of-range pointer is
      a [Fault].
    - [double] values (times, the lower bound) are kept abstract, with the
      operations the two functions apply to them.
    - The wall clock is the sequence of values successive calls of [GetTime]
      return.
    - Pointer-chasing loops and loops whose bound is a global take fuel. *)

From Stdlib Require Import ZArith List Bool Lia.
From Stdlib Require String.
From stdpp Require Import base list sets.
Import ListNotations.
Open Scope Z_scope.

(** ** Values *)

(** [GainType] is [long long]; its arithmetic is done in [Z] (signed overflow
    is undefined in C and is not part of the model). *)
Definition GainType := Z.

(** Modelled from the spec: the macros PLUS_INFINITY and MINUS_INFINITY of
    LKH.h, the spec's +infinity and -infinity, are the extreme [long long]
    values. *)
Definition PLUS_INFINITY : GainType := 2 ^ 63 - 1.
Definition MINUS_INFINITY : GainType := - 2 ^ 63.

Definition EXIT_SUCCESS : Z := 0.
Definition INT_MAX : Z := 2 ^ 31 - 1.

(** [int] is 32 bits wide.  The result of an [int] subtraction that leaves
    the range wraps around, as it does in the compiled code (in C the
    overflow is undefined). *)
Definition wrap_int (z : Z) : Z := (z + 2 ^ 31) mod 2 ^ 32 - 2 ^ 31.

(** [Seed] is [unsigned]: [++Seed] wraps around at 2^32. *)
Definition UINT_WIDTH : Z := 2 ^ 32.

Definition NodePtr := option nat.

Definition ptr_eqb (p q : NodePtr) : bool :=
  match p, q with
  | Some i, Some j => Nat.eqb i j
  | None, None => true
  | _, _ => false
  end.

(** An [int] used as a condition. *)
Definition truthy (z : Z) : bool := negb (z =? 0).

(** Modelled from the spec: a candidate edge (struct Candidate of LKH.h) is a
    reference to a node with its cost and its alpha value. *)
Record Candidate := mkCandidate { To : NodePtr; CandCost : Z; Alpha : Z }.

(** The fields of struct Node that the two functions use.  A candidate set
    is a pointer to an array of candidates. *)
Record Node := mkNode {
  Pred : NodePtr;
  Suc : NodePtr;
  OldPred : NodePtr;
  OldSuc : NodePtr;
  BestSuc : NodePtr;
  NextBestSuc : NodePtr;
  Next : NodePtr;
  InputSuc : NodePtr;
  InitialSuc : NodePtr;
  Pi : Z;
  CandidateSet : option (list Candidate);
  BackboneCandidateSet : option (list Candidate)
}.

Definition set_Pred (v : NodePtr) (n : Node) : Node :=
  mkNode v (Suc n) (OldPred n) (OldSuc n) (BestSuc n) (NextBestSuc n) (Next n)
    (InputSuc n) (InitialSuc n) (Pi n) (CandidateSet n) (BackboneCandidateSet n).
Definition set_Suc (v : NodePtr) (n : Node) : Node :=
  mkNode (Pred n) v (OldPred n) (OldSuc n) (BestSuc n) (NextBestSuc n) (Next n)
    (InputSuc n) (InitialSuc n) (Pi n) (CandidateSet n) (BackboneCandidateSet n).
Definition set_OldPred (v : NodePtr) (n : Node) : Node :=
  mkNode (Pred n) (Suc n) v (OldSuc n) (BestSuc n) (NextBestSuc n) (Next n)
    (InputSuc n) (InitialSuc n) (Pi n) (CandidateSet n) (BackboneCandidateSet n).
Definition set_OldSuc (v : NodePtr) (n : Node) : Node :=
  mkNode (Pred n) (Suc n) (OldPred n) v (BestSuc n) (NextBestSuc n) (Next n)
    (InputSuc n) (InitialSuc n) (Pi n) (CandidateSet n) (BackboneCandidateSet n).
Definition set_BestSuc (v : NodePtr) (n : Node) : Node :=
  mkNode (Pred n) (Suc n) (OldPred n) (OldSuc n) v (NextBestSuc n) (Next n)
    (InputSuc n) (InitialSuc n) (Pi n) (CandidateSet n) (BackboneCandidateSet n).
Definition set_NextBestSuc (v : NodePtr) (n : Node) : Node :=
  mkNode (Pred n) (Suc n) (OldPred n) (OldSuc n) (BestSuc n) v (Next n)
    (InputSuc n) (InitialSuc n) (Pi n) (CandidateSet n) (BackboneCandidateSet n).
Definition set_Next (v : NodePtr) (n : Node) : Node :=
  mkNode (Pred n) (Suc n) (OldPred n) (OldSuc n) (BestSuc n) (NextBestSuc n) v
    (InputSuc n) (InitialSuc n) (Pi n) (CandidateSet n) (BackboneCandidateSet n).
Definition set_InputSuc (v : NodePtr) (n : Node) : Node :=
  mkNode (Pred n) (Suc n) (OldPred n) (OldSuc n) (BestSuc n) (NextBestSuc n) (Next n)
    v (InitialSuc n) (Pi n) (CandidateSet n) (BackboneCandidateSet n).
Definition set_InitialSuc (v : NodePtr) (n : Node) : Node :=
  mkNode (Pred n) (Suc n) (OldPred n) (OldSuc n) (BestSuc n) (NextBestSuc n) (Next n)
    (InputSuc n) v (Pi n) (CandidateSet n) (BackboneCandidateSet n).
Definition set_CandidateSet (v : option (list Candidate)) (n : Node) : Node :=
  mkNode (Pred n) (Suc n) (OldPred n) (OldSuc n) (BestSuc n) (NextBestSuc n) (Next n)
    (InputSuc n) (InitialSuc n) (Pi n) v (BackboneCandidateSet n).
Definition set_BackboneCandidateSet (v : option (list Candidate)) (n : Node) : Node :=
  mkNode (Pred n) (Suc n) (OldPred n) (OldSuc n) (BestSuc n) (NextBestSuc n) (Next n)
    (InputSuc n) (InitialSuc n) (Pi n) (CandidateSet n) v.

(** Modelled from the spec: the problem types of LKH.h (section 6 of the
    specification lists them). *)
Inductive ProblemTypes := TSP | ATSP | HCP | HPP | CVRP.

Definition ProblemTypes_eqb (a b : ProblemTypes) : bool :=
  match a, b with
  | TSP, TSP | ATSP, ATSP | HCP, HCP | HPP, HPP | CVRP, CVRP => true
  | _, _ => false
  end.

(** ** What the program prints, writes and calls

    The calls of routines of other files, the tours written and the lines
    printed are logged in program order. *)

Module Trace.

Inductive TourFile := OutputTourFileName | TourFileName.
Inductive TourArray := BetterTour | BestTour.
Inductive Partitioning :=
  Delaunay | Karp | KCenter | KMeans | Rohe | SFC | TourSegment.

(** The [printff] and [printf] calls, one constructor for each format
    string.  Integer arguments are kept; the floating-point arguments (gap,
    time) are not. *)
Inductive Message :=
| TimeLimitExceeded
| ImprovedTrial (trial : Z) (cost : GainType)
| Gap
| TimeMark (cmp : comparison)
| PlainTrial (trial : Z) (cost : GainType)
| BackboneCandidates (trial : Z)
| SwapBanner
| MergedWith (individual : Z) (cost : GainType)
| NewLine
| NewOptimum (cost : GainType)
| RunCost (run : Z) (cost : GainType)
| RunTimeMark (cmp : comparison).

Inductive Routine :=
| ReadParameters | ReadProblem | Solve (p : Partitioning)
| AllocateStructures | CreateCandidateSet | InitializeStatistics
| UpdateStatistics (cost : GainType)
| HashInitialize | HashInsert (hash : Z) (cost : GainType)
| ChooseInitialTour | Random | LinKernighan | MergeWithTour
| RecordBetterTour | RecordBestTour
| AdjustCandidateSet | ResetCandidateSet | CandidateReport
| WriteTour (file : TourFile) (tour : TourArray) (cost : GainType)
| MergeTourWithIndividual (i : Z) | MergeTourWithBestTour
| HasFitness (cost : GainType) | AddToPopulation (cost : GainType)
| ReplacementIndividual (cost : GainType)
| ReplaceIndividualWithTour (i : Z) (cost : GainType)
| PrintPopulation | LinearSelection (size : Z)
| ApplyCrossover (parent1 parent2 : Z)
| AddCandidate (from to : NodePtr) (cost alpha : Z)
| SRandom (seed : Z) | PrintStatistics.

Inductive Event :=
| printed (msg : Message)
| called (r : Routine).

End Trace.

(** ** The state-and-error monad *)

Inductive Res (St A : Type) : Type :=
| Ok (a : A) (s : St)
| Fault
| OutOfFuel.
Arguments Ok {St A} a s.
Arguments Fault {St A}.
Arguments OutOfFuel {St A}.

Definition M (St A : Type) : Type := St -> Res St A.

Definition ret {St A : Type} (a : A) : M St A := fun s => Ok a s.

Definition bind {St A B : Type} (c : M St A) (k : A -> M St B) : M St B :=
  fun s =>
    match c s with
    | Ok a s' => k a s'
    | Fault => Fault
    | OutOfFuel => OutOfFuel
    end.

Definition fault {St A : Type} : M St A := fun _ => Fault.
Definition out_of_fuel {St A : Type} : M St A := fun _ => OutOfFuel.

Notation "'let*' x ':=' c 'in' k" := (bind c (fun x => k))
  (at level 10, x name, c at level 100, k at level 200).
Notation "c '>>' k" := (bind c (fun _ => k))
  (at level 100, k at level 200, right associativity).

(** How a loop body ends: by falling through or by [break]. *)
Inductive Flow := Continue | Break.

(** [for (i = lo; ...; i++)] over [n] consecutive values of [i]. *)
Fixpoint for_range {St : Type} (lo : Z) (n : nat) (body : Z -> M St unit) : M St unit :=
  match n with
  | O => ret tt
  | S n' => body lo >> for_range (lo + 1) n' body
  end.

(** ** The globals *)

Section Program.

Context {double Rest Stats : Type}.

(** Globals that the two functions only read: they are set from the
    parameter and problem files and by the ascent. *)
Record Params := mkParams {
  Dimension : Z;
  DimensionSaved : Z;
  MaxTrials : Z;
  Precision : Z;
  TraceLevel : Z;
  BackboneTrials : Z;
  MaxPopulationSize : Z;
  Norm : Z;
  StopAtOptimum : Z;
  SubproblemSize : Z;
  DelaunayPartitioning : Z;
  KarpPartitioning : Z;
  KCenterPartitioning : Z;
  KMeansPartitioning : Z;
  RohePartitioning : Z;
  MoorePartitioning : Z;
  SierpinskiPartitioning : Z;
  ProblemType : ProblemTypes;
  TimeLimit : double;
  LowerBound : double
}.

(** Globals that the two functions assign.  [OrdinalTourCost] is the static
    variable of FindTour.c. *)
Record Vars := mkVars {
  ParameterFileName : option String.string;
  MaxMatrixDimension : Z;
  Run : Z;
  Runs : Z;
  Trial : Z;
  BetterCost : GainType;
  BestCost : GainType;
  Optimum : GainType;
  OrdinalTourCost : GainType;
  Seed : Z
}.

Definition set_Run (x : Z) (v : Vars) : Vars :=
  mkVars (ParameterFileName v) (MaxMatrixDimension v) x (Runs v) (Trial v)
    (BetterCost v) (BestCost v) (Optimum v) (OrdinalTourCost v) (Seed v).
Definition set_Runs (x : Z) (v : Vars) : Vars :=
  mkVars (ParameterFileName v) (MaxMatrixDimension v) (Run v) x (Trial v)
    (BetterCost v) (BestCost v) (Optimum v) (OrdinalTourCost v) (Seed v).
Definition set_Trial (x : Z) (v : Vars) : Vars :=
  mkVars (ParameterFileName v) (MaxMatrixDimension v) (Run v) (Runs v) x
    (BetterCost v) (BestCost v) (Optimum v) (OrdinalTourCost v) (Seed v).
Definition set_BetterCost (x : GainType) (v : Vars) : Vars :=
  mkVars (ParameterFileName v) (MaxMatrixDimension v) (Run v) (Runs v) (Trial v)
    x (BestCost v) (Optimum v) (OrdinalTourCost v) (Seed v).
Definition set_BestCost (x : GainType) (v : Vars) : Vars :=
  mkVars (ParameterFileName v) (MaxMatrixDimension v) (Run v) (Runs v) (Trial v)
    (BetterCost v) x (Optimum v) (OrdinalTourCost v) (Seed v).
Definition set_Optimum (x : GainType) (v : Vars) : Vars :=
  mkVars (ParameterFileName v) (MaxMatrixDimension v) (Run v) (Runs v) (Trial v)
    (BetterCost v) (BestCost v) x (OrdinalTourCost v) (Seed v).
Definition set_OrdinalTourCost (x : GainType) (v : Vars) : Vars :=
  mkVars (ParameterFileName v) (MaxMatrixDimension v) (Run v) (Runs v) (Trial v)
    (BetterCost v) (BestCost v) (Optimum v) x (Seed v).
Definition set_Seed (x : Z) (v : Vars) : Vars :=
  mkVars (ParameterFileName v) (MaxMatrixDimension v) (Run v) (Runs v) (Trial v)
    (BetterCost v) (BestCost v) (Optimum v) (OrdinalTourCost v) x.

(** Globals that the routines of the other files work on: the node array,
    the current first node, the tour hash, the population, and everything
    else ([rest]: candidate arena, hash table, tour arrays, generator
    state, ...). *)
Record Work := mkWork {
  NodeSet : list Node;
  FirstNode : NodePtr;
  Hash : Z;
  PopulationSize : Z;
  Fitness : list GainType;
  rest : Rest
}.

Definition set_NodeSet (x : list Node) (w : Work) : Work :=
  mkWork x (FirstNode w) (Hash w) (PopulationSize w) (Fitness w) (rest w).
Definition set_FirstNode (x : NodePtr) (w : Work) : Work :=
  mkWork (NodeSet w) x (Hash w) (PopulationSize w) (Fitness w) (rest w).

Record Globals := mkGlobals { par : Params; var : Vars; wk : Work }.

(** The machine: the globals, the statistics (private to Statistics.c), the
    clock readings with the number of readings taken, and the log. *)
Record Machine := mkMachine {
  glob : Globals;
  stats : Stats;
  clock : nat -> double;
  ticks : nat;
  trace : list Trace.Event
}.

(** ** The routines of the other files

    A search routine reads the globals and returns the new [Work]; it does
    not assign the globals of [Params] and [Vars].  The set-up routines
    return all globals.  [C] is the cost oracle, which is pure.  Routines
    that only print or write a file have no field: they are logged. *)
Record Externals := mkExternals {
  dsub : double -> double -> double;
  dfabs : double -> double;
  dge : double -> double -> bool;
  GainType_of_double : double -> GainType;
  C : Globals -> NodePtr -> NodePtr -> Z;
  ReadParameters : Globals -> Globals;
  ReadProblem : Globals -> Globals;
  Solve : Trace.Partitioning -> Globals -> Globals;
  AllocateStructures : Globals -> Globals;
  CreateCandidateSet : Globals -> Globals;
  InitializeStatistics : Globals -> Stats -> Stats;
  UpdateStatistics : GainType -> double -> Globals -> Stats -> Stats;
  HashInitialize : Globals -> Work;
  HashInsert : Z -> GainType -> Globals -> Work;
  ChooseInitialTour : Globals -> Work;
  Random : Globals -> Z * Work;
  LinKernighan : Globals -> GainType * Work;
  MergeWithTour : Globals -> GainType * Work;
  RecordBetterTour : Globals -> Work;
  RecordBestTour : Globals -> Work;
  AdjustCandidateSet : Globals -> Work;
  ResetCandidateSet : Globals -> Work;
  MergeTourWithIndividual : Z -> Globals -> GainType * Work;
  MergeTourWithBestTour : Globals -> GainType * Work;
  HasFitness : GainType -> Globals -> Z;
  AddToPopulation : GainType -> Globals -> Work;
  ReplacementIndividual : GainType -> Globals -> Z;
  ReplaceIndividualWithTour : Z -> GainType -> Globals -> Work;
  LinearSelection : Z -> Globals -> Z * Work;
  ApplyCrossover : Z -> Z -> Globals -> Work;
  AddCandidate : NodePtr -> NodePtr -> Z -> Z -> Globals -> Work;
  SRandom : Z -> Globals -> Work
}.

Variable E : Externals.

Abbreviation Prog := (M Machine).

(** ** Primitive steps *)

Definition with_glob (g : Globals) (m : Machine) : Machine :=
  mkMachine g (stats m) (clock m) (ticks m) (trace m).

Definition with_work (w : Work) (m : Machine) : Machine :=
  with_glob (mkGlobals (par (glob m)) (var (glob m)) w) m.

Definition with_var (v : Vars) (m : Machine) : Machine :=
  with_glob (mkGlobals (par (glob m)) v (wk (glob m))) m.

Definition with_stats (s : Stats) (m : Machine) : Machine :=
  mkMachine (glob m) s (clock m) (ticks m) (trace m).

Definition logged (e : Trace.Event) (m : Machine) : Machine :=
  mkMachine (glob m) (stats m) (clock m) (ticks m) (trace m ++ [e]).

Definition ticked (m : Machine) : Machine :=
  mkMachine (glob m) (stats m) (clock m) (S (ticks m)) (trace m).

Definition GetTime : Prog double := fun m => Ok (clock m (ticks m)) (ticked m).

Definition emit (e : Trace.Event) : Prog unit := fun m => Ok tt (logged e m).
Definition printff (msg : Trace.Message) : Prog unit := emit (Trace.printed msg).

Definition globals : Prog Globals := fun m => Ok (glob m) m.
Definition params : Prog Params := fun m => Ok (par (glob m)) m.
Definition vars : Prog Vars := fun m => Ok (var (glob m)) m.
Definition work : Prog Work := fun m => Ok (wk (glob m)) m.

Definition assign (f : Vars -> Vars) : Prog unit :=
  fun m => Ok tt (with_var (f (var (glob m))) m).
Definition put_work (w : Work) : Prog unit := fun m => Ok tt (with_work w m).

(** A call of a search routine. *)
Definition call (r : Trace.Routine) (f : Globals -> Work) : Prog unit :=
  emit (Trace.called r) >> let* g := globals in put_work (f g).

(** A call of a search routine that returns a value. *)
Definition call_val {A : Type} (r : Trace.Routine) (f : Globals -> A * Work) : Prog A :=
  emit (Trace.called r) >>
  let* g := globals in put_work (snd (f g)) >> ret (fst (f g)).

(** A call of a routine that only prints or writes a file. *)
Definition call_out (r : Trace.Routine) : Prog unit := emit (Trace.called r).


(** Reading through the pointer [p]. *)
Definition load (p : NodePtr) : Prog Node :=
  let* w := work in
  match p with
  | Some i => match NodeSet w !! i with Some n => ret n | None => fault end
  | None => fault
  end.

(** Writing through the pointer [p]: the node it points to becomes [f] of
    itself.  It is used for the assignment of one field. *)
Definition store (p : NodePtr) (f : Node -> Node) : Prog unit :=
  let* n := load p in
  let* w := work in
  match p with
  | Some i => put_work (set_NodeSet (<[i := f n]> (NodeSet w)) w)
  | None => fault
  end.

(** [&NodeSet[k]] *)
Definition NodeSet_at (k : Z) : Prog NodePtr :=
  if k <? 0 then fault else ret (Some (Z.to_nat k)).

(** The loops over a ring of nodes,
    [do body while ((t = next) != FirstNode)] and its variants: [visit t]
    runs the body on [t] and gives the next [t]; the loop ends when that is
    [FirstNode], and returns the last [t]. *)
Fixpoint ring_walk (fuel : nat) (visit : NodePtr -> Prog NodePtr) (t : NodePtr)
  : Prog NodePtr :=
  match fuel with
  | O => out_of_fuel
  | S fuel' =>
      let* t' := visit t in
      let* w := work in
      if ptr_eqb t' (FirstNode w) then ret t' else ring_walk fuel' visit t'
  end.

(** ** FindTour.c *)

(** [SwapCandidateSets]: swaps the normal and the backbone candidate sets of
    every node of the tour. *)
Definition SwapCandidateSets (fuel : nat) : Prog unit :=
  printff Trace.SwapBanner >>
  let* w := work in
  ring_walk fuel
    (fun t =>
       let* n := load t in
       let Temp := CandidateSet n in
       store t (set_CandidateSet (BackboneCandidateSet n)) >>
       store t (set_BackboneCandidateSet Temp) >>
       let* n := load t in
       ret (Suc n))
    (FirstNode w) >>
  ret tt.

(** [t->OldPred = t->OldSuc = t->NextBestSuc = t->BestSuc = 0] *)
Definition clear_tour_links (n : Node) : Node :=
  set_OldPred None (set_OldSuc None (set_NextBestSuc None (set_BestSuc None n))).

(** Lines 38-42. *)
Definition FindTour_clear (fuel : nat) : Prog unit :=
  let* w := work in
  ring_walk fuel
    (fun t => store t clear_tour_links >> let* n := load t in ret (Suc n))
    (FirstNode w) >>
  ret tt.

(** [C(&NodeSet[i], &NodeSet[j]) - NodeSet[i].Pi - NodeSet[j].Pi], an
    expression of type [int]: [C] returns an [int] and [Pi] is one. *)
Definition reduced_cost (i j : Z) : Prog Z :=
  let* a := NodeSet_at i in
  let* b := NodeSet_at j in
  let* g := globals in
  let* na := load a in
  let* nb := load b in
  ret (wrap_int (wrap_int (C E g a b - Pi na) - Pi nb)).

Definition add_OrdinalTourCost (d : Z) : Prog unit :=
  assign (fun v => set_OrdinalTourCost (OrdinalTourCost v + d) v).

(** Lines 46-52: the cost of the tour 1, 2, ..., Dimension, 1. *)
Definition FindTour_OrdinalTourCost : Prog unit :=
  let* p := params in
  assign (set_OrdinalTourCost 0) >>
  for_range 1 (Z.to_nat (Dimension p - 1))
    (fun i => let* d := reduced_cost i (i + 1) in add_OrdinalTourCost d) >>
  let* d := reduced_cost (Dimension p) 1 in
  add_OrdinalTourCost d >>
  if Precision p =? 0 then fault
  else assign (fun v => set_OrdinalTourCost (Z.quot (OrdinalTourCost v) (Precision p)) v).

(** Lines 36-62; the result is [EntryTime]. *)
Definition FindTour_entry (fuel : nat) : Prog double :=
  let* EntryTime := GetTime in
  FindTour_clear fuel >>
  let* p := params in
  let* v := vars in
  (if (Run v =? 1) && (Dimension p =? DimensionSaved p)
   then FindTour_OrdinalTourCost else ret tt) >>
  assign (set_BetterCost PLUS_INFINITY) >>
  (if MaxTrials p >? 0 then call Trace.HashInitialize (HashInitialize E)
   else assign (set_Trial 1) >>
        call Trace.ChooseInitialTour (ChooseInitialTour E)) >>
  ret EntryTime.

(** [for (i = ...; i > 0; i--) FirstNode = FirstNode->Suc] *)
Fixpoint advance_FirstNode (i : nat) : Prog unit :=
  match i with
  | O => ret tt
  | S i' =>
      let* w := work in
      let* n := load (FirstNode w) in
      put_work (set_FirstNode (Suc n) w) >>
      advance_FirstNode i'
  end.

(** Lines 72-79: the random first node and the initial tour.  [Random()]
    is not negative; [%] by zero is a fault. *)
Definition Trial_start : Prog unit :=
  let* p := params in
  (if Dimension p =? DimensionSaved p then
     let* r := call_val Trace.Random (Random E) in
     if Dimension p =? 0 then fault
     else
       let* t := NodeSet_at (1 + Z.rem r (Dimension p)) in
       let* w := work in
       put_work (set_FirstNode t w)
   else
     let* r := call_val Trace.Random (Random E) in
     if Dimension p =? 0 then fault
     else advance_FirstNode (Z.to_nat (Z.rem r (Dimension p)))) >>
  call Trace.ChooseInitialTour (ChooseInitialTour E).

(** Lines 82-88: the merge with the better tour recorded before. *)
Definition Trial_merge_better (fuel : nat) (Cost : GainType) : Prog GainType :=
  let* w := work in
  let* f := load (FirstNode w) in
  match BestSuc f with
  | Some _ =>
      ring_walk fuel
        (fun t =>
           let* n := load t in
           store t (set_Next (BestSuc n)) >>
           ret (BestSuc n))
        (FirstNode w) >>
      call_val Trace.MergeWithTour (MergeWithTour E)
  | None => ret Cost
  end.

(** Lines 89-96: the merge with the tour 1, 2, ..., Dimension, 1. *)
Definition Trial_merge_ordinal (Cost : GainType) : Prog GainType :=
  let* p := params in
  let* v := vars in
  if (Dimension p =? DimensionSaved p) && (Cost >=? OrdinalTourCost v)
     && (BetterCost v >? OrdinalTourCost v)
  then
    for_range 1 (Z.to_nat (Dimension p - 1))
      (fun i =>
         let* a := NodeSet_at i in
         let* b := NodeSet_at (i + 1) in
         store a (set_Next b)) >>
    let* a := NodeSet_at (Dimension p) in
    let* b := NodeSet_at 1 in
    store a (set_Next b) >>
    call_val Trace.MergeWithTour (MergeWithTour E)
  else ret Cost.

(** [Optimum != MINUS_INFINITY && Optimum != 0] *)
Definition gap_wanted (v : Vars) : bool :=
  negb (Optimum v =? MINUS_INFINITY) && negb (Optimum v =? 0).

(** [printff(", Gap = ...")] under its guard. *)
Definition print_gap : Prog unit :=
  let* v := vars in
  if gap_wanted v then printff Trace.Gap else ret tt.

(** Lines 97-121: the test for an improvement and what follows it. *)
Definition Trial_record (Cost : GainType) : Prog Flow :=
  let* p := params in
  let* v := vars in
  if Cost <? BetterCost v then
    (if TraceLevel p >=? 1 then
       printff (Trace.ImprovedTrial (Trial v) Cost) >>
       print_gap >>
       let* now := GetTime in
       printff (Trace.TimeMark (Cost ?= Optimum v))
     else ret tt) >>
    assign (set_BetterCost Cost) >>
    call Trace.RecordBetterTour (RecordBetterTour E) >>
    let* v := vars in
    (if (Dimension p =? DimensionSaved p) && (BetterCost v <? BestCost v)
     then call_out (Trace.WriteTour Trace.OutputTourFileName Trace.BetterTour
                      (BetterCost v))
     else ret tt) >>
    if truthy (StopAtOptimum p) && (BetterCost v =? Optimum v) then ret Break
    else
      call Trace.AdjustCandidateSet (AdjustCandidateSet E) >>
      call Trace.HashInitialize (HashInitialize E) >>
      let* w := work in
      call (Trace.HashInsert (Hash w) Cost) (HashInsert E (Hash w) Cost) >>
      ret Continue
  else
    (if TraceLevel p >=? 2 then
       let* now := GetTime in printff (Trace.PlainTrial (Trial v) Cost)
     else ret tt) >>
    ret Continue.

(** Lines 124-134: the backbone candidates. *)
Definition Trial_backbone (fuel : nat) : Prog unit :=
  let* p := params in
  let* v := vars in
  if (Trial v <=? BackboneTrials p) && (BackboneTrials p <? MaxTrials p) then
    SwapCandidateSets fuel >>
    call Trace.AdjustCandidateSet (AdjustCandidateSet E) >>
    if Trial v =? BackboneTrials p then
      if TraceLevel p >=? 1 then
        printff (Trace.BackboneCandidates (Trial v)) >>
        call_out Trace.CandidateReport
      else ret tt
    else SwapCandidateSets fuel
  else ret tt.

(** Lines 71-134: a trial that has passed the time check. *)
Definition Trial_body (fuel : nat) : Prog Flow :=
  Trial_start >>
  let* Cost := call_val Trace.LinKernighan (LinKernighan E) in
  let* Cost := Trial_merge_better fuel Cost in
  let* Cost := Trial_merge_ordinal Cost in
  let* flow := Trial_record Cost in
  match flow with
  | Break => ret Break
  | Continue => Trial_backbone fuel >> ret Continue
  end.

(** Lines 65-134: the body of the loop over the trials. *)
Definition FindTour_trial (fuel : nat) (EntryTime : double) : Prog Flow :=
  let* p := params in
  let* now := GetTime in
  if dge E (dsub E now EntryTime) (TimeLimit p) then
    (if TraceLevel p >=? 1 then printff Trace.TimeLimitExceeded else ret tt) >>
    ret Break
  else Trial_body fuel.

(** Line 64, from the loop test on: [Trial] has been initialised. *)
Fixpoint FindTour_trials (fuel : nat) (EntryTime : double) : Prog unit :=
  match fuel with
  | O => out_of_fuel
  | S fuel' =>
      let* p := params in
      let* v := vars in
      if Trial v <=? MaxTrials p then
        let* flow := FindTour_trial fuel' EntryTime in
        match flow with
        | Break => ret tt
        | Continue =>
            assign (fun v => set_Trial (Trial v + 1) v) >>
            FindTour_trials fuel' EntryTime
        end
      else ret tt
  end.

(** Lines 137-147. *)
Definition FindTour_backbone_end (fuel : nat) : Prog unit :=
  let* p := params in
  let* v := vars in
  if (BackboneTrials p >? 0) && (BackboneTrials p <? MaxTrials p) then
    (if (Trial v >? BackboneTrials p)
        || ((Trial v =? BackboneTrials p)
            && (negb (truthy (StopAtOptimum p)) || negb (BetterCost v =? Optimum v)))
     then SwapCandidateSets fuel else ret tt) >>
    let* w := work in
    ring_walk fuel
      (fun t =>
         store t (set_BackboneCandidateSet None) >>
         let* n := load t in
         ret (Suc n))
      (FirstNode w) >>
    ret tt
  else ret tt.

(** [t = t->BestSuc = t->Suc] *)
Definition adopt_Suc (t : NodePtr) : Prog NodePtr :=
  let* n := load t in
  store t (set_BestSuc (Suc n)) >>
  ret (Suc n).

(** [(t->Suc = t->BestSuc)->Pred = t], then [t = t->BestSuc]. *)
Definition commit_BestSuc (t : NodePtr) : Prog NodePtr :=
  let* n := load t in
  store t (set_Suc (BestSuc n)) >>
  store (BestSuc n) (set_Pred t) >>
  let* n := load t in
  ret (BestSuc n).

(** Lines 148-163. *)
Definition FindTour_exit (fuel : nat) : Prog GainType :=
  let* p := params in
  let* w := work in
  let* t := (if Norm p =? 0 then ring_walk fuel adopt_Suc (FirstNode w)
             else ret (FirstNode w)) in
  ring_walk fuel commit_BestSuc t >>
  let* v := vars in
  (if Trial v >? MaxTrials p then assign (set_Trial (MaxTrials p)) else ret tt) >>
  call Trace.ResetCandidateSet (ResetCandidateSet E) >>
  let* v := vars in
  ret (BetterCost v).

Definition FindTour (fuel : nat) : Prog GainType :=
  let* EntryTime := FindTour_entry fuel in
  assign (set_Trial 1) >>
  FindTour_trials fuel EntryTime >>
  FindTour_backbone_end fuel >>
  FindTour_exit fuel.

(** ** LKHmain.c *)

(** A call of a routine of Statistics.c. *)
Definition call_stats (r : Trace.Routine) (f : Globals -> Stats -> Stats) : Prog unit :=
  emit (Trace.called r) >> fun m => Ok tt (with_stats (f (glob m) (stats m)) m).

(** [Fitness[i]] *)
Definition Fitness_at (i : Z) : Prog GainType :=
  let* w := work in
  if i <? 0 then fault
  else match Fitness w !! Z.to_nat i with Some c => ret c | None => fault end.

(** Lines 77-88: [for (i = ...; i < PopulationSize; i++)]. *)
Fixpoint merge_with_population (fuel : nat) (i : Z) (Cost : GainType) : Prog GainType :=
  match fuel with
  | O => out_of_fuel
  | S fuel' =>
      let* p := params in
      let* w := work in
      if i <? PopulationSize w then
        let OldCost := Cost in
        let* Cost := call_val (Trace.MergeTourWithIndividual i)
                       (MergeTourWithIndividual E i) in
        (if (TraceLevel p >=? 1) && (Cost <? OldCost) then
           printff (Trace.MergedWith (i + 1) Cost) >>
           print_gap >>
           printff Trace.NewLine
         else ret tt) >>
        merge_with_population fuel' (i + 1) Cost
      else ret Cost
  end.

(** Lines 89-100: the tour enters the population. *)
Definition update_population (Cost : GainType) : Prog unit :=
  let* p := params in
  call_out (Trace.HasFitness Cost) >>
  let* g := globals in
  if negb (truthy (HasFitness E Cost g)) then
    let* w := work in
    if PopulationSize w <? MaxPopulationSize p then
      call (Trace.AddToPopulation Cost) (AddToPopulation E Cost) >>
      if TraceLevel p >=? 1 then call_out Trace.PrintPopulation else ret tt
    else
      let* worst := Fitness_at (PopulationSize w - 1) in
      if Cost <? worst then
        call_out (Trace.ReplacementIndividual Cost) >>
        let i := ReplacementIndividual E Cost g in
        call (Trace.ReplaceIndividualWithTour i Cost)
          (ReplaceIndividualWithTour E i Cost) >>
        if TraceLevel p >=? 1 then call_out Trace.PrintPopulation else ret tt
      else ret tt
  else ret tt.

(** Lines 73-102: the cost of the run. *)
Definition Run_cost (fuel : nat) : Prog GainType :=
  let* Cost := FindTour fuel in
  let* p := params in
  let* v := vars in
  if MaxPopulationSize p >? 1 then
    let* Cost := merge_with_population fuel 0 Cost in
    update_population Cost >>
    ret Cost
  else if Run v >? 1 then
    call_val Trace.MergeTourWithBestTour (MergeTourWithBestTour E)
  else ret Cost.

(** Lines 103-109. *)
Definition Run_new_best (Cost : GainType) : Prog unit :=
  let* v := vars in
  if Cost <? BestCost v then
    assign (set_BestCost Cost) >>
    call Trace.RecordBetterTour (RecordBetterTour E) >>
    call Trace.RecordBestTour (RecordBestTour E) >>
    let* v := vars in
    call_out (Trace.WriteTour Trace.OutputTourFileName Trace.BestTour (BestCost v)) >>
    call_out (Trace.WriteTour Trace.TourFileName Trace.BestTour (BestCost v))
  else ret tt.

(** [N = N->InputSuc = N->Suc] *)
Definition copy_to_InputSuc (N : NodePtr) : Prog NodePtr :=
  let* n := load N in
  store N (set_InputSuc (Suc n)) >>
  ret (Suc n).

(** Lines 112-115: the tour becomes the input tour, if there was one. *)
Definition Run_copy_tour (fuel : nat) : Prog unit :=
  let* w := work in
  let* f := load (FirstNode w) in
  match InputSuc f with
  | Some _ => ring_walk fuel copy_to_InputSuc (FirstNode w) >> ret tt
  | None => ret tt
  end.

(** Lines 110-118; the result is [OldOptimum]. *)
Definition Run_new_optimum (fuel : nat) (Cost : GainType) : Prog GainType :=
  let* v := vars in
  let OldOptimum := Optimum v in
  (if Cost <? Optimum v then
     Run_copy_tour fuel >>
     assign (set_Optimum Cost) >>
     let* v := vars in
     printff (Trace.NewOptimum (Optimum v))
   else ret tt) >>
  ret OldOptimum.

(** Lines 139-141: [do Parent2 = ...; while (Parent2 == Parent1)]. *)
Fixpoint select_Parent2 (fuel : nat) (Parent1 : Z) : Prog Z :=
  match fuel with
  | O => out_of_fuel
  | S fuel' =>
      let* w := work in
      let* Parent2 := call_val (Trace.LinearSelection (PopulationSize w))
                        (LinearSelection E (PopulationSize w)) in
      if Parent2 =? Parent1 then select_Parent2 fuel' Parent1 else ret Parent2
  end.

(** The body of the loop of lines 144-152. *)
Definition adopt_child_edge (N : NodePtr) : Prog NodePtr :=
  let* p := params in
  (if negb (ProblemTypes_eqb (ProblemType p) HCP)
      && negb (ProblemTypes_eqb (ProblemType p) HPP) then
     let* n := load N in
     let* g := globals in
     let d := C E g N (Suc n) in
     call (Trace.AddCandidate N (Suc n) d INT_MAX)
       (AddCandidate E N (Suc n) d INT_MAX) >>
     let* n := load N in
     call (Trace.AddCandidate (Suc n) N d INT_MAX)
       (AddCandidate E (Suc n) N d INT_MAX)
   else ret tt) >>
  let* n := load N in
  store N (set_InitialSuc (Suc n)) >>
  ret (Suc n).

(** Lines 133-153: the crossover that gives the next run its initial tour.
    The bias 1.25 of the selection is part of [LinearSelection]. *)
Definition Run_crossover (fuel : nat) : Prog unit :=
  let* p := params in
  let* v := vars in
  let* w := work in
  if (PopulationSize w >=? 2)
     && ((PopulationSize w =? MaxPopulationSize p)
         || (Run v >=? 2 * MaxPopulationSize p))
     && (Run v <? Runs v)
  then
    let* Parent1 := call_val (Trace.LinearSelection (PopulationSize w))
                      (LinearSelection E (PopulationSize w)) in
    let* Parent2 := select_Parent2 fuel Parent1 in
    call (Trace.ApplyCrossover Parent1 Parent2) (ApplyCrossover E Parent1 Parent2) >>
    let* w := work in
    ring_walk fuel adopt_child_edge (FirstNode w) >>
    ret tt
  else ret tt.

(** [SRandom(++Seed)] *)
Definition reseed : Prog unit :=
  assign (fun v => set_Seed ((Seed v + 1) mod UINT_WIDTH) v) >>
  let* v := vars in
  call (Trace.SRandom (Seed v)) (SRandom E (Seed v)).

(** Lines 119-128: the statistics and the report of the run. *)
Definition Run_report (LastTime : double) (Cost : GainType) : Prog unit :=
  let* now := GetTime in
  let Time := dfabs E (dsub E now LastTime) in
  call_stats (Trace.UpdateStatistics Cost) (UpdateStatistics E Cost Time) >>
  let* p := params in
  let* v := vars in
  if (TraceLevel p >=? 1) && negb (Cost =? PLUS_INFINITY) then
    printff (Trace.RunCost (Run v) Cost) >>
    print_gap >>
    printff (Trace.RunTimeMark (Cost ?= Optimum v))
  else ret tt.

(** Lines 129-154: the end of the loop, or the preparation of the next
    run. *)
Definition Run_next (fuel : nat) (Cost OldOptimum : GainType) : Prog Flow :=
  let* p := params in
  if truthy (StopAtOptimum p) && (Cost =? OldOptimum) && (MaxPopulationSize p >=? 1)
  then assign (fun v => set_Runs (Run v) v) >> ret Break
  else Run_crossover fuel >> reseed >> ret Continue.

(** Lines 103-154: what follows the computation of the cost of the run. *)
Definition Run_finish (fuel : nat) (LastTime : double) (Cost : GainType) : Prog Flow :=
  Run_new_best Cost >>
  let* OldOptimum := Run_new_optimum fuel Cost in
  Run_report LastTime Cost >>
  Run_next fuel Cost OldOptimum.

(** Lines 64-154: the body of the loop over the runs. *)
Definition Run_body (fuel : nat) : Prog Flow :=
  let* LastTime := GetTime in
  let* Cost := Run_cost fuel in
  Run_finish fuel LastTime Cost.

(** Line 63, from the loop test on: [Run] has been initialised. *)
Fixpoint main_runs (fuel : nat) : Prog unit :=
  match fuel with
  | O => out_of_fuel
  | S fuel' =>
      let* v := vars in
      if Run v <=? Runs v then
        let* flow := Run_body fuel' in
        match flow with
        | Break => ret tt
        | Continue =>
            assign (fun v => set_Run (Run v + 1) v) >>
            main_runs fuel'
        end
      else ret tt
  end.

(** Lines 48-60: what the ascent found. *)
Definition main_ascent_result (LastTime : double) : Prog unit :=
  let* p := params in
  if negb (Norm p =? 0) then assign (set_BestCost PLUS_INFINITY)
  else
    assign (set_BestCost (GainType_of_double E (LowerBound p))) >>
    assign (fun v => set_Optimum (BestCost v) v) >>
    let* v := vars in
    let* now := GetTime in
    call_stats (Trace.UpdateStatistics (Optimum v))
      (UpdateStatistics E (Optimum v) (dsub E now LastTime)) >>
    call Trace.RecordBetterTour (RecordBetterTour E) >>
    call Trace.RecordBestTour (RecordBestTour E) >>
    let* v := vars in
    call_out (Trace.WriteTour Trace.OutputTourFileName Trace.BestTour (BestCost v)) >>
    call_out (Trace.WriteTour Trace.TourFileName Trace.BestTour (BestCost v)) >>
    assign (set_Runs 0).

(** Lines 48-157: from the test of [Norm] to the end. *)
Definition main_search (fuel : nat) (LastTime : double) : Prog Z :=
  main_ascent_result LastTime >>
  assign (set_Run 1) >>
  main_runs fuel >>
  call_out Trace.PrintStatistics >>
  ret EXIT_SUCCESS.



End Program.

Arguments Params : clear implicits.
Arguments Work : clear implicits.
Arguments Globals : clear implicits.
Arguments Machine : clear implicits.
Arguments Externals : clear implicits.

(** ** A small instance

    Three cities on a ring.  Times are integers, the rest of the globals is
    the state of a linear congruential generator, the statistics are the
    list of the costs and times reported.  The search routines leave the
    tour alone; [LinKernighan] and the merges return costs given in
    advance, by run and trial. *)

Module Toy.

Definition node (pred suc : nat) : Node :=
  mkNode (Some pred) (Some suc) None None None None None None None 0
    (Some []) None.

Definition unused : Node :=
  mkNode None None None None None None None None None 0 None None.

Definition nodes : list Node := [unused; node 3 2; node 1 3; node 2 1].

Definition work0 : Work Z := mkWork nodes (Some 1%nat) 0 0 [] 1.

Definition record_better (n : Node) : Node :=
  set_NextBestSuc (BestSuc n) (set_BestSuc (Suc n) n).

Section Costs.

(** [lk run trial] is the cost [LinKernighan] returns, [merged] the cost
    the merges return. *)
Variable lk : Z -> Z -> GainType.
Variable merged : GainType.

Definition same (g : Globals Z Z) : Work Z := wk g.

Definition externals : Externals Z Z (list (GainType * Z)) :=
  {| dsub := Z.sub;
     dfabs := Z.abs;
     dge := Z.geb;
     GainType_of_double := fun x => x;
     C := fun _ _ _ => 400;
     ReadParameters := fun g => g;
     ReadProblem := fun g => g;
     Solve := fun _ g => g;
     AllocateStructures := fun g => g;
     CreateCandidateSet := fun g => g;
     InitializeStatistics := fun _ _ => [];
     UpdateStatistics := fun c t _ s => s ++ [(c, t)];
     HashInitialize := same;
     HashInsert := fun _ _ => same;
     ChooseInitialTour := same;
     Random := fun g =>
       (rest (wk g),
        mkWork (NodeSet (wk g)) (FirstNode (wk g)) (Hash (wk g))
          (PopulationSize (wk g)) (Fitness (wk g))
          ((rest (wk g) * 1103515245 + 12345) mod 2 ^ 31));
     LinKernighan := fun g => (lk (Run (var g)) (Trial (var g)), wk g);
     MergeWithTour := fun g => (merged, wk g);
     RecordBetterTour := fun g =>
       set_NodeSet (map record_better (NodeSet (wk g))) (wk g);
     RecordBestTour := same;
     AdjustCandidateSet := same;
     ResetCandidateSet := same;
     MergeTourWithIndividual := fun _ g => (merged, wk g);
     MergeTourWithBestTour := fun g => (merged, wk g);
     HasFitness := fun _ _ => 0;
     AddToPopulation := fun _ => same;
     ReplacementIndividual := fun _ _ => 0;
     ReplaceIndividualWithTour := fun _ _ => same;
     LinearSelection := fun _ g => (0, wk g);
     ApplyCrossover := fun _ _ => same;
     AddCandidate := fun _ _ _ _ => same;
     SRandom := fun s g =>
       mkWork (NodeSet (wk g)) (FirstNode (wk g)) (Hash (wk g))
         (PopulationSize (wk g)) (Fitness (wk g)) s |}.

End Costs.

(** Parameters: [Dimension = DimensionSaved = 3], [Precision = 100],
    no tracing, no backbone trials, no partitioning. *)
Definition params0 (maxTrials maxPop norm stop : Z) (limit : Z) : Params Z :=
  mkParams 3 3 maxTrials 100 0 0 maxPop norm stop 0 0 0 0 0 0 0 0 TSP limit 0.

Definition vars0 (runs : Z) (optimum : GainType) : Vars :=
  mkVars None 0 1 runs 0 0 PLUS_INFINITY optimum 0 1.

(** Two clocks: one advances by one unit at each reading, the other
    stands still. *)
Definition steady : nat -> Z := fun n => Z.of_nat n.
Definition frozen : nat -> Z := fun _ => 0.

Definition machine (c : nat -> Z) (p : Params Z) (v : Vars)
  : Machine Z Z (list (GainType * Z)) :=
  mkMachine (mkGlobals p v work0) [] c 0 [].

Definition machine0 (p : Params Z) (v : Vars) : Machine Z Z (list (GainType * Z)) :=
  machine steady p v.

(** The same machine with other nodes. *)
Definition with_nodes (ns : list Node) (m : Machine Z Z (list (GainType * Z)))
  : Machine Z Z (list (GainType * Z)) :=
  mkMachine (mkGlobals (par (glob m)) (var (glob m)) (set_NodeSet ns (wk (glob m))))
    (stats m) (clock m) (ticks m) (trace m).

(** [LinKernighan] finds cost 9 in the first trial and 8 in the second; the
    merges give cost 7. *)
Definition E97 : Externals Z Z (list (GainType * Z)) :=
  externals (fun _ trial => 10 - trial) 7.

End Toy.

(** ** Further instances *)

Module ToyGA.

(** A population of two individuals, of fitness 7 and 9; the state of the
    generator is 2. *)
Definition work2 : Work Z := mkWork Toy.nodes (Some 1%nat) 0 2 [7; 9] 2.

(** The routines of [Toy.E97] with a selection that depends on the state s
    of the generator: it selects (s / 2) mod 2 and increments s, so from
    state 2 it selects 1, 1 and 0. *)
Definition E_select : Externals Z Z (list (GainType * Z)) :=
  {| dsub := dsub Toy.E97;
     dfabs := dfabs Toy.E97;
     dge := dge Toy.E97;
     GainType_of_double := GainType_of_double Toy.E97;
     C := C Toy.E97;
     ReadParameters := ReadParameters Toy.E97;
     ReadProblem := ReadProblem Toy.E97;
     Solve := Solve Toy.E97;
     AllocateStructures := AllocateStructures Toy.E97;
     CreateCandidateSet := CreateCandidateSet Toy.E97;
     InitializeStatistics := InitializeStatistics Toy.E97;
     UpdateStatistics := UpdateStatistics Toy.E97;
     HashInitialize := HashInitialize Toy.E97;
     HashInsert := HashInsert Toy.E97;
     ChooseInitialTour := ChooseInitialTour Toy.E97;
     Random := Random Toy.E97;
     LinKernighan := LinKernighan Toy.E97;
     MergeWithTour := MergeWithTour Toy.E97;
     RecordBetterTour := RecordBetterTour Toy.E97;
     RecordBestTour := RecordBestTour Toy.E97;
     AdjustCandidateSet := AdjustCandidateSet Toy.E97;
     ResetCandidateSet := ResetCandidateSet Toy.E97;
     MergeTourWithIndividual := MergeTourWithIndividual Toy.E97;
     MergeTourWithBestTour := MergeTourWithBestTour Toy.E97;
     HasFitness := HasFitness Toy.E97;
     AddToPopulation := AddToPopulation Toy.E97;
     ReplacementIndividual := ReplacementIndividual Toy.E97;
     ReplaceIndividualWithTour := ReplaceIndividualWithTour Toy.E97;
     LinearSelection := fun _ g =>
       ((rest (wk g) / 2) mod 2,
        mkWork (NodeSet (wk g)) (FirstNode (wk g)) (Hash (wk g))
          (PopulationSize (wk g)) (Fitness (wk g)) (rest (wk g) + 1));
     ApplyCrossover := ApplyCrossover Toy.E97;
     AddCandidate := AddCandidate Toy.E97;
     SRandom := SRandom Toy.E97 |}.

Definition machine2 (p : Params Z) (v : Vars) : Machine Z Z (list (GainType * Z)) :=
  mkMachine (mkGlobals p v work2) [] Toy.steady 0 [].

(** Parameters with one backbone trial out of two trials. *)
Definition params_backbone : Params Z :=
  mkParams 3 3 2 100 0 1 0 1 0 0 0 0 0 0 0 0 0 TSP 1000 0.

(** Parameters of a subproblem: [Dimension] 3 of [DimensionSaved] 4. *)
Definition params_sub : Params Z :=
  mkParams 3 4 2 100 0 0 0 1 0 0 0 0 0 0 0 0 0 TSP 1000 0.

(** The node [n] with another [Pi]. *)
Definition with_Pi (x : Z) (n : Node) : Node :=
  mkNode (Pred n) (Suc n) (OldPred n) (OldSuc n) (BestSuc n) (NextBestSuc n) (Next n)
    (InputSuc n) (InitialSuc n) x (CandidateSet n) (BackboneCandidateSet n).


End ToyGA.

(** ** Notions used in the statements *)

Section Notions.

Context {double Rest Stats : Type}.

(** The node array of a machine, and a machine with another node array. *)
Definition nodes_of (m : Machine double Rest Stats) : list Node :=
  NodeSet (wk (glob m)).

Definition with_NodeSet (ns : list Node) (m : Machine double Rest Stats)
  : Machine double Rest Stats :=
  with_work (set_NodeSet ns (wk (glob m))) m.

(** The node array after [NodeSet[a] = f(NodeSet[a])]. *)
Definition update (a : nat) (f : Node -> Node) (ns : list Node) : list Node :=
  match ns !! a with
  | Some n => <[a := f n]> ns
  | None => ns
  end.



(** [path sel ns l final]: in [ns], the field [sel] of each node of [l]
    points to the next node of [l], and that of the last one to [final]. *)
Fixpoint path (sel : Node -> NodePtr) (ns : list Node) (l : list nat) (final : nat)
  : Prop :=
  match l with
  | [] => True
  | a :: l' =>
      (exists n, ns !! a = Some n /\ sel n = Some (hd final l')) /\
      path sel ns l' final
  end.

(** [ring sel ns first l]: following [sel] from [first] goes once through
    the nodes of [l], which are distinct, and comes back to [first]. *)
Definition ring (sel : Node -> NodePtr) (ns : list Node) (first : NodePtr)
  (l : list nat) : Prop :=
  match l with
  | [] => False
  | a :: _ => first = Some a /\ NoDup l /\ path sel ns l a
  end.

(** The events logged between two machines. *)
Definition new_events (m m' : Machine double Rest Stats) : list Trace.Event :=
  drop (length (trace m)) (trace m').

(** Two machines that differ only in their clocks and statistics.  [J] is
    any property of the globals of [Params] and [Vars] that is to be kept,
    [TL] the time limit. *)
Definition sim (c1 c2 : nat -> double) (TL : double)
  (J : Params double -> Vars -> Prop) (m1 m2 : Machine double Rest Stats) : Prop :=
  glob m1 = glob m2 /\ ticks m1 = ticks m2 /\ trace m1 = trace m2 /\
  clock m1 = c1 /\ clock m2 = c2 /\
  TimeLimit (par (glob m1)) = TL /\ J (par (glob m1)) (var (glob m1)).

(** Two outcomes that differ only in clocks and statistics, with results
    related by [RA]. *)
Definition rsim (c1 c2 : nat -> double) (TL : double)
  (J : Params double -> Vars -> Prop) {A : Type} (RA : A -> A -> Prop)
  (r1 r2 : Res (Machine double Rest Stats) A) : Prop :=
  match r1, r2 with
  | Ok a1 m1, Ok a2 m2 => RA a1 a2 /\ sim c1 c2 TL J m1 m2
  | Fault, Fault => True
  | OutOfFuel, OutOfFuel => True
  | _, _ => False
  end.

Definition respects (c1 c2 : nat -> double) (TL : double)
  (J : Params double -> Vars -> Prop) {A : Type} (RA : A -> A -> Prop)
  (p1 p2 : M (Machine double Rest Stats) A) : Prop :=
  forall m1 m2, sim c1 c2 TL J m1 m2 -> rsim c1 c2 TL J RA (p1 m1) (p2 m2).

(** Two times read at the same reading of the two clocks. *)
Definition same_reading (c1 c2 : nat -> double) (t1 t2 : double) : Prop :=
  exists i, t1 = c1 i /\ t2 = c2 i.

(** The two clocks give the same outcome to every test of the time limit. *)
Definition clocks_agree (E : Externals double Rest Stats) (TL : double)
  (c1 c2 : nat -> double) : Prop :=
  forall i j, dge E (dsub E (c1 i) (c1 j)) TL = dge E (dsub E (c2 i) (c2 j)) TL.

(** The globals of [Params] and [Vars] are [p0] and [v0]. *)
Definition fixed (p0 : Params double) (v0 : Vars) : Params double -> Vars -> Prop :=
  fun p v => p = p0 /\ v = v0.

(** The parameters are [p0] and [Optimum] is [o]. *)
Definition Optimum_is (p0 : Params double) (o : GainType)
  : Params double -> Vars -> Prop :=
  fun p v => p = p0 /\ Optimum v = o.

(** The test of line 129. *)
Definition stop_condition (p : Params double) (Cost OldOptimum : GainType) : Prop :=
  StopAtOptimum p <> 0 /\ Cost = OldOptimum /\ MaxPopulationSize p >= 1.

(** The test of lines 89-90. *)
Definition merge_wanted (p : Params double) (v : Vars) (Cost : GainType) : Prop :=
  Dimension p = DimensionSaved p /\ Cost >= OrdinalTourCost v /\
  BetterCost v > OrdinalTourCost v.

(** The node array after lines 92-94: the tour 1, 2, ..., [d], 1 is written
    into the [Next] fields. *)
Definition ordinal_links (d : nat) (ns : list Node) : list Node :=
  update d (set_Next (Some 1%nat))
    (foldl (fun ns a => update a (set_Next (Some (S a))) ns) ns (seq 1 (d - 1))).

(** A property of the globals that an assignment keeps. *)
Definition stable (J : Params double -> Vars -> Prop) (f : Vars -> Vars) : Prop :=
  forall p v, J p v -> J p (f v).

(** Notions used in the further properties *)

(** The node after the exchange of its two candidate sets. *)
Definition swap_sets (n : Node) : Node :=
  set_BackboneCandidateSet (CandidateSet n) (set_CandidateSet (BackboneCandidateSet n) n).

(** The machine in which [Trial_start] ends: [Random] has been called,
    [FirstNode] is [t], and [ChooseInitialTour] has been called on that. *)
Definition started (E : Externals double Rest Stats) (t : NodePtr)
  (m : Machine double Rest Stats) : Machine double Rest Stats :=
  let m1 := logged (Trace.called Trace.Random) m in
  let m2 := with_work (set_FirstNode t (snd (Random E (glob m1)))) m1 in
  let m3 := logged (Trace.called Trace.ChooseInitialTour) m2 in
  with_work (ChooseInitialTour E (glob m3)) m3.

(** The parameters are [p0] and the reading [f] of the variables is [x]. *)
Definition reads {X : Type} (p0 : Params double) (f : Vars -> X) (x : X)
  : Params double -> Vars -> Prop :=
  fun p v => p = p0 /\ f v = x.

(** The variables that [FindTour] does not assign. *)
Definition kept_by_FindTour (v : Vars) :=
  (ParameterFileName v, MaxMatrixDimension v, Run v, Runs v, BestCost v, Optimum v, Seed v).

(** The variables other than [BetterCost]. *)
Definition but_BetterCost (v : Vars) : Vars := set_BetterCost 0 v.

(** The variables that the computation of the cost of a run does not
    assign and the rest of the run may. *)
Definition run_counters (v : Vars) := (Run v, Runs v, BestCost v, Seed v).

(** The lines that FindTour.c prints and the routines that it calls. *)
Definition FindTour_event (e : Trace.Event) : bool :=
  match e with
  | Trace.printed msg =>
      match msg with
      | Trace.TimeLimitExceeded | Trace.ImprovedTrial _ _ | Trace.Gap | Trace.TimeMark _
      | Trace.PlainTrial _ _ | Trace.BackboneCandidates _ | Trace.SwapBanner => true
      | _ => false
      end
  | Trace.called r =>
      match r with
      | Trace.HashInitialize | Trace.HashInsert _ _ | Trace.ChooseInitialTour
      | Trace.Random | Trace.LinKernighan | Trace.MergeWithTour
      | Trace.RecordBetterTour | Trace.AdjustCandidateSet | Trace.ResetCandidateSet
      | Trace.CandidateReport
      | Trace.WriteTour Trace.OutputTourFileName Trace.BetterTour _ => true
      | _ => false
      end
  end.

(** [c] only appends to the log, and only events that [allowed] lets
    through. *)
Definition logs_only (allowed : Trace.Event -> bool) {A : Type}
  (c : M (Machine double Rest Stats) A) : Prop :=
  forall m a m', c m = Ok a m' ->
    exists new, trace m' = trace m ++ new /\ Forall (fun e => allowed e = true) new.

(** From [m] to [m'] the log has grown, and [BetterCost] has changed only
    if [RecordBetterTour] was called. *)
Definition recorded (m m' : Machine double Rest Stats) : Prop :=
  exists new, trace m' = trace m ++ new /\
    (BetterCost (var (glob m')) = BetterCost (var (glob m)) \/
     In (Trace.called Trace.RecordBetterTour) new).

(** What the crossover of lines 133-153 of [main] may log: selections,
    candidate edges, and a crossover of two different parents. *)
Definition crossover_event (e : Trace.Event) : bool :=
  match e with
  | Trace.called (Trace.LinearSelection _) => true
  | Trace.called (Trace.AddCandidate _ _ _ _) => true
  | Trace.called (Trace.ApplyCrossover Parent1 Parent2) => negb (Parent2 =? Parent1)
  | _ => false
  end.

Definition is_UpdateStatistics (e : Trace.Event) : bool :=
  match e with
  | Trace.called (Trace.UpdateStatistics _) => true
  | _ => false
  end.

Definition no_statistics (e : Trace.Event) : bool := negb (is_UpdateStatistics e).


(** What the loop of lines 77-88 of [main] may log. *)
Definition merge_event (e : Trace.Event) : bool :=
  match e with
  | Trace.printed (Trace.MergedWith _ _ | Trace.Gap | Trace.NewLine) => true
  | Trace.called (Trace.MergeTourWithIndividual _) => true
  | _ => false
  end.

(** The individuals that a log merges the tour with, in order. *)
Definition merged_individuals (log : list Trace.Event) : list Z :=
  flat_map (fun e => match e with
                     | Trace.called (Trace.MergeTourWithIndividual i) => [i]
                     | _ => []
                     end) log.

(** [Pi] of [NodeSet[i]]. *)
Definition Pi_at (g : Globals double Rest) (i : nat) : Z :=
  from_option Pi 0 (NodeSet (wk g) !! i).

(** The cost of the edge from node [i] to node [j] less their [Pi]
    values, as an [int]. *)
Definition reduced (E : Externals double Rest Stats) (g : Globals double Rest)
  (i j : nat) : Z :=
  wrap_int (C E g (Some i) (Some j) - Pi_at g i - Pi_at g j).

(** The reduced costs of the edges of the tour 1, 2, ..., Dimension, 1, in
    the order of the tour. *)
Definition ordinal_terms (E : Externals double Rest Stats) (g : Globals double Rest)
  : list Z :=
  let d := Z.to_nat (Dimension (par g)) in
  map (fun i => reduced E g i (S i)) (seq 1 (d - 1)) ++ [reduced E g d 1].

(** The cost of the tour 1, 2, ..., Dimension, 1 in reduced costs, divided
    by [Precision] as C divides. *)
Definition ordinal_tour_cost (E : Externals double Rest Stats) (g : Globals double Rest)
  : GainType :=
  Z.quot (foldr Z.add 0 (ordinal_terms E g)) (Precision (par g)).

(** The tests of the time limit that an execution makes (line 66 of
    FindTour.c), in the order in which it makes them: each test as the
    numbers of the two clock readings that it compares, the reading at the
    top of the trial and the reading at the entry of [FindTour]. *)
Fixpoint FindTour_trials_tests (E : Externals double Rest Stats) (fuel : nat) (entry : nat)
  (m : Machine double Rest Stats) : list (nat * nat) :=
  match fuel with
  | O => []
  | S fuel' =>
      if Trial (var (glob m)) <=? MaxTrials (par (glob m)) then
        (ticks m, entry) ::
        match FindTour_trial E fuel' (clock m entry) m with
        | Ok Continue m' =>
            FindTour_trials_tests E fuel' entry
              (with_var (set_Trial (Trial (var (glob m')) + 1) (var (glob m'))) m')
        | _ => []
        end
      else []
  end.

Definition FindTour_tests (E : Externals double Rest Stats) (fuel : nat)
  (m : Machine double Rest Stats) : list (nat * nat) :=
  match FindTour_entry E fuel m with
  | Ok _ m' =>
      FindTour_trials_tests E fuel (ticks m) (with_var (set_Trial 1 (var (glob m'))) m')
  | _ => []
  end.

Fixpoint main_runs_tests (E : Externals double Rest Stats) (fuel : nat)
  (m : Machine double Rest Stats) : list (nat * nat) :=
  match fuel with
  | O => []
  | S fuel' =>
      if Run (var (glob m)) <=? Runs (var (glob m)) then
        FindTour_tests E fuel' (ticked m) ++
        match Run_body E fuel' m with
        | Ok Continue m' =>
            main_runs_tests E fuel'
              (with_var (set_Run (Run (var (glob m')) + 1) (var (glob m'))) m')
        | _ => []
        end
      else []
  end.

Definition main_search_tests (E : Externals double Rest Stats) (fuel : nat)
  (LastTime : double) (m : Machine double Rest Stats) : list (nat * nat) :=
  match (main_ascent_result E LastTime >> assign (set_Run 1)) m with
  | Ok _ m' => main_runs_tests E fuel m'
  | _ => []
  end.

(** The two clocks give the same outcome to the test of the time limit
    that compares the readings [t]. *)
Definition agree_at (E : Externals double Rest Stats) (TL : double)
  (c1 c2 : nat -> double) (t : nat * nat) : Prop :=
  dge E (dsub E (c1 (fst t)) (c1 (snd t))) TL = dge E (dsub E (c2 (fst t)) (c2 (snd t))) TL.

End Notions.

(** * Properties *)

(** ** Basic facts *)


Lemma truthy_true z : truthy z = true <-> z <> 0.
Proof. unfold truthy. destruct (Z.eqb_spec z 0); simpl; split; intros; congruence. Qed.

Lemma truthy_false z : truthy z = false <-> z = 0.
Proof. unfold truthy. destruct (Z.eqb_spec z 0); simpl; split; intros; congruence. Qed.

Lemma bind_Ok {St A B : Type} (c : M St A) (k : A -> M St B) s b s' :
  bind c k s = Ok b s' -> exists a s1, c s = Ok a s1 /\ k a s1 = Ok b s'.
Proof. unfold bind. destruct (c s) as [a s1| |]; [eauto|discriminate|discriminate]. Qed.

(** ** The node array *)

Section Heap.

Context {double Rest Stats : Type}.
Local Abbreviation Mach := (Machine double Rest Stats).
Implicit Types (m : Mach) (ns : list Node) (a b t : nat).

Lemma update_lookup a f ns b :
  update a f ns !! b = if decide (a = b) then f <$> ns !! b else ns !! b.
Proof.
  unfold update. destruct (ns !! a) as [n|] eqn:Ha.
  - destruct (decide (a = b)) as [<-|Hne].
    + rewrite list_lookup_insert_eq; [now rewrite Ha|]. eapply lookup_lt_Some; eauto.
    + now rewrite list_lookup_insert_ne.
  - destruct (decide (a = b)) as [<-|Hne]; [now rewrite Ha|reflexivity].
Qed.

Lemma update_lookup_eq a f ns n : ns !! a = Some n -> update a f ns !! a = Some (f n).
Proof. intros H. rewrite update_lookup, decide_True by reflexivity. now rewrite H. Qed.

Lemma update_lookup_ne a f ns b : a <> b -> update a f ns !! b = ns !! b.
Proof. intros H. now rewrite update_lookup, decide_False. Qed.

Lemma update_field {X} (sel : Node -> X) a f ns b :
  (forall n, sel (f n) = sel n) -> sel <$> update a f ns !! b = sel <$> ns !! b.
Proof.
  intros Hf. rewrite update_lookup. destruct (decide (a = b)); [|reflexivity].
  destruct (ns !! b); simpl; [now rewrite Hf|reflexivity].
Qed.

Lemma nodes_of_with_NodeSet ns m : nodes_of (with_NodeSet ns m) = ns.
Proof. reflexivity. Qed.

Lemma with_NodeSet_twice ns ns' m :
  with_NodeSet ns (with_NodeSet ns' m) = with_NodeSet ns m.
Proof. reflexivity. Qed.

Lemma with_NodeSet_same m : with_NodeSet (nodes_of m) m = m.
Proof. destruct m as [[p v [n f h ps fi r]] s c t tr]. reflexivity. Qed.

Lemma load_Some t n m : nodes_of m !! t = Some n -> load (Some t) m = Ok n m.
Proof. unfold load, nodes_of, bind, work. simpl. intros ->. reflexivity. Qed.

Lemma store_Some t n f m :
  nodes_of m !! t = Some n ->
  store (Some t) f m = Ok tt (with_NodeSet (update t f (nodes_of m)) m).
Proof.
  intros H. unfold store, bind. rewrite (load_Some _ _ _ H).
  unfold work, put_work, update. simpl. unfold nodes_of in H |- *. now rewrite H.
Qed.

Lemma load_None m : load None m = Fault.
Proof. reflexivity. Qed.

Lemma store_None f m : store None f m = Fault.
Proof. reflexivity. Qed.

(** Paths *)

Lemma path_field sel ns ns' l final :
  (forall a, sel <$> ns' !! a = sel <$> ns !! a) ->
  path sel ns l final -> path sel ns' l final.
Proof.
  intros Hf. induction l as [|a l IH]; simpl; [trivial|].
  intros [(n & Hn & Hs) Hl]. split; [|auto].
  specialize (Hf a). rewrite Hn in Hf. simpl in Hf.
  destruct (ns' !! a) as [n'|]; simpl in Hf; [|discriminate].
  exists n'. split; [reflexivity|]. congruence.
Qed.

Lemma path_lookup sel ns l final a :
  path sel ns l final -> a ∈ l -> exists n, ns !! a = Some n.
Proof.
  induction l as [|b l IH]; simpl; intros Hp Ha.
  - inversion Ha.
  - destruct Hp as [(n & Hn & _) Hl]. apply elem_of_cons in Ha as [->|Ha]; eauto.
Qed.

Section Walk.

Variable visit : NodePtr -> M Mach NodePtr.
Variable sel : Node -> NodePtr.
Variable upd : nat -> list Node -> list Node.

Hypothesis visit_ok : forall t b m n,
  nodes_of m !! t = Some n -> sel n = Some b -> is_Some (nodes_of m !! b) ->
  visit (Some t) m = Ok (Some b) (with_NodeSet (upd t (nodes_of m)) m).
Hypothesis upd_sel : forall t ns a, sel <$> upd t ns !! a = sel <$> ns !! a.

Lemma upd_is_Some t ns a : is_Some (ns !! a) -> is_Some (upd t ns !! a).
Proof.
  intros [n Hn]. specialize (upd_sel t ns a). rewrite Hn in upd_sel.
  destruct (upd t ns !! a); [eauto|discriminate].
Qed.

Lemma ring_walk_path : forall todo t m fuel a0,
  FirstNode (wk (glob m)) = Some a0 ->
  is_Some (nodes_of m !! a0) ->
  a0 ∉ todo ->
  path sel (nodes_of m) (t :: todo) a0 ->
  (length todo < fuel)%nat ->
  ring_walk fuel visit (Some t) m =
    Ok (Some a0) (with_NodeSet (foldl (fun ns a => upd a ns) (nodes_of m) (t :: todo)) m).
Proof.
  induction todo as [|t2 todo IH]; intros t m fuel a0 Hf Ha0 Hnin Hp Hfuel;
    destruct fuel as [|fuel]; try (simpl in Hfuel; lia);
    destruct Hp as [(n & Hn & Hs) Hp]; simpl in Hs.
  - simpl. unfold bind. rewrite (visit_ok _ _ _ _ Hn Hs Ha0). simpl.
    rewrite Hf. simpl. rewrite Nat.eqb_refl. reflexivity.
  - assert (Ht2 : is_Some (nodes_of m !! t2)).
    { destruct Hp as [(n2 & Hn2 & _) _]. eauto. }
    cbn [ring_walk]. unfold bind at 1. rewrite (visit_ok _ _ _ _ Hn Hs Ht2).
    unfold bind, work. cbn [with_NodeSet with_work with_glob glob wk set_NodeSet FirstNode].
    rewrite Hf. cbn [ptr_eqb].
    destruct (Nat.eqb_spec t2 a0) as [->|Hne].
    { exfalso. apply Hnin. left. }
    rewrite IH with (a0 := a0).
    + rewrite nodes_of_with_NodeSet. reflexivity.
    + exact Hf.
    + apply upd_is_Some. exact Ha0.
    + intros Hin. apply Hnin. now right.
    + eapply path_field; [|exact Hp]. intros a. apply upd_sel.
    + simpl in Hfuel. lia.
Qed.

End Walk.
End Heap.

(** ** The loops over a ring *)

Section Loops.

Context {double Rest Stats : Type}.
Local Abbreviation Mach := (Machine double Rest Stats).
Implicit Types (m : Mach) (ns : list Node) (a b t : nat).

(** Simple loops: one field of the visited node is rewritten. *)

Lemma foldl_update_lookup (g : nat -> Node -> Node) l : forall ns b,
  NoDup l ->
  foldl (fun ns a => update a (g a) ns) ns l !! b =
    if decide (b ∈ l) then g b <$> ns !! b else ns !! b.
Proof.
  induction l as [|a l IH]; intros ns b Hnd; cbn [foldl].
  - destruct (decide (b ∈ [])) as [H|H]; [inversion H|reflexivity].
  - apply NoDup_cons in Hnd as [Ha Hnd]. rewrite IH by assumption.
    rewrite update_lookup.
    destruct (decide (a = b)) as [<-|Hab].
    + rewrite (decide_False (P := a ∈ l)) by assumption.
      rewrite (decide_True (P := a ∈ a :: l)) by (apply elem_of_cons; now left).
      reflexivity.
    + destruct (decide (b ∈ l)) as [Hb|Hb].
      * rewrite (decide_True (P := b ∈ a :: l)) by (apply elem_of_cons; now right).
        reflexivity.
      * rewrite (decide_False (P := b ∈ a :: l)); [reflexivity|].
        intros H. apply elem_of_cons in H as [H|H]; [congruence|contradiction].
Qed.

Lemma length_update a f ns : length (update a f ns) = length ns.
Proof. unfold update. destruct (ns !! a); [apply length_insert|reflexivity]. Qed.

Lemma length_foldl_update (g : nat -> Node -> Node) l : forall ns,
  length (foldl (fun ns a => update a (g a) ns) ns l) = length ns.
Proof.
  induction l as [|a l IH]; intros ns; simpl; [reflexivity|].
  now rewrite IH, length_update.
Qed.


Lemma copy_to_InputSuc_ok t b m n :
  nodes_of m !! t = Some n -> Suc n = Some b -> is_Some (nodes_of m !! b) ->
  copy_to_InputSuc (Some t) m =
    Ok (Some b) (with_NodeSet (update t (fun n => set_InputSuc (Suc n) n) (nodes_of m)) m).
Proof.
  intros Hn Hs _. unfold copy_to_InputSuc, bind. rewrite (load_Some _ _ _ Hn).
  rewrite (store_Some _ _ _ _ Hn). unfold ret, update. rewrite Hn, Hs. reflexivity.
Qed.

Lemma clear_ok t b m n :
  nodes_of m !! t = Some n -> Suc n = Some b -> is_Some (nodes_of m !! b) ->
  (store (Some t) clear_tour_links >> let* n := load (Some t) in ret (Suc n)) m =
    Ok (Some b) (with_NodeSet (update t clear_tour_links (nodes_of m)) m).
Proof.
  intros Hn Hs _. unfold bind. rewrite (store_Some _ _ _ _ Hn).
  erewrite load_Some; [|rewrite nodes_of_with_NodeSet; apply update_lookup_eq; exact Hn].
  unfold ret. simpl. now rewrite Hs.
Qed.

(** The commit loop. *)







End Loops.

(** ** Machines that differ in their clocks

    Every part of the two functions takes machines that differ only in
    clocks and statistics to such machines, as long as the clocks give the
    same outcome to the tests of the time limit; and an invariant [J] of the
    globals that the assignments of a part keep is kept by that part. *)

Section Respect.

Context {double Rest Stats : Type} (E : Externals double Rest Stats).
Variables (c1 c2 : nat -> double) (TL : double).
Variable J : Params double -> Vars -> Prop.
Hypothesis agree : clocks_agree E TL c1 c2.

Local Abbreviation R := (@respects double Rest Stats c1 c2 TL J _).
Local Abbreviation Rp := (fun p1 p2 : Params double => p1 = p2 /\ TimeLimit p1 = TL).
Local Abbreviation Rt := (same_reading c1 c2).

Lemma ret_resp {A} (RA : A -> A -> Prop) a1 a2 : RA a1 a2 -> R RA (ret a1) (ret a2).
Proof. intros H m1 m2 Hs. simpl. auto. Qed.

Lemma bind_resp {A B} (RA : A -> A -> Prop) (RB : B -> B -> Prop) p1 p2 k1 k2 :
  R RA p1 p2 ->
  (forall a1 a2, RA a1 a2 -> R RB (k1 a1) (k2 a2)) ->
  R RB (bind p1 k1) (bind p2 k2).
Proof.
  intros Hp Hk m1 m2 Hs. unfold bind. specialize (Hp m1 m2 Hs).
  destruct (p1 m1), (p2 m2); simpl in *; try tauto.
  destruct Hp as [Ha Hm]. apply (Hk _ _ Ha _ _ Hm).
Qed.

Lemma fault_resp {A} (RA : A -> A -> Prop) : R RA fault fault.
Proof. intros m1 m2 _. exact I. Qed.

Lemma out_of_fuel_resp {A} (RA : A -> A -> Prop) : R RA out_of_fuel out_of_fuel.
Proof. intros m1 m2 _. exact I. Qed.

Lemma GetTime_resp : R Rt GetTime GetTime.
Proof.
  intros m1 m2 (Hg & Ht & Hl & H1 & H2 & Hp & HJ). simpl. split.
  - exists (ticks m1). rewrite H1, <- Ht, H2. auto.
  - repeat split; simpl; auto.
Qed.

Lemma emit_resp e : R eq (emit e) (emit e).
Proof.
  intros m1 m2 (Hg & Ht & Hl & H1 & H2 & Hp & HJ). simpl. split; [reflexivity|].
  repeat split; simpl; auto. now rewrite Hl.
Qed.

Lemma globals_resp : R eq globals globals.
Proof. intros m1 m2 Hs. simpl. split; [apply Hs|exact Hs]. Qed.

Lemma params_resp : R Rp params params.
Proof.
  intros m1 m2 Hs. simpl. split; [|exact Hs].
  destruct Hs as (Hg & Ht & Hl & H1 & H2 & Hp & HJ). rewrite Hg in *. auto.
Qed.

Lemma vars_resp : R eq vars vars.
Proof. intros m1 m2 Hs. simpl. split; [|exact Hs]. destruct Hs as (-> & _). reflexivity. Qed.

Lemma work_resp : R eq work work.
Proof. intros m1 m2 Hs. simpl. split; [|exact Hs]. destruct Hs as (-> & _). reflexivity. Qed.

Lemma assign_resp f : stable J f -> R eq (assign f) (assign f).
Proof.
  intros Hf m1 m2 (Hg & Ht & Hl & H1 & H2 & Hp & HJ). simpl. split; [reflexivity|].
  repeat split; simpl; auto. now rewrite Hg.
Qed.

Lemma put_work_resp w : R eq (put_work w) (put_work w).
Proof.
  intros m1 m2 (Hg & Ht & Hl & H1 & H2 & Hp & HJ). simpl. split; [reflexivity|].
  repeat split; simpl; auto. now rewrite Hg.
Qed.

Lemma stats_resp (f1 f2 : Globals double Rest -> Stats -> Stats) :
  R eq (fun m => Ok tt (with_stats (f1 (glob m) (stats m)) m))
       (fun m => Ok tt (with_stats (f2 (glob m) (stats m)) m)).
Proof.
  intros m1 m2 (Hg & Ht & Hl & H1 & H2 & Hp & HJ). simpl. split; [reflexivity|].
  repeat split; simpl; auto.
Qed.

Create HintDb resp.
Hint Resolve ret_resp fault_resp out_of_fuel_resp GetTime_resp emit_resp globals_resp
  params_resp vars_resp work_resp assign_resp put_work_resp stats_resp : resp.

Ltac resp_intro :=
  let a1 := fresh "a" in let a2 := fresh "a" in let H := fresh "Hr" in
  intros a1 a2 H;
  first [ subst a2
        | destruct H as [<- H]
        | idtac ].

Ltac solve_stable := unfold stable in *; intros; eauto.

Ltac resp0 :=
  cbv zeta;
  match goal with
  | |- respects _ _ _ _ _ (assign _) (assign _) => apply assign_resp; solve_stable
  | |- respects _ _ _ _ _ (bind _ _) (bind _ _) =>
      eapply bind_resp; [ resp0 | resp_intro; resp0 ]
  | |- respects _ _ _ _ _ (if ?b then _ else _) (if ?b then _ else _) =>
      destruct b; resp0
  | |- respects _ _ _ _ _ (match ?x with _ => _ end) (match ?x with _ => _ end) =>
      destruct x; resp0
  | |- respects _ _ _ _ _ (ret ?a) (ret ?a) =>
      first [ apply (ret_resp eq); reflexivity | apply ret_resp; auto ]
  | |- respects _ _ _ _ _ (ret _) (ret _) => apply ret_resp; auto
  | |- _ => solve [eauto with resp]
  | |- _ => idtac
  end.

Lemma printff_resp msg : R eq (printff msg) (printff msg).
Proof. unfold printff. resp0. Qed.
Hint Resolve printff_resp : resp.

Lemma call_resp r f : R eq (call r f) (call r f).
Proof. unfold call. resp0. Qed.
Hint Resolve call_resp : resp.

Lemma call_val_resp {A} r (f : _ -> A * _) : R eq (call_val r f) (call_val r f).
Proof. unfold call_val. resp0. Qed.
Hint Resolve call_val_resp : resp.

Lemma call_out_resp r : R eq (call_out r) (call_out r).
Proof. unfold call_out. resp0. Qed.
Hint Resolve call_out_resp : resp.

Lemma call_stats_resp r f1 f2 : R eq (call_stats r f1) (call_stats r f2).
Proof. unfold call_stats. resp0. Qed.
Hint Resolve call_stats_resp : resp.

Lemma load_resp p : R eq (load p) (load p).
Proof. unfold load. resp0. Qed.
Hint Resolve load_resp : resp.

Lemma store_resp p f : R eq (store p f) (store p f).
Proof. unfold store. resp0. Qed.
Hint Resolve store_resp : resp.

Lemma NodeSet_at_resp k : R eq (NodeSet_at k) (NodeSet_at k).
Proof. unfold NodeSet_at. resp0. Qed.
Hint Resolve NodeSet_at_resp : resp.


Lemma for_range_resp n : forall lo body,
  (forall i, R eq (body i) (body i)) -> R eq (for_range lo n body) (for_range lo n body).
Proof.
  induction n; intros lo body Hb; simpl; resp0.
Qed.

Lemma ring_walk_resp fuel : forall visit t,
  (forall t, R eq (visit t) (visit t)) ->
  R eq (ring_walk fuel visit t) (ring_walk fuel visit t).
Proof.
  induction fuel; intros visit t Hv; simpl; resp0.
Qed.

Hint Resolve for_range_resp ring_walk_resp : resp.

Ltac resp :=
  cbv zeta;
  match goal with
  | |- respects _ _ _ _ _ (assign _) (assign _) => apply assign_resp; solve_stable
  | |- respects _ _ _ _ _ (ring_walk _ _ _) (ring_walk _ _ _) =>
      apply ring_walk_resp; intros; resp
  | |- respects _ _ _ _ _ (for_range _ _ _) (for_range _ _ _) =>
      apply for_range_resp; intros; resp
  | |- respects _ _ _ _ _ (bind _ _) (bind _ _) =>
      eapply bind_resp; [ resp | resp_intro; resp ]
  | |- respects _ _ _ _ _ (if ?b then _ else _) (if ?b then _ else _) =>
      destruct b; resp
  | |- respects _ _ _ _ _ (match ?x with _ => _ end) (match ?x with _ => _ end) =>
      destruct x; resp
  | |- respects _ _ _ _ _ (ret ?a) (ret ?a) =>
      first [ apply (ret_resp eq); reflexivity | apply ret_resp; auto ]
  | |- respects _ _ _ _ _ (ret _) (ret _) => apply ret_resp; auto
  | |- _ => solve [eauto with resp]
  | |- _ => idtac
  end.


(** *** FindTour *)

Hypothesis J_Trial : forall x, stable J (set_Trial x).
Hypothesis J_BetterCost : forall x, stable J (set_BetterCost x).
Hypothesis J_OrdinalTourCost : forall x, stable J (set_OrdinalTourCost x).

Lemma SwapCandidateSets_resp fuel : R eq (SwapCandidateSets fuel) (SwapCandidateSets fuel).
Proof. unfold SwapCandidateSets. resp. Qed.
Hint Resolve SwapCandidateSets_resp : resp.

Lemma FindTour_clear_resp fuel : R eq (FindTour_clear fuel) (FindTour_clear fuel).
Proof. unfold FindTour_clear. resp. Qed.
Hint Resolve FindTour_clear_resp : resp.

Lemma reduced_cost_resp i j : R eq (reduced_cost E i j) (reduced_cost E i j).
Proof. unfold reduced_cost. resp. Qed.
Hint Resolve reduced_cost_resp : resp.

Lemma add_OrdinalTourCost_resp d : R eq (add_OrdinalTourCost d) (add_OrdinalTourCost d).
Proof. unfold add_OrdinalTourCost. resp. Qed.
Hint Resolve add_OrdinalTourCost_resp : resp.

Lemma FindTour_OrdinalTourCost_resp :
  R eq (FindTour_OrdinalTourCost E) (FindTour_OrdinalTourCost E).
Proof. unfold FindTour_OrdinalTourCost. resp. Qed.
Hint Resolve FindTour_OrdinalTourCost_resp : resp.

Lemma FindTour_entry_resp fuel : R Rt (FindTour_entry E fuel) (FindTour_entry E fuel).
Proof. unfold FindTour_entry. resp. Qed.
Hint Resolve FindTour_entry_resp : resp.

Lemma advance_FirstNode_resp i : R eq (advance_FirstNode i) (advance_FirstNode i).
Proof. induction i; simpl; resp. Qed.
Hint Resolve advance_FirstNode_resp : resp.

Lemma Trial_start_resp : R eq (Trial_start E) (Trial_start E).
Proof. unfold Trial_start. resp. Qed.
Hint Resolve Trial_start_resp : resp.

Lemma Trial_merge_better_resp fuel c :
  R eq (Trial_merge_better E fuel c) (Trial_merge_better E fuel c).
Proof. unfold Trial_merge_better. resp. Qed.
Hint Resolve Trial_merge_better_resp : resp.

Lemma Trial_merge_ordinal_resp c :
  R eq (Trial_merge_ordinal E c) (Trial_merge_ordinal E c).
Proof. unfold Trial_merge_ordinal. resp. Qed.
Hint Resolve Trial_merge_ordinal_resp : resp.

Lemma print_gap_resp : R eq print_gap print_gap.
Proof. unfold print_gap. resp. Qed.
Hint Resolve print_gap_resp : resp.

Lemma Trial_record_resp c : R eq (Trial_record E c) (Trial_record E c).
Proof. unfold Trial_record. resp. Qed.
Hint Resolve Trial_record_resp : resp.

Lemma Trial_backbone_resp fuel : R eq (Trial_backbone E fuel) (Trial_backbone E fuel).
Proof. unfold Trial_backbone. resp. Qed.
Hint Resolve Trial_backbone_resp : resp.

Lemma Trial_body_resp fuel : R eq (Trial_body E fuel) (Trial_body E fuel).
Proof. unfold Trial_body. resp. Qed.
Hint Resolve Trial_body_resp : resp.

Lemma FindTour_trial_resp fuel t1 t2 :
  Rt t1 t2 -> R eq (FindTour_trial E fuel t1) (FindTour_trial E fuel t2).
Proof.
  intros (j & -> & ->). unfold FindTour_trial.
  eapply bind_resp; [apply params_resp|]. intros p ? [<- Hp].
  eapply bind_resp; [apply GetTime_resp|]. intros ? ? (i & -> & ->).
  rewrite Hp, (agree i j). resp.
Qed.
Hint Resolve FindTour_trial_resp : resp.

Lemma FindTour_trials_resp fuel : forall t1 t2,
  Rt t1 t2 -> R eq (FindTour_trials E fuel t1) (FindTour_trials E fuel t2).
Proof. induction fuel; intros t1 t2 Ht; simpl; resp. Qed.
Hint Resolve FindTour_trials_resp : resp.

Lemma FindTour_backbone_end_resp fuel :
  R eq (FindTour_backbone_end fuel) (FindTour_backbone_end fuel).
Proof. unfold FindTour_backbone_end. resp. Qed.
Hint Resolve FindTour_backbone_end_resp : resp.

Lemma adopt_Suc_resp t : R eq (adopt_Suc t) (adopt_Suc t).
Proof. unfold adopt_Suc. resp. Qed.
Hint Resolve adopt_Suc_resp : resp.

Lemma commit_BestSuc_resp t : R eq (commit_BestSuc t) (commit_BestSuc t).
Proof. unfold commit_BestSuc. resp. Qed.
Hint Resolve commit_BestSuc_resp : resp.

Lemma FindTour_exit_resp fuel : R eq (FindTour_exit E fuel) (FindTour_exit E fuel).
Proof. unfold FindTour_exit. resp. Qed.
Hint Resolve FindTour_exit_resp : resp.

Lemma FindTour_resp fuel : R eq (FindTour E fuel) (FindTour E fuel).
Proof. unfold FindTour. resp. Qed.
Hint Resolve FindTour_resp : resp.

(** *** main *)

Hypothesis J_Run : forall x, stable J (set_Run x).
Hypothesis J_Runs : forall x, stable J (set_Runs x).
Hypothesis J_BestCost : forall x, stable J (set_BestCost x).
Hypothesis J_Optimum : forall x, stable J (set_Optimum x).
Hypothesis J_Seed : forall x, stable J (set_Seed x).

Lemma Fitness_at_resp i : R eq (Fitness_at i) (Fitness_at i).
Proof. unfold Fitness_at. resp. Qed.
Hint Resolve Fitness_at_resp : resp.

Lemma merge_with_population_resp fuel : forall i c,
  R eq (merge_with_population E fuel i c) (merge_with_population E fuel i c).
Proof. induction fuel; intros i c; simpl; resp. Qed.
Hint Resolve merge_with_population_resp : resp.

Lemma update_population_resp c : R eq (update_population E c) (update_population E c).
Proof. unfold update_population. resp. Qed.
Hint Resolve update_population_resp : resp.

Lemma Run_cost_resp fuel : R eq (Run_cost E fuel) (Run_cost E fuel).
Proof. unfold Run_cost. resp. Qed.
Hint Resolve Run_cost_resp : resp.

Lemma Run_new_best_resp c : R eq (Run_new_best E c) (Run_new_best E c).
Proof. unfold Run_new_best. resp. Qed.
Hint Resolve Run_new_best_resp : resp.

Lemma copy_to_InputSuc_resp t : R eq (copy_to_InputSuc t) (copy_to_InputSuc t).
Proof. unfold copy_to_InputSuc. resp. Qed.
Hint Resolve copy_to_InputSuc_resp : resp.

Lemma Run_copy_tour_resp fuel : R eq (Run_copy_tour fuel) (Run_copy_tour fuel).
Proof. unfold Run_copy_tour. resp. Qed.
Hint Resolve Run_copy_tour_resp : resp.

Lemma Run_new_optimum_resp fuel c : R eq (Run_new_optimum fuel c) (Run_new_optimum fuel c).
Proof. unfold Run_new_optimum. resp. Qed.
Hint Resolve Run_new_optimum_resp : resp.

Lemma select_Parent2_resp fuel : forall p1,
  R eq (select_Parent2 E fuel p1) (select_Parent2 E fuel p1).
Proof. induction fuel; intros p1; simpl; resp. Qed.
Hint Resolve select_Parent2_resp : resp.

Lemma adopt_child_edge_resp t : R eq (adopt_child_edge E t) (adopt_child_edge E t).
Proof. unfold adopt_child_edge. resp. Qed.
Hint Resolve adopt_child_edge_resp : resp.

Lemma Run_crossover_resp fuel : R eq (Run_crossover E fuel) (Run_crossover E fuel).
Proof. unfold Run_crossover. resp. Qed.
Hint Resolve Run_crossover_resp : resp.

Lemma reseed_resp : R eq (reseed E) (reseed E).
Proof. unfold reseed. resp. Qed.
Hint Resolve reseed_resp : resp.

Lemma Run_report_resp t1 t2 c : R eq (Run_report E t1 c) (Run_report E t2 c).
Proof. unfold Run_report. resp. Qed.
Hint Resolve Run_report_resp : resp.

Lemma Run_next_resp fuel c old : R eq (Run_next E fuel c old) (Run_next E fuel c old).
Proof. unfold Run_next. resp. Qed.
Hint Resolve Run_next_resp : resp.

Lemma Run_finish_resp fuel t1 t2 c :
  R eq (Run_finish E fuel t1 c) (Run_finish E fuel t2 c).
Proof. unfold Run_finish. resp. Qed.
Hint Resolve Run_finish_resp : resp.

Lemma Run_body_resp fuel : R eq (Run_body E fuel) (Run_body E fuel).
Proof. unfold Run_body. resp. Qed.
Hint Resolve Run_body_resp : resp.

Lemma main_runs_resp fuel : R eq (main_runs E fuel) (main_runs E fuel).
Proof. induction fuel; simpl; resp. Qed.
Hint Resolve main_runs_resp : resp.

Lemma main_ascent_result_resp t1 t2 :
  R eq (main_ascent_result E t1) (main_ascent_result E t2).
Proof. unfold main_ascent_result. resp. Qed.
Hint Resolve main_ascent_result_resp : resp.

Lemma main_search_resp fuel t1 t2 :
  R eq (main_search E fuel t1) (main_search E fuel t2).
Proof. unfold main_search. resp. Qed.

(** *** The tests of the time limit that are made

    For the parts that test the time limit it is enough that the clocks
    agree on the tests that the first execution makes. *)

Local Abbreviation A := (agree_at E TL c1 c2).
Implicit Types (m : Machine double Rest Stats).

Lemma rsim_bind {X Y} (RA : X -> X -> Prop) (RB : Y -> Y -> Prop)
  (p1 p2 : M (Machine double Rest Stats) X) k1 k2 m1 m2 :
  rsim c1 c2 TL J RA (p1 m1) (p2 m2) ->
  (forall a1 a2 n1 n2, p1 m1 = Ok a1 n1 -> p2 m2 = Ok a2 n2 -> RA a1 a2 ->
     sim c1 c2 TL J n1 n2 -> rsim c1 c2 TL J RB (k1 a1 n1) (k2 a2 n2)) ->
  rsim c1 c2 TL J RB (bind p1 k1 m1) (bind p2 k2 m2).
Proof.
  intros Hp Hk. unfold bind.
  destruct (p1 m1) as [a1 n1| |], (p2 m2) as [a2 n2| |]; simpl in Hp; try tauto.
  destruct Hp as [Ha Hs]. apply Hk; auto.
Qed.

Lemma sim_ticked m1 m2 : sim c1 c2 TL J m1 m2 -> sim c1 c2 TL J (ticked m1) (ticked m2).
Proof. intros (Hg & Ht & Hl & H1 & H2 & Hp & HJ). repeat split; simpl; auto. Qed.

Lemma sim_with_var f m1 m2 :
  stable J f -> sim c1 c2 TL J m1 m2 ->
  sim c1 c2 TL J (with_var (f (var (glob m1))) m1) (with_var (f (var (glob m2))) m2).
Proof.
  intros Hf (Hg & Ht & Hl & H1 & H2 & Hp & HJ). repeat split; simpl; auto.
  now rewrite Hg.
Qed.

Lemma bind_assign {Y} f (k : unit -> M (Machine double Rest Stats) Y) m :
  bind (assign f) k m = k tt (with_var (f (var (glob m))) m).
Proof. reflexivity. Qed.

Lemma FindTour_trial_eq fuel (t : double) m :
  FindTour_trial E fuel t m =
    (if dge E (dsub E (clock m (ticks m)) t) (TimeLimit (par (glob m)))
     then (if TraceLevel (par (glob m)) >=? 1 then printff Trace.TimeLimitExceeded
           else ret tt) >> ret Break
     else Trial_body E fuel) (ticked m).
Proof. reflexivity. Qed.

Lemma FindTour_trial_at fuel j m1 m2 :
  sim c1 c2 TL J m1 m2 -> A (ticks m1, j) ->
  rsim c1 c2 TL J eq (FindTour_trial E fuel (c1 j) m1) (FindTour_trial E fuel (c2 j) m2).
Proof.
  intros Hs Ha. pose proof (sim_ticked _ _ Hs) as Hs'.
  destruct Hs as (Hg & Ht & Hl & H1 & H2 & Hp & HJ).
  rewrite !FindTour_trial_eq. rewrite H1, H2, <- Hg, <- Ht, Hp.
  unfold agree_at in Ha. cbn [fst snd] in Ha. rewrite <- Ha.
  destruct (dge E (dsub E (c1 (ticks m1)) (c1 j)) TL).
  - assert (Hr : R eq ((if TraceLevel (par (glob m1)) >=? 1
                        then printff Trace.TimeLimitExceeded else ret tt) >> ret Break)
                      ((if TraceLevel (par (glob m1)) >=? 1
                        then printff Trace.TimeLimitExceeded else ret tt) >> ret Break))
      by resp.
    apply Hr. exact Hs'.
  - apply Trial_body_resp. exact Hs'.
Qed.

Lemma FindTour_trials_eq fuel (t : double) m :
  FindTour_trials E (S fuel) t m =
    (if Trial (var (glob m)) <=? MaxTrials (par (glob m)) then
       bind (FindTour_trial E fuel t)
         (fun flow => match flow with
                      | Break => ret tt
                      | Continue =>
                          assign (fun v => set_Trial (Trial v + 1) v) >>
                          FindTour_trials E fuel t
                      end)
     else ret tt) m.
Proof. reflexivity. Qed.

Lemma FindTour_trials_at fuel : forall j m1 m2,
  sim c1 c2 TL J m1 m2 ->
  Forall A (FindTour_trials_tests E fuel j m1) ->
  rsim c1 c2 TL J eq (FindTour_trials E fuel (c1 j) m1) (FindTour_trials E fuel (c2 j) m2).
Proof.
  induction fuel as [|fuel IH]; intros j m1 m2 Hs HF; [exact I|].
  rewrite !FindTour_trials_eq. cbn [FindTour_trials_tests] in HF.
  assert (Hg : glob m1 = glob m2) by apply Hs.
  assert (H1 : clock m1 = c1) by apply Hs.
  rewrite <- Hg. rewrite H1 in HF.
  destruct (Trial (var (glob m1)) <=? MaxTrials (par (glob m1))); [|simpl; auto].
  apply Forall_cons in HF as [Ha HF].
  apply (rsim_bind eq); [apply FindTour_trial_at; assumption|].
  intros flow ? n1 n2 Hn1 _ <- Hsn. rewrite Hn1 in HF.
  destruct flow; [|simpl; auto].
  unfold bind at 1 2, assign. apply IH; [|exact HF].
  apply (sim_with_var (fun v => set_Trial (Trial v + 1) v)); [|exact Hsn].
  intros p v. apply J_Trial.
Qed.

Lemma FindTour_entry_time fuel m (t : double) m' :
  FindTour_entry E fuel m = Ok t m' -> t = clock m (ticks m).
Proof.
  unfold FindTour_entry. intros H.
  apply bind_Ok in H as (t0 & m0 & H0 & H). unfold GetTime in H0. injection H0 as <- <-.
  apply bind_Ok in H as ([] & m1 & _ & H).
  apply bind_Ok in H as (p & m2 & _ & H).
  apply bind_Ok in H as (v & m3 & _ & H).
  apply bind_Ok in H as ([] & m4 & _ & H).
  apply bind_Ok in H as ([] & m5 & _ & H).
  apply bind_Ok in H as ([] & m6 & _ & H).
  unfold ret in H. now injection H as <- _.
Qed.

Lemma FindTour_at fuel m1 m2 :
  sim c1 c2 TL J m1 m2 ->
  Forall A (FindTour_tests E fuel m1) ->
  rsim c1 c2 TL J eq (FindTour E fuel m1) (FindTour E fuel m2).
Proof.
  intros Hs HF. unfold FindTour, FindTour_tests in *.
  assert (Ht : ticks m1 = ticks m2) by apply Hs.
  assert (H1 : clock m1 = c1) by apply Hs.
  assert (H2 : clock m2 = c2) by apply Hs.
  apply (rsim_bind Rt); [apply FindTour_entry_resp; assumption|].
  intros t1 t2 n1 n2 Hn1 Hn2 _ Hsn. rewrite Hn1 in HF.
  apply FindTour_entry_time in Hn1, Hn2. rewrite H1 in Hn1. rewrite H2, <- Ht in Hn2.
  subst t1 t2.
  rewrite !bind_assign.
  apply (rsim_bind eq).
  - apply FindTour_trials_at; [|exact HF].
    apply (sim_with_var (set_Trial 1)); [apply J_Trial|exact Hsn].
  - intros [] [] k1 k2 _ _ _ Hsk.
    assert (Hr : R eq (FindTour_backbone_end fuel >> FindTour_exit E fuel)
                      (FindTour_backbone_end fuel >> FindTour_exit E fuel)) by resp.
    apply Hr. exact Hsk.
Qed.

Lemma Run_body_at fuel m1 m2 :
  sim c1 c2 TL J m1 m2 ->
  Forall A (FindTour_tests E fuel (ticked m1)) ->
  rsim c1 c2 TL J eq (Run_body E fuel m1) (Run_body E fuel m2).
Proof.
  intros Hs HF. unfold Run_body.
  apply (rsim_bind Rt); [apply GetTime_resp; assumption|].
  intros t1 t2 n1 n2 Hn1 Hn2 _ Hsn.
  unfold GetTime in Hn1, Hn2. injection Hn1 as _ <-. injection Hn2 as _ <-.
  unfold Run_cost.
  apply (rsim_bind eq).
  - apply (rsim_bind eq); [apply FindTour_at; assumption|].
    intros Cost ? k1 k2 _ _ <- Hsk.
    assert (Hr : R eq
      (let* p := params in
       let* v := vars in
       if MaxPopulationSize p >? 1 then
         let* Cost0 := merge_with_population E fuel 0 Cost in
         update_population E Cost0 >> ret Cost0
       else if Run v >? 1 then
         call_val Trace.MergeTourWithBestTour (MergeTourWithBestTour E)
       else ret Cost)
      (let* p := params in
       let* v := vars in
       if MaxPopulationSize p >? 1 then
         let* Cost0 := merge_with_population E fuel 0 Cost in
         update_population E Cost0 >> ret Cost0
       else if Run v >? 1 then
         call_val Trace.MergeTourWithBestTour (MergeTourWithBestTour E)
       else ret Cost)) by resp.
    apply Hr. exact Hsk.
  - intros Cost ? k1 k2 _ _ <- Hsk. apply Run_finish_resp. exact Hsk.
Qed.

Lemma main_runs_eq fuel m :
  main_runs E (S fuel) m =
    (if Run (var (glob m)) <=? Runs (var (glob m)) then
       bind (Run_body E fuel)
         (fun flow => match flow with
                      | Break => ret tt
                      | Continue =>
                          assign (fun v => set_Run (Run v + 1) v) >> main_runs E fuel
                      end)
     else ret tt) m.
Proof. reflexivity. Qed.

Lemma main_runs_at fuel : forall m1 m2,
  sim c1 c2 TL J m1 m2 ->
  Forall A (main_runs_tests E fuel m1) ->
  rsim c1 c2 TL J eq (main_runs E fuel m1) (main_runs E fuel m2).
Proof.
  induction fuel as [|fuel IH]; intros m1 m2 Hs HF; [exact I|].
  rewrite !main_runs_eq. cbn [main_runs_tests] in HF.
  assert (Hg : glob m1 = glob m2) by apply Hs.
  rewrite <- Hg.
  destruct (Run (var (glob m1)) <=? Runs (var (glob m1))); [|simpl; auto].
  apply Forall_app in HF as [HF1 HF2].
  apply (rsim_bind eq); [apply Run_body_at; assumption|].
  intros flow ? n1 n2 Hn1 _ <- Hsn. rewrite Hn1 in HF2.
  destruct flow; [|simpl; auto].
  unfold bind at 1 2, assign. apply IH; [|exact HF2].
  apply (sim_with_var (fun v => set_Run (Run v + 1) v)); [|exact Hsn].
  intros p v. apply J_Run.
Qed.

Lemma main_search_at fuel (t1 t2 : double) m1 m2 :
  sim c1 c2 TL J m1 m2 ->
  Forall A (main_search_tests E fuel t1 m1) ->
  rsim c1 c2 TL J eq (main_search E fuel t1 m1) (main_search E fuel t2 m2).
Proof.
  intros Hs HF. unfold main_search_tests in HF. unfold bind at 1 in HF.
  unfold main_search.
  apply (rsim_bind eq); [apply main_ascent_result_resp; assumption|].
  intros [] [] n1 n2 Hn1 _ _ Hsn. rewrite Hn1 in HF. unfold assign in HF.
  rewrite !bind_assign.
  apply (rsim_bind eq).
  - apply main_runs_at; [|exact HF].
    apply (sim_with_var (set_Run 1)); [apply J_Run|exact Hsn].
  - intros [] [] k1 k2 _ _ _ Hsk.
    assert (Hr : R eq (call_out Trace.PrintStatistics >> ret EXIT_SUCCESS)
                      (call_out Trace.PrintStatistics >> ret EXIT_SUCCESS)) by resp.
    apply Hr. exact Hsk.
Qed.

End Respect.

(** ** Steps of the two functions *)

Ltac run := unfold bind, ret, call, call_val, call_out, call_stats, emit, printff, assign,
  put_work, globals, params, vars, work, GetTime, print_gap; simpl.

Ltac finish :=
  repeat match goal with
  | |- _ /\ _ => split
  | |- _ <-> _ => split; intros
  | H : exists _, _ |- _ => destruct H
  | H : _ /\ _ |- _ => destruct H
  | H : In _ [] |- _ => destruct H
  | H : In _ (_ :: _) |- _ => destruct H as [H|H]; [try discriminate H|]
  end;
  try lia; try congruence; try contradiction;
  try (simpl; repeat eexists; simpl; eauto 12; fail).


Section Steps.

Context {double Rest Stats : Type} (E : Externals double Rest Stats).
Local Abbreviation Mach := (Machine double Rest Stats).
Implicit Types (m : Mach) (ns : list Node).

Lemma clocks_agree_refl TL (c : nat -> double) : clocks_agree E TL c c.
Proof. intros i j. reflexivity. Qed.

Lemma sim_refl J m :
  J (par (glob m)) (var (glob m)) ->
  sim (clock m) (clock m) (TimeLimit (par (glob m))) J m m.
Proof. intros HJ. repeat split; auto. Qed.

Lemma keeps J {A} (c : M Mach A) m a m' :
  respects (clock m) (clock m) (TimeLimit (par (glob m))) J eq c c ->
  J (par (glob m)) (var (glob m)) ->
  c m = Ok a m' ->
  J (par (glob m')) (var (glob m')) /\ clock m' = clock m.
Proof.
  intros Hr HJ Hc. specialize (Hr m m (sim_refl J m HJ)).
  rewrite Hc in Hr. simpl in Hr. destruct Hr as (_ & _ & _ & _ & Hcl & _ & _ & HJ').
  auto.
Qed.

Lemma Run_new_best_spec Cost m :
  exists m1,
    Run_new_best E Cost m = Ok tt m1 /\
    par (glob m1) = par (glob m) /\
    var (glob m1) =
      (if Cost <? BestCost (var (glob m)) then set_BestCost Cost (var (glob m))
       else var (glob m)).
Proof.
  unfold Run_new_best. run. destruct (Cost <? BestCost (var (glob m))); run.
  - eexists. split; [reflexivity|]. split; reflexivity.
  - eexists. split; [reflexivity|]. split; reflexivity.
Qed.

Lemma Run_copy_tour_frame fuel m m' :
  Run_copy_tour fuel m = Ok tt m' ->
  par (glob m') = par (glob m) /\ var (glob m') = var (glob m).
Proof.
  intros H.
  apply (keeps (fixed (par (glob m)) (var (glob m)))) in H as [[Hp Hv] _].
  - auto.
  - apply Run_copy_tour_resp.
  - split; reflexivity.
Qed.

Lemma Run_new_optimum_spec fuel Cost m old m' :
  Run_new_optimum fuel Cost m = Ok old m' ->
  old = Optimum (var (glob m)) /\
  par (glob m') = par (glob m) /\
  var (glob m') =
    (if Cost <? Optimum (var (glob m)) then set_Optimum Cost (var (glob m))
     else var (glob m)).
Proof.
  unfold Run_new_optimum. intros H.
  apply bind_Ok in H as (v & m0 & Hv & H). unfold vars in Hv. injection Hv as <- <-.
  cbv zeta in H. apply bind_Ok in H as (u & m1 & H & Hr).
  unfold ret in Hr. injection Hr as <- <-. split; [reflexivity|].
  destruct (Cost <? Optimum (var (glob m))).
  - apply bind_Ok in H as ([] & m2 & Hc & H).
    apply Run_copy_tour_frame in Hc as [Hp Hvv].
    revert H. run. intros H. injection H as <- <-. simpl. rewrite Hp, Hvv. auto.
  - unfold ret in H. injection H as <- <-. auto.
Qed.

Lemma Run_report_frame (LastTime : double) Cost m m' :
  Run_report E LastTime Cost m = Ok tt m' ->
  par (glob m') = par (glob m) /\ var (glob m') = var (glob m).
Proof.
  intros H.
  apply (keeps (fixed (par (glob m)) (var (glob m)))) in H as [[Hp Hv] _].
  - auto.
  - apply Run_report_resp.
  - split; reflexivity.
Qed.

Lemma Run_crossover_frame fuel m m' :
  Run_crossover E fuel m = Ok tt m' ->
  par (glob m') = par (glob m) /\ var (glob m') = var (glob m).
Proof.
  intros H.
  apply (keeps (fixed (par (glob m)) (var (glob m)))) in H as [[Hp Hv] _].
  - auto.
  - apply Run_crossover_resp.
  - split; reflexivity.
Qed.

Lemma stop_condition_dec (p : Params double) Cost old :
  (truthy (StopAtOptimum p) && (Cost =? old) && (MaxPopulationSize p >=? 1)) = true
  <-> stop_condition p Cost old.
Proof.
  unfold stop_condition. rewrite !andb_true_iff, truthy_true, Z.eqb_eq, Z.geb_le.
  split; intros H; repeat split; try tauto; lia.
Qed.

Lemma stop_condition_cases (p : Params double) Cost old :
  stop_condition p Cost old \/ ~ stop_condition p Cost old.
Proof.
  destruct (truthy (StopAtOptimum p) && (Cost =? old) && (MaxPopulationSize p >=? 1)) eqn:H.
  - left. now apply stop_condition_dec.
  - right. intros Hs. apply stop_condition_dec in Hs. congruence.
Qed.

Lemma Run_next_Break fuel Cost old m :
  stop_condition (par (glob m)) Cost old ->
  Run_next E fuel Cost old m =
    Ok Break (with_var (set_Runs (Run (var (glob m))) (var (glob m))) m).
Proof.
  intros H. apply stop_condition_dec in H. unfold Run_next. run. rewrite H. reflexivity.
Qed.

Lemma Run_next_Continue fuel Cost old m flow m' :
  ~ stop_condition (par (glob m)) Cost old ->
  Run_next E fuel Cost old m = Ok flow m' ->
  let seed := (Seed (var (glob m)) + 1) mod UINT_WIDTH in
  flow = Continue /\
  par (glob m') = par (glob m) /\
  var (glob m') = set_Seed seed (var (glob m)) /\
  exists m1,
    Run_crossover E fuel m = Ok tt m1 /\
    wk (glob m') =
      SRandom E seed (mkGlobals (par (glob m)) (set_Seed seed (var (glob m))) (wk (glob m1))) /\
    trace m' = trace m1 ++ [Trace.called (Trace.SRandom seed)].
Proof.
  intros Hn H. unfold Run_next in H. revert H. unfold bind at 1, params.
  destruct (truthy (StopAtOptimum (par (glob m))) && (Cost =? old)
            && (MaxPopulationSize (par (glob m)) >=? 1)) eqn:Hc.
  { apply stop_condition_dec in Hc. contradiction. }
  intros H. apply bind_Ok in H as ([] & m1 & H1 & H).
  destruct (Run_crossover_frame _ _ _ H1) as [Hp Hv].
  revert H. unfold reseed. run. intros H. injection H as <- <-. simpl.
  rewrite Hp, Hv. repeat split. exists m1. split; [exact H1|]. split; reflexivity.
Qed.

Ltac stable_Optimum := intros ? ? ? [? ?]; split; auto.

Lemma Run_cost_Optimum fuel m Cost m' :
  Run_cost E fuel m = Ok Cost m' ->
  par (glob m') = par (glob m) /\ Optimum (var (glob m')) = Optimum (var (glob m)).
Proof.
  intros H.
  apply (keeps (Optimum_is (par (glob m)) (Optimum (var (glob m))))) in H as [[Hp Hv] _].
  - auto.
  - apply Run_cost_resp; [apply clocks_agree_refl|..]; stable_Optimum.
  - split; reflexivity.
Qed.

Lemma Run_next_Optimum fuel Cost old m flow m' :
  Run_next E fuel Cost old m = Ok flow m' ->
  par (glob m') = par (glob m) /\ Optimum (var (glob m')) = Optimum (var (glob m)).
Proof.
  intros H.
  apply (keeps (Optimum_is (par (glob m)) (Optimum (var (glob m))))) in H as [[Hp Hv] _].
  - auto.
  - apply Run_next_resp; stable_Optimum.
  - split; reflexivity.
Qed.

Lemma Run_body_Optimum fuel m flow m' :
  Run_body E fuel m = Ok flow m' ->
  par (glob m') = par (glob m) /\ Optimum (var (glob m')) <= Optimum (var (glob m)).
Proof.
  unfold Run_body. intros H.
  apply bind_Ok in H as (t & m0 & H0 & H). unfold GetTime in H0. injection H0 as <- <-.
  apply bind_Ok in H as (Cost & m1 & H1 & H).
  apply Run_cost_Optimum in H1 as [Hp1 Ho1]. simpl in Hp1, Ho1.
  unfold Run_finish in H.
  apply bind_Ok in H as ([] & m2 & H2 & H).
  destruct (Run_new_best_spec Cost m1) as (m2' & H2' & Hp2 & Hv2).
  rewrite H2 in H2'. injection H2' as <-.
  apply bind_Ok in H as (old & m3 & H3 & H).
  apply Run_new_optimum_spec in H3 as (-> & Hp3 & Hv3).
  apply bind_Ok in H as ([] & m4 & H4 & H).
  apply Run_report_frame in H4 as [Hp4 Hv4].
  apply Run_next_Optimum in H as [Hp5 Ho5].
  split; [congruence|].
  rewrite Ho5, Hv4, Hv3, <- Ho1.
  assert (Ho2 : Optimum (var (glob m2)) = Optimum (var (glob m1))).
  { rewrite Hv2. destruct (Cost <? BestCost (var (glob m1))); reflexivity. }
  destruct (Z.ltb_spec Cost (Optimum (var (glob m2)))); simpl; lia.
Qed.

Lemma main_runs_Optimum fuel : forall m m',
  main_runs E fuel m = Ok tt m' ->
  Optimum (var (glob m')) <= Optimum (var (glob m)).
Proof.
  induction fuel as [|fuel IH]; intros m m' H; [discriminate|].
  cbn [main_runs] in H. revert H. unfold bind at 1, vars.
  destruct (Run (var (glob m)) <=? Runs (var (glob m))).
  - intros H. apply bind_Ok in H as (flow & m1 & H1 & H).
    apply Run_body_Optimum in H1 as [_ Ho1].
    destruct flow.
    + apply bind_Ok in H as ([] & m2 & H2 & H). unfold assign in H2. injection H2 as <-.
      apply IH in H. simpl in H. lia.
    + unfold ret in H. injection H as <-. exact Ho1.
  - unfold ret. intros H. injection H as <-. lia.
Qed.

Lemma ring_head (sel : Node -> NodePtr) ns first l :
  ring sel ns first l ->
  exists a0 todo n0, l = a0 :: todo /\ first = Some a0 /\ (a0 ∉ todo) /\ NoDup l /\
    ns !! a0 = Some n0 /\ path sel ns (a0 :: todo) a0.
Proof.
  destruct l as [|a0 todo]; simpl; [tauto|]. intros (-> & Hnd & Hp).
  destruct Hp as [(n0 & Hn0 & Hs) Hp'].
  exists a0, todo, n0. repeat split; auto.
  - now apply NoDup_cons in Hnd as [? _].
  - eauto.
Qed.

Lemma Run_copy_tour_ring fuel m l :
  ring Suc (nodes_of m) (FirstNode (wk (glob m))) l ->
  (length l <= fuel)%nat ->
  (forall a n0, FirstNode (wk (glob m)) = Some a -> nodes_of m !! a = Some n0 ->
                InputSuc n0 <> None) ->
  Run_copy_tour fuel m =
    Ok tt (with_NodeSet
             (foldl (fun ns a => update a (fun n => set_InputSuc (Suc n) n) ns) (nodes_of m) l)
             m).
Proof.
  intros Hr Hfuel Hin.
  destruct (ring_head _ _ _ _ Hr) as (a0 & todo & n0 & -> & Hf & Ha0 & Hnd & Hn0 & Hp).
  unfold Run_copy_tour. unfold bind at 1, work. rewrite Hf.
  unfold bind at 1. rewrite (load_Some _ _ _ Hn0).
  specialize (Hin a0 n0 Hf Hn0). destruct (InputSuc n0) as [x|]; [|congruence].
  unfold bind.
  rewrite (ring_walk_path copy_to_InputSuc Suc
             (fun t ns => update t (fun n => set_InputSuc (Suc n) n) ns))
    with (todo := todo) (a0 := a0).
  - reflexivity.
  - intros t b m0 n H1 H2 H3. apply (copy_to_InputSuc_ok t b m0 n); assumption.
  - intros t ns a. apply update_field. reflexivity.
  - exact Hf.
  - eauto.
  - exact Ha0.
  - exact Hp.
  - simpl in Hfuel. lia.
Qed.





(** The exit, read backwards: a walk that returns has gone round a ring. *)








Section WalkBack.

Variable visit : NodePtr -> M (Machine double Rest Stats) NodePtr.
Variable sel : Node -> NodePtr.

Hypothesis visit_Ok : forall t m t' m',
  visit t m = Ok t' m' ->
  exists a n, t = Some a /\ nodes_of m !! a = Some n /\ t' = sel n /\
    FirstNode (wk (glob m')) = FirstNode (wk (glob m)) /\
    (forall x, sel <$> nodes_of m' !! x = sel <$> nodes_of m !! x).



End WalkBack.



Lemma NodeSet_at_ok (k : Z) m : 0 <= k -> NodeSet_at k m = Ok (Some (Z.to_nat k)) m.
Proof. intros H. unfold NodeSet_at. destruct (Z.ltb_spec k 0); [lia|reflexivity]. Qed.

Lemma lookup_in_range ns (k : Z) :
  0 <= k < Z.of_nat (length ns) -> exists n, ns !! Z.to_nat k = Some n.
Proof. intros H. apply lookup_lt_is_Some_2. lia. Qed.

Lemma reduced_cost_ok (i j : Z) m :
  0 <= i < Z.of_nat (length (nodes_of m)) ->
  0 <= j < Z.of_nat (length (nodes_of m)) ->
  exists d, reduced_cost E i j m = Ok d m.
Proof.
  intros Hi Hj. destruct (lookup_in_range _ _ Hi) as [na Ha].
  destruct (lookup_in_range _ _ Hj) as [nb Hb].
  unfold reduced_cost. unfold bind at 1. rewrite NodeSet_at_ok by lia.
  unfold bind at 1. rewrite NodeSet_at_ok by lia.
  unfold bind at 1, globals. unfold bind at 1. rewrite (load_Some _ _ _ Ha).
  unfold bind at 1. rewrite (load_Some _ _ _ Hb). eauto.
Qed.

Lemma add_OrdinalTourCost_ok (d : Z) m :
  add_OrdinalTourCost d m =
    Ok tt (with_var (set_OrdinalTourCost (OrdinalTourCost (var (glob m)) + d) (var (glob m))) m).
Proof. reflexivity. Qed.

Lemma ordinal_loop_ok n : forall lo m,
  0 <= lo -> lo + Z.of_nat n < Z.of_nat (length (nodes_of m)) ->
  exists c,
    for_range lo n
      (fun i => let* d := reduced_cost E i (i + 1) in add_OrdinalTourCost d) m =
    Ok tt (with_var (set_OrdinalTourCost c (var (glob m))) m).
Proof.
  induction n as [|n IH]; intros lo m Hlo Hlen.
  - exists (OrdinalTourCost (var (glob m))). simpl. unfold ret.
    destruct m as [[p [] w] s c t tr]. reflexivity.
  - cbn [for_range]. unfold bind at 1. unfold bind at 1.
    destruct (reduced_cost_ok lo (lo + 1) m) as [d Hd]; [lia|lia|].
    rewrite Hd, add_OrdinalTourCost_ok.
    set (m1 := with_var _ m).
    destruct (IH (lo + 1) m1) as [c Hc]; [lia|subst m1; unfold nodes_of in *; simpl; lia|].
    rewrite Hc. exists c. reflexivity.
Qed.

Lemma FindTour_OrdinalTourCost_ok m :
  1 <= Dimension (par (glob m)) < Z.of_nat (length (nodes_of m)) ->
  Precision (par (glob m)) <> 0 ->
  exists c,
    FindTour_OrdinalTourCost E m = Ok tt (with_var (set_OrdinalTourCost c (var (glob m))) m).
Proof.
  intros HD HP. unfold FindTour_OrdinalTourCost.
  unfold bind at 1, params. unfold bind at 1, assign.
  set (m0 := with_var _ m).
  destruct (ordinal_loop_ok (Z.to_nat (Dimension (par (glob m)) - 1)) 1 m0) as [c Hc];
    [lia|subst m0; unfold nodes_of in *; simpl; lia|].
  unfold bind at 1. rewrite Hc.
  set (m1 := with_var _ m0).
  destruct (reduced_cost_ok (Dimension (par (glob m))) 1 m1) as [d Hd];
    [subst m1 m0; unfold nodes_of in *; simpl; lia
    |subst m1 m0; unfold nodes_of in *; simpl; lia|].
  unfold bind at 1. rewrite Hd. unfold bind at 1. rewrite add_OrdinalTourCost_ok.
  destruct (Z.eqb_spec (Precision (par (glob m))) 0) as [|_]; [contradiction|].
  eexists. reflexivity.
Qed.

Lemma FindTour_clear_ring fuel m l :
  ring Suc (nodes_of m) (FirstNode (wk (glob m))) l ->
  (length l <= fuel)%nat ->
  FindTour_clear fuel m =
    Ok tt (with_NodeSet
             (foldl (fun ns a => update a clear_tour_links ns) (nodes_of m) l) m).
Proof.
  intros Hr Hfuel.
  destruct (ring_head _ _ _ _ Hr) as (a0 & todo & n0 & -> & Hf & Ha0 & Hnd & Hn0 & Hp).
  unfold FindTour_clear. unfold bind at 1, work. rewrite Hf. unfold bind at 1.
  rewrite (ring_walk_path _ Suc (fun t ns => update t clear_tour_links ns))
    with (todo := todo) (a0 := a0).
  - reflexivity.
  - intros t b m0 n H1 H2 H3. apply (clear_ok t b m0 n); assumption.
  - intros t ns a. apply update_field. reflexivity.
  - exact Hf.
  - eauto.
  - exact Ha0.
  - exact Hp.
  - simpl in Hfuel. lia.
Qed.

Lemma link_ok (i : Z) m :
  0 <= i ->
  (let* a := NodeSet_at i in let* b := NodeSet_at (i + 1) in store a (set_Next b)) m =
  match nodes_of m !! Z.to_nat i with
  | Some _ => Ok tt (with_NodeSet
                       (update (Z.to_nat i) (set_Next (Some (S (Z.to_nat i)))) (nodes_of m)) m)
  | None => Fault
  end.
Proof.
  intros Hi. unfold bind at 1. rewrite NodeSet_at_ok by lia.
  unfold bind at 1. rewrite NodeSet_at_ok by lia.
  replace (Z.to_nat (i + 1)) with (S (Z.to_nat i)) by lia.
  destruct (nodes_of m !! Z.to_nat i) as [n|] eqn:Hn.
  - now rewrite (store_Some _ _ _ _ Hn).
  - unfold store, load, bind, work. simpl. unfold nodes_of in Hn. rewrite Hn. reflexivity.
Qed.

Lemma link_loop_ok n : forall (lo : Z) m,
  0 <= lo -> (Z.to_nat lo + n <= length (nodes_of m))%nat ->
  for_range lo n
    (fun i => let* a := NodeSet_at i in let* b := NodeSet_at (i + 1) in store a (set_Next b))
    m =
  Ok tt (with_NodeSet
           (foldl (fun ns a => update a (set_Next (Some (S a))) ns) (nodes_of m)
              (seq (Z.to_nat lo) n)) m).
Proof.
  induction n as [|n IH]; intros lo m Hlo Hlen.
  - simpl. unfold ret. now rewrite with_NodeSet_same.
  - cbn [for_range seq foldl]. unfold bind at 1. rewrite link_ok by lia.
    destruct (lookup_lt_is_Some_2 (nodes_of m) (Z.to_nat lo)) as [x Hx]; [lia|].
    rewrite Hx. rewrite IH.
    + rewrite nodes_of_with_NodeSet, with_NodeSet_twice.
      replace (Z.to_nat (lo + 1)) with (S (Z.to_nat lo)) by lia. reflexivity.
    + lia.
    + rewrite nodes_of_with_NodeSet, length_update. lia.
Qed.

Lemma merge_wanted_dec (p : Params double) v Cost :
  ((Dimension p =? DimensionSaved p) && (Cost >=? OrdinalTourCost v)
   && (BetterCost v >? OrdinalTourCost v)) = true <-> merge_wanted p v Cost.
Proof.
  unfold merge_wanted.
  rewrite !andb_true_iff, Z.eqb_eq, Z.geb_le, Z.gtb_lt. intuition lia.
Qed.

Lemma ordinal_links_spec d ns :
  (1 <= d < length ns)%nat ->
  (forall i, (1 <= i < d)%nat -> Next <$> ordinal_links d ns !! i = Some (Some (S i))) /\
  Next <$> ordinal_links d ns !! d = Some (Some 1%nat) /\
  (forall a n, ns !! a = Some n -> exists x, ordinal_links d ns !! a = Some (set_Next x n)) /\
  length (ordinal_links d ns) = length ns.
Proof.
  intros Hd. unfold ordinal_links.
  set (ns1 := foldl _ ns _).
  assert (Hl : forall b, ns1 !! b =
            if decide (b ∈ seq 1 (d - 1)) then set_Next (Some (S b)) <$> ns !! b else ns !! b).
  { intros b. subst ns1. apply (foldl_update_lookup (fun a => set_Next (Some (S a)))).
    apply NoDup_seq. }
  assert (Hin : forall b, b ∈ seq 1 (d - 1) <-> (1 <= b < d)%nat).
  { intros b. rewrite elem_of_seq. lia. }
  repeat split.
  - intros i Hi. rewrite update_lookup_ne by lia. rewrite Hl.
    rewrite decide_True by (apply Hin; lia).
    destruct (lookup_lt_is_Some_2 ns i) as [x Hx]; [lia|]. rewrite Hx. reflexivity.
  - destruct (lookup_lt_is_Some_2 ns d) as [x Hx]; [lia|].
    rewrite update_lookup, decide_True by reflexivity. rewrite Hl.
    rewrite decide_False by (rewrite Hin; lia). rewrite Hx. reflexivity.
  - intros a n Hn. rewrite update_lookup, Hl.
    destruct (decide (d = a)) as [<-|Hne].
    + rewrite decide_False by (rewrite Hin; lia). rewrite Hn. simpl. eauto.
    + destruct (decide (a ∈ seq 1 (d - 1))); rewrite Hn; simpl; eauto.
      exists (Next n). destruct n; reflexivity.
  - rewrite length_update. subst ns1.
    apply (length_foldl_update (fun a => set_Next (Some (S a)))).
Qed.


(** The exit faults when no better tour has been recorded: the best
    successor of the first node is null and line 156 writes through it. *)
Lemma FindTour_exit_null fuel m a n :
  Norm (par (glob m)) <> 0 ->
  FirstNode (wk (glob m)) = Some a ->
  nodes_of m !! a = Some n ->
  BestSuc n = None ->
  FindTour_exit E (S fuel) m = Fault.
Proof.
  intros HN Hf Hn Hb. unfold FindTour_exit.
  unfold bind at 1, params. unfold bind at 1, work.
  destruct (Z.eqb_spec (Norm (par (glob m))) 0) as [|_]; [contradiction|].
  unfold bind at 1, ret. unfold bind at 1. cbn [ring_walk]. unfold bind at 1.
  rewrite Hf. unfold commit_BestSuc. unfold bind at 1. rewrite (load_Some _ _ _ Hn).
  unfold bind at 1. rewrite (store_Some _ _ _ _ Hn). rewrite Hb.
  unfold bind at 1. rewrite store_None. reflexivity.
Qed.

(** When the time limit is reached at the top of a trial, the trial is not
    started: the loop is left with the globals as they are. *)
Lemma FindTour_trial_time_limit fuel (EntryTime : double) m :
  dge E (dsub E (clock m (ticks m)) EntryTime) (TimeLimit (par (glob m))) = true ->
  exists m',
    FindTour_trial E fuel EntryTime m = Ok Break m' /\
    glob m' = glob m /\
    new_events m m' =
      (if TraceLevel (par (glob m)) >=? 1
       then [Trace.printed Trace.TimeLimitExceeded] else []).
Proof.
  intros H. unfold FindTour_trial. run. rewrite H.
  destruct (TraceLevel (par (glob m)) >=? 1); run;
    (eexists; split; [reflexivity|]; split; [reflexivity|]); unfold new_events; simpl.
  - now rewrite drop_app_length.
  - now rewrite drop_all.
Qed.

(** ** The claims *)

(** C1, as amended.  In the test of lines 97-121, which always completes:
    [RecordBetterTour] is called if and only if the cost of the trial is
    less than [BetterCost]; the tour is written if and only if, moreover,
    [Dimension == DimensionSaved] and the cost is less than [BestCost]; the
    loop is left if and only if, moreover, [StopAtOptimum] is set and the
    cost is [Optimum]; [AdjustCandidateSet], [HashInitialize] and
    [HashInsert] are called if and only if the cost is less than
    [BetterCost] and the loop is not left.  [BetterCost] becomes the cost if
    that is less and is unchanged otherwise, so each recorded tour is better
    than the one recorded before. *)
Theorem Trial_record_improvement (Cost : GainType) (m : Machine double Rest Stats) :
  let p := par (glob m) in
  let v := var (glob m) in
  exists flow m' new,
    Trial_record E Cost m = Ok flow m' /\
    trace m' = trace m ++ new /\
    (In (Trace.called Trace.RecordBetterTour) new <-> Cost < BetterCost v) /\
    ((exists f t c, In (Trace.called (Trace.WriteTour f t c)) new) <->
       Cost < BetterCost v /\ Dimension p = DimensionSaved p /\ Cost < BestCost v) /\
    (flow = Break <->
       Cost < BetterCost v /\ StopAtOptimum p <> 0 /\ Cost = Optimum v) /\
    (In (Trace.called Trace.AdjustCandidateSet) new <->
       Cost < BetterCost v /\ flow = Continue) /\
    (In (Trace.called Trace.HashInitialize) new <->
       Cost < BetterCost v /\ flow = Continue) /\
    ((exists h c, In (Trace.called (Trace.HashInsert h c)) new) <->
       Cost < BetterCost v /\ flow = Continue) /\
    BetterCost (var (glob m')) = (if Cost <? BetterCost v then Cost else BetterCost v).
Proof.
  intros p v. subst p v. unfold Trial_record. run.
  destruct (Z.ltb_spec Cost (BetterCost (var (glob m)))) as [Hlt|Hge].
  - destruct (TraceLevel (par (glob m)) >=? 1); run;
    [destruct (gap_wanted (var (glob m))); run|];
    (destruct (Z.eqb_spec (Dimension (par (glob m))) (DimensionSaved (par (glob m)))) as [Hd|Hd];
     destruct (Z.ltb_spec Cost (BestCost (var (glob m)))) as [Hb|Hb]; run;
     destruct (truthy (StopAtOptimum (par (glob m)))) eqn:Hs; run;
     destruct (Z.eqb_spec Cost (Optimum (var (glob m)))) as [Ho|Ho]; run;
     (do 3 eexists; split; [reflexivity|]; simpl; rewrite <- ?app_assoc; simpl;
      split; [reflexivity|]));
     try (apply truthy_true in Hs);
     try (assert (Hs' : truthy (StopAtOptimum (par (glob m))) <> true) by congruence; rewrite truthy_true in Hs');
     finish.
  - destruct (TraceLevel (par (glob m)) >=? 2); run;
    (do 3 eexists; split; [reflexivity|]; simpl; rewrite <- ?app_assoc; simpl;
      split; [try reflexivity|]).
    2: symmetry; apply app_nil_r.
    all: finish.
Qed.

(** C4.  If [Norm] is 0 after the ascent, [main] sets [Optimum] and
    [BestCost] to the lower bound, reports it to the statistics, records the
    better and the best tour, writes the best tour to both files, sets
    [Runs] to 0 and goes to [PrintStatistics]: the loop over the runs is not
    entered, so nothing else is called and the clock is read once. *)
Theorem main_search_Norm_zero fuel (LastTime : double) m :
  Norm (par (glob m)) = 0 ->
  let L := GainType_of_double E (LowerBound (par (glob m))) in
  let v1 := set_Optimum L (set_BestCost L (var (glob m))) in
  let g1 := mkGlobals (par (glob m)) v1 (wk (glob m)) in
  let g2 := mkGlobals (par (glob m)) v1 (RecordBetterTour E g1) in
  exists m',
    main_search E (S fuel) LastTime m = Ok EXIT_SUCCESS m' /\
    Optimum (var (glob m')) = L /\
    BestCost (var (glob m')) = L /\
    Runs (var (glob m')) = 0 /\
    wk (glob m') = RecordBestTour E g2 /\
    ticks m' = S (ticks m) /\
    trace m' = trace m ++
      [Trace.called (Trace.UpdateStatistics L);
       Trace.called Trace.RecordBetterTour;
       Trace.called Trace.RecordBestTour;
       Trace.called (Trace.WriteTour Trace.OutputTourFileName Trace.BestTour L);
       Trace.called (Trace.WriteTour Trace.TourFileName Trace.BestTour L);
       Trace.called Trace.PrintStatistics].
Proof.
  intros HN L v1 g1 g2.
  unfold main_search. unfold bind at 1.
  unfold main_ascent_result. unfold bind at 1, params. rewrite HN.
  cbv -[app Z.add Z.sub Z.pow Z.opp].
  eexists. split; [reflexivity|].
  repeat split. rewrite <- !app_assoc. reflexivity.
Qed.



(** C5, as amended.  After a run, the loop over the runs is left if and only
    if [StopAtOptimum] is set, the cost of the run is the [Optimum] of
    before the run and [MaxPopulationSize >= 1]; then [Runs] becomes [Run]
    and no further run is made. *)
Theorem Run_finish_stop fuel (LastTime : double) Cost m :
  let p := par (glob m) in
  let v := var (glob m) in
  (stop_condition p Cost (Optimum v) ->
   exists m', Run_finish E fuel LastTime Cost m = Ok Break m' /\
              Runs (var (glob m')) = Run v /\ Run (var (glob m')) = Run v) /\
  (forall m', Run_finish E fuel LastTime Cost m = Ok Break m' ->
              stop_condition p Cost (Optimum v)) /\
  (forall m', Run v <= Runs v -> Run_body E fuel m = Ok Break m' ->
              main_runs E (S fuel) m = Ok tt m').
Proof.
  intros p v. subst p v.
  destruct (Run_new_best_spec Cost m) as (m1 & H1 & Hp1 & Hv1).
  assert (Ho : Optimum (var (glob m1)) = Optimum (var (glob m))).
  { rewrite Hv1. destruct (Cost <? BestCost (var (glob m))); reflexivity. }
  assert (Hr : Run (var (glob m1)) = Run (var (glob m))).
  { rewrite Hv1. destruct (Cost <? BestCost (var (glob m))); reflexivity. }
  split; [|split].
  - intros Hs. unfold Run_finish.
    unfold bind at 1. rewrite H1. unfold bind at 1.
    assert (H2 : Run_new_optimum fuel Cost m1 = Ok (Optimum (var (glob m))) m1).
    { unfold Run_new_optimum. run. rewrite Ho.
      destruct Hs as (_ & -> & _). rewrite Z.ltb_irrefl. reflexivity. }
    rewrite H2. unfold bind.
    destruct (Run_report E LastTime Cost m1) as [[] m2| |] eqn:H3.
    + destruct (Run_report_frame _ _ _ _ H3) as [Hp2 Hv2].
      rewrite Run_next_Break by (rewrite Hp2, Hp1; exact Hs).
      eexists. split; [reflexivity|]. simpl. rewrite Hv2. auto.
    + exfalso. revert H3. unfold Run_report. run.
      destruct ((TraceLevel (par (glob m1)) >=? 1) && negb (Cost =? PLUS_INFINITY)); run;
        [destruct (gap_wanted (var (glob m1)))|]; discriminate.
    + exfalso. revert H3. unfold Run_report. run.
      destruct ((TraceLevel (par (glob m1)) >=? 1) && negb (Cost =? PLUS_INFINITY)); run;
        [destruct (gap_wanted (var (glob m1)))|]; discriminate.
  - intros m' H. unfold Run_finish in H.
    apply bind_Ok in H as ([] & m1' & H1' & H).
    rewrite H1 in H1'. injection H1' as <-.
    apply bind_Ok in H as (old & m2 & H2 & H).
    apply Run_new_optimum_spec in H2 as (-> & Hp2 & Hv2).
    apply bind_Ok in H as ([] & m3 & H3 & H).
    destruct (Run_report_frame _ _ _ _ H3) as [Hp3 Hv3].
    rewrite Ho in H.
    destruct (stop_condition_cases (par (glob m3)) Cost (Optimum (var (glob m)))) as [Hs|Hs].
    + rewrite Hp3, Hp2, Hp1 in Hs. exact Hs.
    + apply (Run_next_Continue _ _ _ _ _ _ Hs) in H as [Hf _]. discriminate Hf.
  - intros m' Hle H. cbn [main_runs]. run.
    apply Z.leb_le in Hle. rewrite Hle. unfold bind in H.
    destruct (Run_body E fuel m) as [[] m1'| |]; try discriminate.
    now injection H as ->.
Qed.



(** C6, as amended.  After the merge with the better tour, the tour is
    merged with the tour 1, 2, ..., Dimension, 1 if and only if
    [Dimension == DimensionSaved], the cost is not less than
    [OrdinalTourCost] and [OrdinalTourCost] is less than [BetterCost]: then
    the [Next] fields are set to that tour, nothing else in the nodes
    changes, and the cost becomes the result of [MergeWithTour]; otherwise
    nothing happens. *)
Theorem Trial_merge_ordinal_spec Cost m :
  let p := par (glob m) in
  let v := var (glob m) in
  (~ merge_wanted p v Cost -> Trial_merge_ordinal E Cost m = Ok Cost m) /\
  (merge_wanted p v Cost ->
   1 <= Dimension p < Z.of_nat (length (nodes_of m)) ->
   let d := Z.to_nat (Dimension p) in
   let ns' := ordinal_links d (nodes_of m) in
   (forall i, (1 <= i < d)%nat -> Next <$> ns' !! i = Some (Some (S i))) /\
   Next <$> ns' !! d = Some (Some 1%nat) /\
   (forall a n, nodes_of m !! a = Some n -> exists x, ns' !! a = Some (set_Next x n)) /\
   Trial_merge_ordinal E Cost m =
     call_val Trace.MergeWithTour (MergeWithTour E) (with_NodeSet ns' m)).
Proof.
  intros p v. subst p v. split.
  - intros Hn. unfold Trial_merge_ordinal. unfold bind at 1, params. unfold bind at 1, vars.
    destruct ((Dimension (par (glob m)) =? DimensionSaved (par (glob m)))
              && (Cost >=? OrdinalTourCost (var (glob m)))
              && (BetterCost (var (glob m)) >? OrdinalTourCost (var (glob m)))) eqn:Hc.
    + apply merge_wanted_dec in Hc. contradiction.
    + reflexivity.
  - intros Hw HD d ns'.
    destruct (ordinal_links_spec d (nodes_of m)) as (H1 & H2 & H3 & _); [subst d; lia|].
    repeat split; try assumption.
    unfold Trial_merge_ordinal. unfold bind at 1, params. unfold bind at 1, vars.
    apply merge_wanted_dec in Hw. rewrite Hw.
    unfold bind at 1. rewrite link_loop_ok by (simpl; lia).
    unfold bind at 1. rewrite NodeSet_at_ok by lia.
    unfold bind at 1. rewrite NodeSet_at_ok by lia.
    unfold bind at 1.
    set (ns1 := foldl _ _ _).
    destruct (lookup_lt_is_Some_2 ns1 d) as [x Hx].
    { subst ns1. rewrite (length_foldl_update (fun a => set_Next (Some (S a)))). subst d. lia. }
    erewrite store_Some by (rewrite nodes_of_with_NodeSet; exact Hx).
    rewrite nodes_of_with_NodeSet, with_NodeSet_twice.
    subst ns' ns1. unfold ordinal_links.
    replace (Z.to_nat (Dimension (par (glob m)) - 1)) with (d - 1)%nat by (subst d; lia).
    reflexivity.
Qed.


(** C7, as amended.  On a tour that is a ring, the entry of [FindTour]
    completes with [BetterCost] at plus infinity; when [MaxTrials > 0] its
    only call is [HashInitialize], whose result is the state the trials
    start in; when [MaxTrials <= 0] the hash table is not cleared and
    [ChooseInitialTour] is called instead. *)
Theorem FindTour_entry_initialises fuel m l :
  let p := par (glob m) in
  let v := var (glob m) in
  ring Suc (nodes_of m) (FirstNode (wk (glob m))) l ->
  (length l <= fuel)%nat ->
  (Run v = 1 -> Dimension p = DimensionSaved p ->
   1 <= Dimension p < Z.of_nat (length (nodes_of m)) /\ Precision p <> 0) ->
  exists m1,
    FindTour_entry E fuel m = Ok (clock m (ticks m)) m1 /\
    BetterCost (var (glob m1)) = PLUS_INFINITY /\
    (MaxTrials p > 0 ->
       new_events m m1 = [Trace.called Trace.HashInitialize] /\
       exists g, wk (glob m1) = HashInitialize E g) /\
    (MaxTrials p <= 0 ->
       new_events m m1 = [Trace.called Trace.ChooseInitialTour]) /\
    FindTour E fuel m =
      (assign (set_Trial 1) >>
       FindTour_trials E fuel (clock m (ticks m)) >>
       FindTour_backbone_end fuel >>
       FindTour_exit E fuel) m1.
Proof.
  intros p v Hr Hfuel Hord. subst p v.
  assert (Hentry : exists m1,
    FindTour_entry E fuel m = Ok (clock m (ticks m)) m1 /\
    BetterCost (var (glob m1)) = PLUS_INFINITY /\
    (MaxTrials (par (glob m)) > 0 ->
       new_events m m1 = [Trace.called Trace.HashInitialize] /\
       exists g, wk (glob m1) = HashInitialize E g) /\
    (MaxTrials (par (glob m)) <= 0 ->
       new_events m m1 = [Trace.called Trace.ChooseInitialTour])).
  { unfold FindTour_entry. unfold bind at 1, GetTime.
    unfold bind at 1.
    rewrite (FindTour_clear_ring fuel (ticked m) l Hr Hfuel).
    set (m0 := with_NodeSet _ (ticked m)).
    unfold bind at 1, params. unfold bind at 1, vars.
    assert (Hord' : exists c,
      (if (Run (var (glob m0)) =? 1)
          && (Dimension (par (glob m0)) =? DimensionSaved (par (glob m0)))
       then FindTour_OrdinalTourCost E else ret tt) m0 =
      Ok tt (with_var (set_OrdinalTourCost c (var (glob m0))) m0)).
    { destruct (Z.eqb_spec (Run (var (glob m0))) 1) as [H1|H1];
        destruct (Z.eqb_spec (Dimension (par (glob m0))) (DimensionSaved (par (glob m0))))
          as [H2|H2]; cbn [andb].
      - destruct (Hord H1 H2) as [HD HP].
        apply FindTour_OrdinalTourCost_ok; [|exact HP].
        subst m0. rewrite nodes_of_with_NodeSet.
        rewrite (length_foldl_update (fun _ => clear_tour_links)). exact HD.
      - exists (OrdinalTourCost (var (glob m0))). unfold ret.
        destruct m as [[p0 [] w] s c t tr]. reflexivity.
      - exists (OrdinalTourCost (var (glob m0))). unfold ret.
        destruct m as [[p0 [] w] s c t tr]. reflexivity.
      - exists (OrdinalTourCost (var (glob m0))). unfold ret.
        destruct m as [[p0 [] w] s c t tr]. reflexivity. }
    destruct Hord' as [c Hc]. unfold bind at 1. rewrite Hc.
    destruct (Z.gtb_spec (MaxTrials (par (glob m0))) 0) as [Hm|Hm];
      run; (eexists; split; [reflexivity|]; split; [reflexivity|]);
      unfold new_events; simpl; rewrite drop_app_length; simpl;
      (split; [intros Hm'|intros Hm']); try lia; try (split; [reflexivity|eauto]);
      try reflexivity;
      subst m0; simpl in Hm; lia. }
  destruct Hentry as (m1 & H1 & H2 & H3 & H4).
  exists m1. repeat split; try assumption; try (apply H3; assumption).
  unfold FindTour. unfold bind at 1. rewrite H1. reflexivity.
Qed.




(** C10.  The loop over the runs never increases [Optimum]: a run assigns
    it only when its cost is less, and then, if the first node has an input
    successor, the successor of every node of the tour is copied into its
    input successor, the tour being unchanged. *)
Theorem Optimum_non_increasing fuel m :
  let v := var (glob m) in
  (forall m', main_runs E fuel m = Ok tt m' -> Optimum (var (glob m')) <= Optimum v) /\
  (forall Cost old m',
     Run_new_optimum fuel Cost m = Ok old m' ->
     old = Optimum v /\
     var (glob m') = (if Cost <? Optimum v then set_Optimum Cost v else v)) /\
  (forall Cost l,
     Cost < Optimum v ->
     ring Suc (nodes_of m) (FirstNode (wk (glob m))) l ->
     (length l <= fuel)%nat ->
     (forall a n0, FirstNode (wk (glob m)) = Some a -> nodes_of m !! a = Some n0 ->
                   InputSuc n0 <> None) ->
     exists m',
       Run_new_optimum fuel Cost m = Ok (Optimum v) m' /\
       Optimum (var (glob m')) = Cost /\
       forall a, a ∈ l ->
         exists n n', nodes_of m !! a = Some n /\ nodes_of m' !! a = Some n' /\
                      InputSuc n' = Suc n /\ Suc n' = Suc n).
Proof.
  intros v. subst v. split; [|split].
  - apply main_runs_Optimum.
  - intros Cost old m' H. apply Run_new_optimum_spec in H as (? & ? & ?). auto.
  - intros Cost l Hc Hr Hfuel Hin.
    unfold Run_new_optimum. unfold bind at 1, vars. cbv zeta.
    apply Z.ltb_lt in Hc. rewrite Hc.
    unfold bind at 1. unfold bind at 1.
    rewrite (Run_copy_tour_ring _ _ _ Hr Hfuel Hin). run.
    eexists. split; [reflexivity|]. split; [reflexivity|].
    intros a Ha.
    destruct (ring_head _ _ _ _ Hr) as (a0 & todo & n0 & -> & Hf & Ha0 & Hnd & Hn0 & Hp).
    destruct (path_lookup _ _ _ _ _ Hp Ha) as [n Hn].
    exists n, (set_InputSuc (Suc n) n). repeat split; auto.
    cbn [nodes_of with_NodeSet with_work with_var with_glob logged glob wk NodeSet set_NodeSet].
    rewrite foldl_update_lookup by assumption.
    rewrite decide_True by assumption. now rewrite Hn.
Qed.


(** C9, as amended.  Two executions of the search that start from the same
    globals and log, with clocks that give the same outcome to every test of
    the time limit that the first execution makes (in particular, clocks on
    which no test that is made finds the limit reached), end in the same
    way, with the same result, globals and log.  A run that does not end
    the loop finishes by incrementing [Seed], modulo 2^32, and calling
    [SRandom] with it. *)
Theorem main_search_reproducible fuel (t1 t2 : double) m1 m2 :
  glob m1 = glob m2 ->
  ticks m1 = ticks m2 ->
  trace m1 = trace m2 ->
  Forall (agree_at E (TimeLimit (par (glob m1))) (clock m1) (clock m2))
    (main_search_tests E fuel t1 m1) ->
  match main_search E fuel t1 m1, main_search E fuel t2 m2 with
  | Ok r1 m1', Ok r2 m2' => r1 = r2 /\ glob m1' = glob m2' /\ trace m1' = trace m2'
  | Fault, Fault => True
  | OutOfFuel, OutOfFuel => True
  | _, _ => False
  end /\
  (forall Cost OldOptimum flow m',
     ~ stop_condition (par (glob m1)) Cost OldOptimum ->
     Run_next E fuel Cost OldOptimum m1 = Ok flow m' ->
     flow = Continue /\
     Seed (var (glob m')) = (Seed (var (glob m1)) + 1) mod UINT_WIDTH /\
     exists tr, trace m' = tr ++ [Trace.called (Trace.SRandom (Seed (var (glob m'))))]).
Proof.
  intros Hg Ht Hl Hc. split.
  - assert (H : rsim (clock m1) (clock m2) (TimeLimit (par (glob m1))) (fun _ _ => True) eq
                  (main_search E fuel t1 m1) (main_search E fuel t2 m2)).
    { apply main_search_at; first [easy | repeat split; auto]. }
    unfold rsim in H.
    destruct (main_search E fuel t1 m1) as [r1 m1'| |],
             (main_search E fuel t2 m2) as [r2 m2'| |]; try exact H.
    destruct H as [Hr (Hg' & _ & Hl' & _)]. auto.
  - intros Cost old flow m' Hn H.
    destruct (Run_next_Continue fuel Cost old m1 flow m' Hn H)
      as (Hf & _ & Hv & m0 & _ & _ & Htr).
    split; [exact Hf|]. rewrite Hv. split; [reflexivity|].
    exists (trace m0). exact Htr.
Qed.

End Steps.

Ltac evaluate :=
  repeat split; vm_compute; try reflexivity; try discriminate;
  try (let H := fresh in intros H; discriminate H).

(** ** The claims on the small instance *)

Lemma ring_nodes :
  ring Suc Toy.nodes (Some 1%nat) [1%nat; 2%nat; 3%nat].
Proof.
  split; [reflexivity|]. split.
  - apply NoDup_ListNoDup. repeat constructor; simpl; intuition discriminate.
  - simpl. repeat split; eexists; split; reflexivity.
Qed.

Lemma ring_recorded :
  ring BestSuc (map Toy.record_better Toy.nodes) (Some 1%nat) [1%nat; 2%nat; 3%nat].
Proof.
  split; [reflexivity|]. split.
  - apply NoDup_ListNoDup. repeat constructor; simpl; intuition discriminate.
  - simpl. repeat split; eexists; split; reflexivity.
Qed.

(** C1, counterexample.  In the second run of the instance the first trial
    has cost 9, less than [BetterCost], which is plus infinity, and not less
    than [BestCost], which is 7: the tour is recorded and not written. *)
Lemma Trial_record_without_write :
  let m := Toy.machine0 (Toy.params0 2 0 1 0 1000)
             (mkVars None 0 2 2 1 PLUS_INFINITY 7 MINUS_INFINITY 12 2) in
  9 < BetterCost (var (glob m)) /\
  exists m',
    Trial_record Toy.E97 9 m = Ok Continue m' /\
    trace m' =
      [Trace.called Trace.RecordBetterTour;
       Trace.called Trace.AdjustCandidateSet;
       Trace.called Trace.HashInitialize;
       Trace.called (Trace.HashInsert 0 9)].
Proof.
  intros m. split; [reflexivity|]. eexists. split; vm_compute; reflexivity.
Qed.

(** C2.  With [TimeLimit = 0] the time limit is reached at the top of the
    first trial; no tour has been recorded, the best successor of the first
    node is null, and the exit of [FindTour] writes through it: [FindTour]
    does not return. *)
Theorem FindTour_time_limit_before_first_tour (fuel : nat) :
  FindTour Toy.E97 (4 + fuel)
    (Toy.machine0 (Toy.params0 2 0 1 0 0) (Toy.vars0 1 MINUS_INFINITY)) = Fault.
Proof. vm_compute. reflexivity. Qed.

(** C3.  With [MaxTrials = 0] and [Norm <> 0] no tour is recorded, and the
    exit of [FindTour] writes through the null best successor of the first
    node: [FindTour] does not return. *)
Theorem FindTour_without_trials (fuel : nat) :
  FindTour Toy.E97 (4 + fuel)
    (Toy.machine0 (Toy.params0 0 0 1 0 1000) (Toy.vars0 1 MINUS_INFINITY)) = Fault.
Proof. vm_compute. reflexivity. Qed.

Lemma main_search_Norm_zero_witness :
  let m := Toy.machine0 (Toy.params0 2 0 0 0 1000) (Toy.vars0 2 MINUS_INFINITY) in
  Norm (par (glob m)) = 0 /\
  exists m', main_search Toy.E97 1 0 m = Ok EXIT_SUCCESS m' /\ Runs (var (glob m')) = 0.
Proof.
  intros m. split; [reflexivity|].
  destruct (main_search_Norm_zero Toy.E97 0 0 m eq_refl) as (m' & H & _ & _ & HR & _).
  exists m'. split; assumption.
Defined.

(** C5, counterexample.  With [StopAtOptimum] set, [Optimum = 7] and
    [MaxPopulationSize = 0], the first run has cost 7 and a second run is
    made all the same. *)
Lemma Run_continues_at_optimum :
  let m := Toy.machine0 (Toy.params0 2 0 1 1 1000) (Toy.vars0 2 7) in
  StopAtOptimum (par (glob m)) = 1 /\
  Optimum (var (glob m)) = 7 /\
  exists m',
    main_search Toy.E97 10 0 m = Ok EXIT_SUCCESS m' /\
    map fst (stats m') = [7; 7] /\
    Run (var (glob m')) = 3.
Proof.
  intros m. split; [reflexivity|]. split; [reflexivity|].
  eexists. split; [vm_compute; reflexivity|]. split; reflexivity.
Qed.

Lemma Run_finish_stop_witness :
  let m := Toy.machine0 (Toy.params0 2 1 1 1 1000) (Toy.vars0 2 7) in
  stop_condition (par (glob m)) 7 (Optimum (var (glob m))) /\
  exists m', Run_finish Toy.E97 5 0 7 m = Ok Break m' /\ Runs (var (glob m')) = 1.
Proof.
  intros m.
  assert (Hs : stop_condition (par (glob m)) 7 (Optimum (var (glob m)))).
  { evaluate. }
  split; [exact Hs|].
  destruct (Run_finish_stop Toy.E97 5 0 7 m) as (H1 & _ & _).
  destruct (H1 Hs) as (m' & H & HR & _). exists m'. split; assumption.
Defined.

(** C6, counterexample.  The cost 15 is worse than that of the tour
    1, 2, 3, 1, which is 12, and 12 is worse than [BetterCost], which is 9:
    no merge is made. *)
Lemma Trial_merge_ordinal_skipped :
  let m := Toy.machine0 (Toy.params0 2 0 1 0 1000)
             (mkVars None 0 1 1 2 9 PLUS_INFINITY MINUS_INFINITY 12 1) in
  15 > OrdinalTourCost (var (glob m)) /\
  OrdinalTourCost (var (glob m)) > BetterCost (var (glob m)) /\
  Dimension (par (glob m)) = DimensionSaved (par (glob m)) /\
  Trial_merge_ordinal Toy.E97 15 m = Ok 15 m.
Proof. intros m. repeat split. Qed.

Lemma Trial_merge_ordinal_spec_witness :
  let m := Toy.machine0 (Toy.params0 2 0 1 0 1000)
             (mkVars None 0 1 1 2 PLUS_INFINITY PLUS_INFINITY MINUS_INFINITY 12 1) in
  merge_wanted (par (glob m)) (var (glob m)) 15 /\
  Trial_merge_ordinal Toy.E97 15 m =
    call_val Trace.MergeWithTour (MergeWithTour Toy.E97)
      (with_NodeSet (ordinal_links 3 (nodes_of m)) m).
Proof.
  intros m.
  assert (Hw : merge_wanted (par (glob m)) (var (glob m)) 15).
  { evaluate. }
  split; [exact Hw|].
  destruct (Trial_merge_ordinal_spec Toy.E97 15 m) as (_ & H).
  apply H; [exact Hw|]. simpl. lia.
Defined.

(** C7, counterexample.  With [MaxTrials = 0] the entry of [FindTour] calls
    [ChooseInitialTour] and does not clear the hash table. *)
Lemma FindTour_entry_without_HashInitialize :
  let m := Toy.machine0 (Toy.params0 0 0 1 0 1000) (Toy.vars0 1 MINUS_INFINITY) in
  exists m1,
    FindTour_entry Toy.E97 5 m = Ok 0 m1 /\
    trace m1 = [Trace.called Trace.ChooseInitialTour].
Proof. intros m. eexists. split; vm_compute; reflexivity. Qed.

Lemma FindTour_entry_initialises_witness :
  let m := Toy.machine0 (Toy.params0 2 0 1 0 1000) (Toy.vars0 1 MINUS_INFINITY) in
  ring Suc (nodes_of m) (FirstNode (wk (glob m))) [1%nat; 2%nat; 3%nat] /\
  exists m1,
    FindTour_entry Toy.E97 5 m = Ok 0 m1 /\
    BetterCost (var (glob m1)) = PLUS_INFINITY /\
    new_events m m1 = [Trace.called Trace.HashInitialize].
Proof.
  intros m. split; [exact ring_nodes|].
  destruct (FindTour_entry_initialises Toy.E97 5 m [1%nat; 2%nat; 3%nat])
    as (m1 & H1 & H2 & H3 & _).
  - exact ring_nodes.
  - simpl. lia.
  - intros _ _. simpl. split; [lia|discriminate].
  - exists m1. split; [exact H1|]. split; [exact H2|]. apply H3. reflexivity.
Defined.




(** C9, counterexample.  Two executions with the same seed, runs, trials,
    candidates and costs, and [TimeLimit = 2]: on the clock that advances
    the second trial is not started and the best cost is 9, on the clock
    that stands still it is made and the best cost is 7. *)
Lemma main_search_depends_on_clock :
  let p := Toy.params0 2 0 1 0 2 in
  let v := Toy.vars0 1 MINUS_INFINITY in
  let m1 := Toy.machine Toy.steady p v in
  let m2 := Toy.machine Toy.frozen p v in
  glob m1 = glob m2 /\ ticks m1 = ticks m2 /\ trace m1 = trace m2 /\
  exists m1' m2',
    main_search Toy.E97 10 0 m1 = Ok EXIT_SUCCESS m1' /\
    main_search Toy.E97 10 0 m2 = Ok EXIT_SUCCESS m2' /\
    BestCost (var (glob m1')) = 9 /\
    BestCost (var (glob m2')) = 7.
Proof.
  intros p v m1 m2. repeat split.
  do 2 eexists. split; [vm_compute; reflexivity|].
  split; [vm_compute; reflexivity|]. split; reflexivity.
Qed.

Lemma main_search_reproducible_witness :
  let p := Toy.params0 2 0 1 0 1000 in
  let v := Toy.vars0 1 MINUS_INFINITY in
  let m1 := Toy.machine Toy.steady p v in
  let m2 := Toy.machine (fun n => 2 * Z.of_nat n) p v in
  ~ clocks_agree Toy.E97 (TimeLimit (par (glob m1))) (clock m1) (clock m2) /\
  main_search_tests Toy.E97 10 0 m1 = [(2, 1); (3, 1)]%nat /\
  Forall (agree_at Toy.E97 (TimeLimit (par (glob m1))) (clock m1) (clock m2))
    (main_search_tests Toy.E97 10 0 m1) /\
  (exists m1' m2',
     main_search Toy.E97 10 0 m1 = Ok EXIT_SUCCESS m1' /\
     main_search Toy.E97 10 0 m2 = Ok EXIT_SUCCESS m2' /\
     glob m1' = glob m2' /\ trace m1' = trace m2') /\
  (~ stop_condition (par (glob m1)) 9 MINUS_INFINITY /\
   exists m',
     Run_next Toy.E97 10 9 MINUS_INFINITY m1 = Ok Continue m' /\
     Seed (var (glob m')) = (Seed (var (glob m1)) + 1) mod UINT_WIDTH).
Proof.
  intros p v m1 m2.
  assert (Hn : ~ clocks_agree Toy.E97 (TimeLimit (par (glob m1))) (clock m1) (clock m2)).
  { intros H. specialize (H 500%nat 0%nat). vm_compute in H. discriminate H. }
  assert (Hc : Forall (agree_at Toy.E97 (TimeLimit (par (glob m1))) (clock m1) (clock m2))
                 (main_search_tests Toy.E97 10 0 m1)).
  { vm_compute. repeat constructor. }
  split; [exact Hn|]. split; [vm_compute; reflexivity|]. split; [exact Hc|].
  assert (H1 : exists m1', main_search Toy.E97 10 0 m1 = Ok EXIT_SUCCESS m1').
  { eexists. vm_compute. reflexivity. }
  assert (H2 : exists m2', main_search Toy.E97 10 0 m2 = Ok EXIT_SUCCESS m2').
  { eexists. vm_compute. reflexivity. }
  destruct H1 as [m1' H1], H2 as [m2' H2].
  pose proof (main_search_reproducible Toy.E97 10 0 0 m1 m2) as H.
  specialize (H eq_refl). specialize (H eq_refl). specialize (H eq_refl).
  specialize (H Hc). destruct H as [H Hnext]. split.
  - rewrite H1, H2 in H. destruct H as (_ & Hg & Ht).
    exists m1', m2'. repeat split; assumption.
  - assert (Hs : ~ stop_condition (par (glob m1)) 9 MINUS_INFINITY).
    { intros [Hs _]. apply Hs. reflexivity. }
    split; [exact Hs|].
    assert (H3 : exists m', Run_next Toy.E97 10 9 MINUS_INFINITY m1 = Ok Continue m').
    { eexists. vm_compute. reflexivity. }
    destruct H3 as [m' H3]. exists m'. split; [exact H3|].
    destruct (Hnext 9 MINUS_INFINITY Continue m' Hs H3) as (_ & Hseed & _). exact Hseed.
Defined.

Lemma Optimum_non_increasing_witness :
  let m := Toy.with_nodes (map (set_InputSuc (Some 1%nat)) Toy.nodes)
             (Toy.machine0 (Toy.params0 2 0 1 0 1000) (Toy.vars0 1 100)) in
  50 < Optimum (var (glob m)) /\
  exists m',
    Run_new_optimum 5 50 m = Ok 100 m' /\
    Optimum (var (glob m')) = 50 /\
    forall a, a ∈ [1%nat; 2%nat; 3%nat] ->
      exists n n', nodes_of m !! a = Some n /\ nodes_of m' !! a = Some n' /\
                   InputSuc n' = Suc n /\ Suc n' = Suc n.
Proof.
  intros m. split; [reflexivity|].
  destruct (Optimum_non_increasing (Toy.E97) 5 m) as (_ & _ & H).
  apply (H 50 [1%nat; 2%nat; 3%nat]).
  - reflexivity.
  - split; [reflexivity|]. split.
    + apply NoDup_ListNoDup. repeat constructor; simpl; intuition discriminate.
    + simpl. repeat split; eexists; split; reflexivity.
  - simpl. lia.
  - intros a n0 Hf Hn. injection Hf as <-. simpl in Hn. injection Hn as <-. discriminate.
Defined.

(** * Further properties

    Properties of further parts of the two functions. *)


(** ** The candidate sets *)

Section CandidateSets.

Context {double Rest Stats : Type} (E : Externals double Rest Stats).
Local Abbreviation Mach := (Machine double Rest Stats).
Implicit Types (m : Mach) (ns : list Node).

Lemma update_twice a f g ns :
  update a g (update a f ns) = update a (fun n => g (f n)) ns.
Proof.
  unfold update. destruct (ns !! a) as [n|] eqn:Hn; [|now rewrite Hn].
  rewrite list_lookup_insert_eq by (eapply lookup_lt_Some; eauto).
  apply list_insert_insert_eq.
Qed.


Lemma swap_ok t b m n :
  nodes_of m !! t = Some n -> Suc n = Some b -> is_Some (nodes_of m !! b) ->
  (let* n := load (Some t) in
   let Temp := CandidateSet n in
   store (Some t) (set_CandidateSet (BackboneCandidateSet n)) >>
   store (Some t) (set_BackboneCandidateSet Temp) >>
   let* n := load (Some t) in
   ret (Suc n)) m =
  Ok (Some b) (with_NodeSet (update t swap_sets (nodes_of m)) m).
Proof.
  intros Hn Hs _. unfold bind at 1. rewrite (load_Some _ _ _ Hn). cbv zeta.
  unfold bind at 1. rewrite (store_Some _ _ _ _ Hn).
  unfold bind at 1.
  erewrite store_Some by (rewrite nodes_of_with_NodeSet; apply update_lookup_eq; exact Hn).
  rewrite nodes_of_with_NodeSet, with_NodeSet_twice, update_twice.
  unfold bind.
  erewrite load_Some by (rewrite nodes_of_with_NodeSet; apply update_lookup_eq; exact Hn).
  unfold ret. cbn [Suc set_BackboneCandidateSet set_CandidateSet]. rewrite Hs.
  unfold update. rewrite Hn. reflexivity.
Qed.

Lemma SwapCandidateSets_ring fuel m l :
  ring Suc (nodes_of m) (FirstNode (wk (glob m))) l ->
  (length l <= fuel)%nat ->
  SwapCandidateSets fuel m =
    Ok tt (with_NodeSet (foldl (fun ns a => update a swap_sets ns) (nodes_of m) l)
             (logged (Trace.printed Trace.SwapBanner) m)).
Proof.
  intros Hr Hfuel.
  destruct (ring_head _ _ _ _ Hr) as (a0 & todo & n0 & -> & Hf & Ha0 & Hnd & Hn0 & Hp).
  unfold SwapCandidateSets. unfold bind at 1, printff, emit.
  unfold bind at 1, work. cbn [logged glob]. rewrite Hf. unfold bind at 1.
  rewrite (ring_walk_path _ Suc (fun t ns => update t swap_sets ns))
    with (todo := todo) (a0 := a0).
  - reflexivity.
  - intros t b m0 n H1 H2 H3. apply (swap_ok t b m0 n); assumption.
  - intros t ns a. apply update_field. reflexivity.
  - exact Hf.
  - eauto.
  - exact Ha0.
  - exact Hp.
  - simpl in Hfuel. lia.
Qed.

Lemma ring_update (sel : Node -> NodePtr) (g : nat -> Node -> Node) ns first l l' :
  (forall a n, sel (g a n) = sel n) ->
  ring sel ns first l ->
  ring sel (foldl (fun ns a => update a (g a) ns) ns l') first l.
Proof.
  intros Hg. unfold ring. destruct l as [|a l]; [tauto|].
  intros (Hf & Hnd & Hp). split; [exact Hf|]. split; [exact Hnd|].
  eapply path_field; [|exact Hp]. clear Hp Hnd Hf.
  revert ns. induction l' as [|b l' IH]; intros ns x; cbn [foldl]; [reflexivity|].
  rewrite IH. apply update_field. intros n. apply Hg.
Qed.

(** [SwapCandidateSets], lines 170-179: on a tour that is a ring through
    [FirstNode], the two candidate sets of every node of the tour are
    exchanged; nothing else changes: not the other fields of these nodes,
    not the nodes outside the tour, not the other globals; one line is
    printed. *)
Theorem SwapCandidateSets_exchanges fuel m l :
  ring Suc (nodes_of m) (FirstNode (wk (glob m))) l ->
  (length l <= fuel)%nat ->
  exists ns',
    SwapCandidateSets fuel m =
      Ok tt (with_NodeSet ns' (logged (Trace.printed Trace.SwapBanner) m)) /\
    (forall a n, a ∈ l -> nodes_of m !! a = Some n ->
       exists n', ns' !! a = Some n' /\
         CandidateSet n' = BackboneCandidateSet n /\
         BackboneCandidateSet n' = CandidateSet n /\
         n' = swap_sets n) /\
    (forall a, a ∉ l -> ns' !! a = nodes_of m !! a) /\
    length ns' = length (nodes_of m).
Proof.
  intros Hr Hfuel. eexists. split; [apply SwapCandidateSets_ring; eassumption|].
  assert (Hnd : NoDup l).
  { destruct l; [contradiction|]. destruct Hr as (_ & H & _). exact H. }
  split; [|split].
  - intros a n Ha Hn. exists (swap_sets n).
    rewrite (foldl_update_lookup (fun _ => swap_sets)) by assumption.
    rewrite decide_True by assumption. rewrite Hn. auto.
  - intros a Ha. rewrite (foldl_update_lookup (fun _ => swap_sets)) by assumption.
    now rewrite decide_False by assumption.
  - apply (length_foldl_update (fun _ => swap_sets)).
Qed.


End CandidateSets.

(** ** The links of the tour *)

Section TourLinks.

Context {double Rest Stats : Type} (E : Externals double Rest Stats).
Local Abbreviation Mach := (Machine double Rest Stats).
Implicit Types (m : Mach) (ns : list Node).

Lemma ring_NoDup (sel : Node -> NodePtr) ns first l : ring sel ns first l -> NoDup l.
Proof. destruct l; [contradiction|]. intros (_ & H & _). exact H. Qed.

(** Lines 38-42 of [FindTour]: on a tour that is a ring through
    [FirstNode], the loop ends and has set [OldPred], [OldSuc],
    [NextBestSuc] and [BestSuc] of every node of the tour to null; the
    other fields of these nodes, the nodes outside the tour and the other
    globals are unchanged, and nothing is logged. *)
Theorem FindTour_clear_links fuel m l :
  ring Suc (nodes_of m) (FirstNode (wk (glob m))) l ->
  (length l <= fuel)%nat ->
  exists ns',
    FindTour_clear fuel m = Ok tt (with_NodeSet ns' m) /\
    (forall a n, a ∈ l -> nodes_of m !! a = Some n ->
       exists n', ns' !! a = Some n' /\
         OldPred n' = None /\ OldSuc n' = None /\
         NextBestSuc n' = None /\ BestSuc n' = None /\
         n' = clear_tour_links n) /\
    (forall a, a ∉ l -> ns' !! a = nodes_of m !! a) /\
    ring Suc ns' (FirstNode (wk (glob m))) l.
Proof.
  intros Hr Hfuel. pose proof (ring_NoDup _ _ _ _ Hr) as Hnd.
  eexists. split; [apply FindTour_clear_ring; eassumption|]. split; [|split].
  - intros a n Ha Hn. exists (clear_tour_links n).
    rewrite (foldl_update_lookup (fun _ => clear_tour_links)) by assumption.
    rewrite decide_True by assumption. rewrite Hn. repeat split; reflexivity.
  - intros a Ha. rewrite (foldl_update_lookup (fun _ => clear_tour_links)) by assumption.
    now rewrite decide_False by assumption.
  - apply (ring_update Suc (fun _ => clear_tour_links)); [reflexivity|exact Hr].
Qed.

Lemma link_BestSuc_ok t b m n :
  nodes_of m !! t = Some n -> BestSuc n = Some b -> is_Some (nodes_of m !! b) ->
  (let* n := load (Some t) in
   store (Some t) (set_Next (BestSuc n)) >> ret (BestSuc n)) m =
  Ok (Some b) (with_NodeSet (update t (fun n => set_Next (BestSuc n) n) (nodes_of m)) m).
Proof.
  intros Hn Hs _. unfold bind. rewrite (load_Some _ _ _ Hn).
  rewrite (store_Some _ _ _ _ Hn). unfold ret, update. rewrite Hn, Hs. reflexivity.
Qed.

(** Lines 82-88 of [FindTour]: the merge with the better tour is made if and
    only if the first node has a best successor.  Then, the best successors
    forming a ring through [FirstNode], the [Next] field of every node of
    that ring becomes its best successor, nothing else changes in the nodes,
    and the cost becomes the result of [MergeWithTour] on that state.
    Without a best successor nothing happens. *)
Theorem Trial_merge_better_spec fuel Cost m a0 n0 l :
  FirstNode (wk (glob m)) = Some a0 ->
  nodes_of m !! a0 = Some n0 ->
  (BestSuc n0 <> None ->
   ring BestSuc (nodes_of m) (FirstNode (wk (glob m))) l /\ (length l <= fuel)%nat) ->
  match BestSuc n0 with
  | None => Trial_merge_better E fuel Cost m = Ok Cost m
  | Some _ =>
      exists ns',
        Trial_merge_better E fuel Cost m =
          call_val Trace.MergeWithTour (MergeWithTour E) (with_NodeSet ns' m) /\
        (forall a n, a ∈ l -> nodes_of m !! a = Some n ->
           ns' !! a = Some (set_Next (BestSuc n) n)) /\
        (forall a, a ∉ l -> ns' !! a = nodes_of m !! a)
  end.
Proof.
  intros Hf Hn0 Hring.
  assert (Hstart : Trial_merge_better E fuel Cost m =
    match BestSuc n0 with
    | Some _ =>
        (ring_walk fuel
           (fun t => let* n := load t in store t (set_Next (BestSuc n)) >> ret (BestSuc n))
           (Some a0) >>
         call_val Trace.MergeWithTour (MergeWithTour E)) m
    | None => Ok Cost m
    end).
  { unfold Trial_merge_better. unfold bind at 1, work. unfold bind at 1.
    rewrite Hf, (load_Some _ _ _ Hn0). destruct (BestSuc n0); reflexivity. }
  rewrite Hstart. clear Hstart.
  destruct (BestSuc n0) as [b0|] eqn:Hb; [|reflexivity].
  destruct Hring as [Hr Hfuel]; [discriminate|].
  pose proof (ring_NoDup _ _ _ _ Hr) as Hnd.
  destruct (ring_head _ _ _ _ Hr) as (a1 & todo & n1 & -> & Hf1 & Ha0 & _ & Hn1 & Hp).
  assert (a1 = a0) by congruence. subst a1.
  eexists. split; [|split].
  - unfold bind at 1.
    rewrite (ring_walk_path _ BestSuc (fun t ns => update t (fun n => set_Next (BestSuc n) n) ns))
      with (todo := todo) (a0 := a0).
    + reflexivity.
    + intros t b m0 n H1 H2 H3. apply (link_BestSuc_ok t b m0 n); assumption.
    + intros t ns a. apply update_field. reflexivity.
    + exact Hf.
    + eauto.
    + exact Ha0.
    + exact Hp.
    + simpl in Hfuel. lia.
  - intros a n Ha Hn.
    rewrite (foldl_update_lookup (fun _ n => set_Next (BestSuc n) n)) by assumption.
    rewrite decide_True by assumption. now rewrite Hn.
  - intros a Ha.
    rewrite (foldl_update_lookup (fun _ n => set_Next (BestSuc n) n)) by assumption.
    now rewrite decide_False by assumption.
Qed.

Lemma free_ok t b m n :
  nodes_of m !! t = Some n -> Suc n = Some b -> is_Some (nodes_of m !! b) ->
  (store (Some t) (set_BackboneCandidateSet None) >>
   let* n := load (Some t) in ret (Suc n)) m =
    Ok (Some b) (with_NodeSet (update t (set_BackboneCandidateSet None) (nodes_of m)) m).
Proof.
  intros Hn Hs _. unfold bind. rewrite (store_Some _ _ _ _ Hn).
  erewrite load_Some; [|rewrite nodes_of_with_NodeSet; apply update_lookup_eq; exact Hn].
  unfold ret. simpl. now rewrite Hs.
Qed.

Lemma free_ring fuel m l :
  ring Suc (nodes_of m) (FirstNode (wk (glob m))) l ->
  (length l <= fuel)%nat ->
  ring_walk fuel
    (fun t => store t (set_BackboneCandidateSet None) >> let* n := load t in ret (Suc n))
    (FirstNode (wk (glob m))) m =
  Ok (FirstNode (wk (glob m)))
    (with_NodeSet (foldl (fun ns a => update a (set_BackboneCandidateSet None) ns)
                     (nodes_of m) l) m).
Proof.
  intros Hr Hfuel.
  destruct (ring_head _ _ _ _ Hr) as (a0 & todo & n0 & -> & Hf & Ha0 & Hnd & Hn0 & Hp).
  rewrite Hf.
  rewrite (ring_walk_path _ Suc (fun t ns => update t (set_BackboneCandidateSet None) ns))
    with (todo := todo) (a0 := a0).
  - reflexivity.
  - intros t b m0 n H1 H2 H3. apply (free_ok t b m0 n); assumption.
  - intros t ns a. apply update_field. reflexivity.
  - exact Hf.
  - eauto.
  - exact Ha0.
  - exact Hp.
  - simpl in Hfuel. lia.
Qed.

(** Lines 137-147 of [FindTour].  Without backbone trials
    ([BackboneTrials <= 0] or [BackboneTrials >= MaxTrials]) nothing
    happens.  With them, on a tour that is a ring: the candidate sets are
    first exchanged if [Trial] is beyond [BackboneTrials], or equal to it
    and the loop was not left at the optimum; then the backbone candidate
    set of every node of the tour is null, whatever it was, and nothing
    else has changed. *)
Theorem FindTour_backbone_end_frees fuel m l :
  let p := par (glob m) in
  let v := var (glob m) in
  let swapped :=
    (Trial v >? BackboneTrials p)
    || ((Trial v =? BackboneTrials p)
        && (negb (truthy (StopAtOptimum p)) || negb (BetterCost v =? Optimum v))) in
  (BackboneTrials p <= 0 \/ MaxTrials p <= BackboneTrials p ->
   FindTour_backbone_end fuel m = Ok tt m) /\
  (0 < BackboneTrials p < MaxTrials p ->
   ring Suc (nodes_of m) (FirstNode (wk (glob m))) l ->
   (length l <= fuel)%nat ->
   exists ns',
     FindTour_backbone_end fuel m =
       Ok tt (with_NodeSet ns'
                (if swapped then logged (Trace.printed Trace.SwapBanner) m else m)) /\
     (forall a n, a ∈ l -> nodes_of m !! a = Some n ->
        ns' !! a = Some (set_BackboneCandidateSet None (if swapped then swap_sets n else n))) /\
     (forall a, a ∉ l -> ns' !! a = nodes_of m !! a)).
Proof.
  intros p v swapped. subst p v. split.
  - intros H. unfold FindTour_backbone_end. unfold bind at 1, params. unfold bind at 1, vars.
    destruct (Z.gtb_spec (BackboneTrials (par (glob m))) 0);
      destruct (Z.ltb_spec (BackboneTrials (par (glob m))) (MaxTrials (par (glob m))));
      try reflexivity; lia.
  - intros H Hr Hfuel. pose proof (ring_NoDup _ _ _ _ Hr) as Hnd.
    unfold FindTour_backbone_end. unfold bind at 1, params. unfold bind at 1, vars.
    destruct (Z.gtb_spec (BackboneTrials (par (glob m))) 0); [|lia].
    destruct (Z.ltb_spec (BackboneTrials (par (glob m))) (MaxTrials (par (glob m)))); [|lia].
    cbn [andb]. fold swapped. destruct swapped.
    + unfold bind at 1. rewrite (SwapCandidateSets_ring fuel m l Hr Hfuel).
      set (m1 := with_NodeSet _ _).
      assert (Hr1 : ring Suc (nodes_of m1) (FirstNode (wk (glob m1))) l).
      { subst m1. rewrite nodes_of_with_NodeSet.
        apply (ring_update Suc (fun _ => swap_sets)); [reflexivity|exact Hr]. }
      unfold bind at 1, work. unfold bind at 1.
      rewrite (free_ring fuel m1 l Hr1 Hfuel). unfold ret.
      subst m1. rewrite nodes_of_with_NodeSet, with_NodeSet_twice.
      eexists. split; [reflexivity|]. split.
      * intros a n Ha Hn.
        rewrite (foldl_update_lookup (fun _ => set_BackboneCandidateSet None)) by assumption.
        rewrite (foldl_update_lookup (fun _ => swap_sets)) by assumption.
        rewrite !decide_True by assumption. now rewrite Hn.
      * intros a Ha.
        rewrite (foldl_update_lookup (fun _ => set_BackboneCandidateSet None)) by assumption.
        rewrite (foldl_update_lookup (fun _ => swap_sets)) by assumption.
        now rewrite !decide_False by assumption.
    + unfold bind at 1. unfold ret at 1. unfold bind at 1, work. unfold bind at 1.
      rewrite (free_ring fuel m l Hr Hfuel). unfold ret.
      eexists. split; [reflexivity|]. split.
      * intros a n Ha Hn.
        rewrite (foldl_update_lookup (fun _ => set_BackboneCandidateSet None)) by assumption.
        rewrite !decide_True by assumption. now rewrite Hn.
      * intros a Ha.
        rewrite (foldl_update_lookup (fun _ => set_BackboneCandidateSet None)) by assumption.
        now rewrite !decide_False by assumption.
Qed.

End TourLinks.

(** ** The first node of a trial *)

Section FirstNodes.

Context {double Rest Stats : Type} (E : Externals double Rest Stats).
Local Abbreviation Mach := (Machine double Rest Stats).
Implicit Types (m : Mach) (ns : list Node).

Lemma path_nth (sel : Node -> NodePtr) ns l final : forall j a,
  path sel ns l final -> l !! j = Some a ->
  exists n, ns !! a = Some n /\ sel n = Some (default final (l !! S j)).
Proof.
  induction l as [|x l IH]; intros j a Hp Hj; [discriminate|].
  destruct Hp as [(n & Hn & Hs) Hp]. destruct j as [|j].
  - injection Hj as <-. exists n. split; [exact Hn|]. rewrite Hs.
    destruct l; reflexivity.
  - apply (IH j a Hp Hj).
Qed.

Lemma ring_step (sel : Node -> NodePtr) ns first l j a :
  ring sel ns first l -> l !! j = Some a ->
  exists n b, ns !! a = Some n /\ sel n = Some b /\ l !! (S j mod length l)%nat = Some b.
Proof.
  intros Hr Hj. destruct l as [|a0 l]; [contradiction|].
  destruct Hr as (_ & _ & Hp).
  destruct (path_nth _ _ _ _ _ _ Hp Hj) as (n & Hn & Hs).
  pose proof (lookup_lt_Some _ _ _ Hj) as Hlt.
  exists n. destruct ((a0 :: l) !! S j) as [b|] eqn:Hb.
  - exists b. repeat split; auto.
    pose proof (lookup_lt_Some _ _ _ Hb). rewrite Nat.mod_small by lia. exact Hb.
  - exists a0. repeat split; auto.
    apply lookup_ge_None in Hb.
    replace (S j) with (length (a0 :: l)) by lia.
    rewrite Nat.Div0.mod_same. reflexivity.
Qed.

Lemma advance_FirstNode_from (first : NodePtr) l : forall i j a m,
  ring Suc (nodes_of m) first l ->
  l !! j = Some a ->
  FirstNode (wk (glob m)) = Some a ->
  exists b,
    l !! ((j + i) mod length l)%nat = Some b /\
    advance_FirstNode i m = Ok tt (with_work (set_FirstNode (Some b) (wk (glob m))) m).
Proof.
  induction i as [|i IH]; intros j a m Hr Hj Hf.
  - exists a. pose proof (lookup_lt_Some _ _ _ Hj).
    rewrite Nat.add_0_r, Nat.mod_small by lia. split; [exact Hj|].
    simpl. unfold ret. rewrite <- Hf.
    destruct m as [[p v [n f h ps fi r]] s c t tr]. reflexivity.
  - destruct (ring_step _ _ _ _ _ _ Hr Hj) as (n & b1 & Hn & Hs & Hb1).
    cbn [advance_FirstNode]. unfold bind at 1, work. rewrite Hf.
    unfold bind at 1. rewrite (load_Some _ _ _ Hn). rewrite Hs.
    unfold bind at 1, put_work.
    set (m1 := with_work _ m).
    destruct (IH (S j mod length l)%nat b1 m1) as (b & Hb & Hrun).
    + exact Hr.
    + exact Hb1.
    + reflexivity.
    + exists b. split.
      * rewrite Nat.Div0.add_mod_idemp_l in Hb.
        replace (j + S i)%nat with (S j + i)%nat by lia. exact Hb.
      * rewrite Hrun. reflexivity.
Qed.

(** The loop of lines 76-77 of [FindTour],
    [for (i = ...; i > 0; i--) FirstNode = FirstNode->Suc]: on a tour that
    is a ring of n nodes through [FirstNode], i steps end at the node at
    position i mod n of the tour; only [FirstNode] changes. *)
Theorem advance_FirstNode_ring i m l :
  ring Suc (nodes_of m) (FirstNode (wk (glob m))) l ->
  exists b,
    l !! (i mod length l)%nat = Some b /\
    advance_FirstNode i m = Ok tt (with_work (set_FirstNode (Some b) (wk (glob m))) m).
Proof.
  intros Hr.
  destruct (ring_head _ _ _ _ Hr) as (a0 & todo & n0 & -> & Hf & _).
  apply (advance_FirstNode_from _ _ i 0%nat a0 m Hr); [reflexivity|exact Hf].
Qed.

Lemma call_val_Random m :
  call_val Trace.Random (Random E) m =
    Ok (fst (Random E (glob m)))
       (with_work (snd (Random E (glob m))) (logged (Trace.called Trace.Random) m)).
Proof. reflexivity. Qed.

(** Lines 72-79 of [FindTour]: the first node of a trial.  [Random] is
    called once and gives r, which is not negative.  When
    [Dimension == DimensionSaved], [FirstNode] becomes [&NodeSet[k]] with
    k = 1 + r % Dimension, so 1 <= k <= Dimension; otherwise [FirstNode]
    moves r % Dimension steps along the tour, a ring of n nodes, to the node
    at position (r % Dimension) mod n.  Then [ChooseInitialTour] is called.
    With [Dimension] 0 the remainder is a division by zero. *)
Theorem Trial_start_first_node m :
  let p := par (glob m) in
  let r := fst (Random E (glob m)) in
  let w1 := snd (Random E (glob m)) in
  (Dimension p = 0 -> Trial_start E m = Fault) /\
  (Dimension p = DimensionSaved p -> 1 <= Dimension p -> 0 <= r ->
   let k := 1 + Z.rem r (Dimension p) in
   1 <= k <= Dimension p /\
   Trial_start E m = Ok tt (started E (Some (Z.to_nat k)) m)) /\
  (forall l,
   Dimension p <> DimensionSaved p -> 1 <= Dimension p -> 0 <= r ->
   ring Suc (NodeSet w1) (FirstNode w1) l ->
   exists b,
     l !! (Z.to_nat (Z.rem r (Dimension p)) mod length l)%nat = Some b /\
     Trial_start E m = Ok tt (started E (Some b) m)).
Proof.
  intros p r w1. subst p r w1. split; [|split].
  - intros H0. unfold Trial_start. unfold bind at 1. unfold bind at 1, params.
    destruct (Dimension (par (glob m)) =? DimensionSaved (par (glob m)));
      unfold bind at 1; rewrite call_val_Random; cbn [logged with_work with_glob glob par];
      rewrite H0; reflexivity.
  - intros Hd H1 Hr k.
    assert (Hk : 1 <= k <= Dimension (par (glob m))).
    { subst k. rewrite Z.rem_mod_nonneg by lia.
      pose proof (Z.mod_pos_bound (fst (Random E (glob m))) (Dimension (par (glob m)))). lia. }
    split; [exact Hk|].
    unfold Trial_start. unfold bind at 1. unfold bind at 1, params.
    apply Z.eqb_eq in Hd. rewrite Hd.
    unfold bind at 1. rewrite call_val_Random. cbn [logged with_work with_glob glob par].
    destruct (Z.eqb_spec (Dimension (par (glob m))) 0) as [|_]; [lia|].
    unfold bind at 1. fold k. rewrite NodeSet_at_ok by lia.
    reflexivity.
  - intros l Hd H1 Hr Hring.
    set (m1 := with_work (snd (Random E (glob m))) (logged (Trace.called Trace.Random) m)).
    destruct (ring_head _ _ _ _ Hring) as (a0 & todo & n0 & Hl & Hf & _).
    destruct (advance_FirstNode_from (FirstNode (wk (glob m1))) l
                (Z.to_nat (Z.rem (fst (Random E (glob m))) (Dimension (par (glob m)))))
                0%nat a0 m1)
      as (b & Hb & Hrun); [exact Hring|rewrite Hl; reflexivity|exact Hf|].
    exists b. split; [exact Hb|].
    unfold Trial_start. unfold bind at 1. unfold bind at 1, params.
    apply Z.eqb_neq in Hd. rewrite Hd.
    unfold bind at 1. rewrite call_val_Random. cbn [logged with_work with_glob glob par].
    destruct (Z.eqb_spec (Dimension (par (glob m))) 0) as [|_]; [lia|].
    fold m1. rewrite Hrun. reflexivity.
Qed.

End FirstNodes.

(** ** What the parts of [FindTour] assign *)

Section Frames.

Context {double Rest Stats : Type} (E : Externals double Rest Stats).
Local Abbreviation Mach := (Machine double Rest Stats).
Implicit Types (m : Mach) (ns : list Node).

Lemma reads_stable {X : Type} (p0 : Params double) (f : Vars -> X) x g :
  (forall v, f (g v) = f v) -> stable (reads p0 f x) g.
Proof. intros Hg p v [Hp Hf]. split; [exact Hp|]. now rewrite Hg. Qed.

Lemma keeps_reads {X A : Type} (f : Vars -> X) (c : M Mach A) m a m' :
  respects (clock m) (clock m) (TimeLimit (par (glob m)))
    (reads (par (glob m)) f (f (var (glob m)))) eq c c ->
  c m = Ok a m' ->
  par (glob m') = par (glob m) /\ f (var (glob m')) = f (var (glob m)).
Proof.
  intros Hr Hc. apply (keeps _ _ _ _ _ Hr) in Hc as [[Hp Hf] _]; [auto|].
  split; reflexivity.
Qed.

Lemma keeps_vars {A : Type} (c : M Mach A) m a m' :
  respects (clock m) (clock m) (TimeLimit (par (glob m)))
    (fixed (par (glob m)) (var (glob m))) eq c c ->
  c m = Ok a m' ->
  par (glob m') = par (glob m) /\ var (glob m') = var (glob m).
Proof.
  intros Hr Hc. apply (keeps _ _ _ _ _ Hr) in Hc as [[Hp Hf] _]; [auto|].
  split; reflexivity.
Qed.

Lemma Trial_record_vars Cost m flow m' :
  Trial_record E Cost m = Ok flow m' ->
  par (glob m') = par (glob m) /\
  var (glob m') =
    (if Cost <? BetterCost (var (glob m)) then set_BetterCost Cost (var (glob m))
     else var (glob m)).
Proof.
  unfold Trial_record. run.
  destruct (Cost <? BetterCost (var (glob m))).
  - destruct (TraceLevel (par (glob m)) >=? 1); run;
      [destruct (gap_wanted (var (glob m))); run|];
      (destruct ((Dimension (par (glob m)) =? DimensionSaved (par (glob m)))
                 && (Cost <? BestCost (var (glob m)))); run;
       destruct (truthy (StopAtOptimum (par (glob m))) && (Cost =? Optimum (var (glob m))));
       run; intros H; injection H as <- <-; split; reflexivity).
  - destruct (TraceLevel (par (glob m)) >=? 2); run;
      intros H; injection H as <- <-; split; reflexivity.
Qed.

Lemma Trial_body_vars fuel m flow m' :
  Trial_body E fuel m = Ok flow m' ->
  par (glob m') = par (glob m) /\
  exists Cost,
    var (glob m') =
      (if Cost <? BetterCost (var (glob m)) then set_BetterCost Cost (var (glob m))
       else var (glob m)).
Proof.
  unfold Trial_body. intros H.
  apply bind_Ok in H as ([] & m1 & H1 & H).
  apply keeps_vars in H1 as [Hp1 Hv1]; [|apply Trial_start_resp].
  apply bind_Ok in H as (c2 & m2 & H2 & H).
  apply keeps_vars in H2 as [Hp2 Hv2]; [|apply call_val_resp].
  apply bind_Ok in H as (c3 & m3 & H3 & H).
  apply keeps_vars in H3 as [Hp3 Hv3]; [|apply Trial_merge_better_resp].
  apply bind_Ok in H as (c4 & m4 & H4 & H).
  apply keeps_vars in H4 as [Hp4 Hv4]; [|apply Trial_merge_ordinal_resp].
  apply bind_Ok in H as (fl & m5 & H5 & H).
  apply Trial_record_vars in H5 as [Hp5 Hv5].
  assert (Hp : par (glob m5) = par (glob m)) by congruence.
  assert (Hv : var (glob m5) =
            (if c4 <? BetterCost (var (glob m)) then set_BetterCost c4 (var (glob m))
             else var (glob m))).
  { rewrite Hv5, Hv4, Hv3, Hv2, Hv1. reflexivity. }
  destruct fl.
  - apply bind_Ok in H as ([] & m6 & H6 & H).
    apply keeps_vars in H6 as [Hp6 Hv6]; [|apply Trial_backbone_resp].
    unfold ret in H. injection H as <- <-.
    split; [congruence|]. exists c4. congruence.
  - unfold ret in H. injection H as <- <-. split; [exact Hp|]. exists c4. exact Hv.
Qed.

Lemma FindTour_trial_vars fuel (t : double) m flow m' :
  FindTour_trial E fuel t m = Ok flow m' ->
  par (glob m') = par (glob m) /\
  BetterCost (var (glob m')) <= BetterCost (var (glob m)) /\
  but_BetterCost (var (glob m')) = but_BetterCost (var (glob m)).
Proof.
  unfold FindTour_trial. intros H.
  apply bind_Ok in H as (p & m0 & H0 & H). unfold params in H0. injection H0 as <- <-.
  apply bind_Ok in H as (now & m1 & H1 & H). unfold GetTime in H1. injection H1 as <- <-.
  destruct (dge E _ _).
  - revert H. destruct (TraceLevel (par (glob m)) >=? 1); run;
      intros H; injection H as <- <-; simpl; repeat split; lia.
  - apply Trial_body_vars in H as (Hp & Cost & Hv). simpl in Hp, Hv.
    split; [exact Hp|]. rewrite Hv.
    destruct (Z.ltb_spec Cost (BetterCost (var (glob m)))); simpl; split; try lia; reflexivity.
Qed.

Lemma but_BetterCost_Trial (v v' : Vars) :
  but_BetterCost v' = but_BetterCost v -> Trial v' = Trial v.
Proof. intros H. apply (f_equal Trial) in H. exact H. Qed.

Lemma but_BetterCost_kept (v v' : Vars) :
  but_BetterCost v' = but_BetterCost v ->
  kept_by_FindTour v' = kept_by_FindTour v /\ OrdinalTourCost v' = OrdinalTourCost v.
Proof.
  intros H. split.
  - apply (f_equal kept_by_FindTour) in H. exact H.
  - apply (f_equal OrdinalTourCost) in H. exact H.
Qed.

Lemma FindTour_trials_vars fuel (t : double) : forall m m',
  FindTour_trials E fuel t m = Ok tt m' ->
  par (glob m') = par (glob m) /\
  BetterCost (var (glob m')) <= BetterCost (var (glob m)) /\
  Trial (var (glob m)) <= Trial (var (glob m')) /\
  Trial (var (glob m')) <= Z.max (Trial (var (glob m))) (MaxTrials (par (glob m)) + 1) /\
  kept_by_FindTour (var (glob m')) = kept_by_FindTour (var (glob m)) /\
  OrdinalTourCost (var (glob m')) = OrdinalTourCost (var (glob m)).
Proof.
  induction fuel as [|fuel IH]; intros m m' H; [discriminate|].
  cbn [FindTour_trials] in H. revert H. unfold bind at 1, params. unfold bind at 1, vars.
  destruct (Z.leb_spec (Trial (var (glob m))) (MaxTrials (par (glob m)))) as [Hle|Hgt].
  - intros H. apply bind_Ok in H as (flow & m1 & H1 & H).
    apply FindTour_trial_vars in H1 as (Hp1 & Hb1 & Hv1).
    pose proof (but_BetterCost_Trial _ _ Hv1) as Ht1.
    destruct (but_BetterCost_kept _ _ Hv1) as [Hk1 Ho1].
    destruct flow.
    + apply bind_Ok in H as ([] & m2 & H2 & H). unfold assign in H2. injection H2 as <-.
      apply IH in H as (Hp & Hb & Ht & Hm & Hk & Ho).
      set (m2 := with_var _ m1) in *.
      assert (Hp2 : par (glob m2) = par (glob m1)) by reflexivity.
      assert (Hb2 : BetterCost (var (glob m2)) = BetterCost (var (glob m1))) by reflexivity.
      assert (Ht2 : Trial (var (glob m2)) = Trial (var (glob m1)) + 1) by reflexivity.
      assert (Hk2 : kept_by_FindTour (var (glob m2)) = kept_by_FindTour (var (glob m1)))
        by reflexivity.
      assert (Ho2 : OrdinalTourCost (var (glob m2)) = OrdinalTourCost (var (glob m1)))
        by reflexivity.
      rewrite Hp2, Hp1 in Hp, Hm. rewrite Hk, Ho, Hp.
      repeat split; try lia; congruence.
    + unfold ret in H. injection H as <-. repeat split; try lia; congruence.
  - unfold ret. intros H. injection H as <-. repeat split; lia.
Qed.

Lemma FindTour_entry_vars fuel m (t : double) m' :
  FindTour_entry E fuel m = Ok t m' ->
  par (glob m') = par (glob m) /\
  BetterCost (var (glob m')) = PLUS_INFINITY /\
  kept_by_FindTour (var (glob m')) = kept_by_FindTour (var (glob m)) /\
  (Run (var (glob m)) <> 1 \/ Dimension (par (glob m)) <> DimensionSaved (par (glob m)) ->
   OrdinalTourCost (var (glob m')) = OrdinalTourCost (var (glob m))).
Proof.
  unfold FindTour_entry. intros H.
  apply bind_Ok in H as (t0 & m0 & H0 & H). unfold GetTime in H0. injection H0 as <- <-.
  apply bind_Ok in H as ([] & m1 & H1 & H).
  apply keeps_vars in H1 as [Hp1 Hv1]; [|apply FindTour_clear_resp]. simpl in Hp1, Hv1.
  apply bind_Ok in H as (p & m1' & Hp & H). unfold params in Hp. injection Hp as <- <-.
  apply bind_Ok in H as (v & m1' & Hv & H). unfold vars in Hv. injection Hv as <- <-.
  apply bind_Ok in H as ([] & m2 & H2 & H).
  assert (Hk2 : par (glob m2) = par (glob m1) /\
                kept_by_FindTour (var (glob m2)) = kept_by_FindTour (var (glob m1))).
  { destruct ((Run (var (glob m1)) =? 1)
              && (Dimension (par (glob m1)) =? DimensionSaved (par (glob m1)))).
    - apply (keeps_reads kept_by_FindTour) in H2; [exact H2|].
      apply FindTour_OrdinalTourCost_resp. intros x. apply reads_stable. reflexivity.
    - unfold ret in H2. injection H2 as <-. auto. }
  assert (Ho2 : Run (var (glob m)) <> 1 \/
                Dimension (par (glob m)) <> DimensionSaved (par (glob m)) ->
                OrdinalTourCost (var (glob m2)) = OrdinalTourCost (var (glob m))).
  { intros Hc. rewrite Hp1, Hv1 in H2.
    destruct (Z.eqb_spec (Run (var (glob m))) 1);
      destruct (Z.eqb_spec (Dimension (par (glob m))) (DimensionSaved (par (glob m))));
      cbn [andb] in H2; try (exfalso; lia);
      unfold ret in H2; injection H2 as <-; now rewrite Hv1. }
  destruct Hk2 as [Hp2 Hk2].
  revert H. run. destruct (MaxTrials (par (glob m1)) >? 0); run;
    intros H; injection H as _ <-; simpl; rewrite Hp2, Hp1; repeat split;
    try (rewrite <- Hv1; exact Hk2); exact Ho2.
Qed.

Lemma FindTour_exit_vars fuel m c m' :
  FindTour_exit E fuel m = Ok c m' ->
  par (glob m') = par (glob m) /\
  c = BetterCost (var (glob m)) /\
  var (glob m') =
    (if Trial (var (glob m)) >? MaxTrials (par (glob m))
     then set_Trial (MaxTrials (par (glob m))) (var (glob m)) else var (glob m)).
Proof.
  unfold FindTour_exit. intros H.
  apply bind_Ok in H as (p & m0 & H0 & H). unfold params in H0. injection H0 as <- <-.
  apply bind_Ok in H as (w & m0 & H0 & H). unfold work in H0. injection H0 as <- <-.
  apply bind_Ok in H as (t & m1 & H1 & H).
  assert (Hf1 : par (glob m1) = par (glob m) /\ var (glob m1) = var (glob m)).
  { destruct (Norm (par (glob m)) =? 0).
    - apply keeps_vars in H1; [exact H1|]. apply ring_walk_resp. intros. apply adopt_Suc_resp.
    - unfold ret in H1. injection H1 as _ <-. auto. }
  destruct Hf1 as [Hp1 Hv1].
  apply bind_Ok in H as (t2 & m2 & H2 & H).
  apply keeps_vars in H2 as [Hp2 Hv2];
    [|apply ring_walk_resp; intros; apply commit_BestSuc_resp].
  revert H. run. rewrite ?Hv2, ?Hv1, ?Hp2, ?Hp1.
  destruct (Trial (var (glob m)) >? MaxTrials (par (glob m))); run;
    intros H; injection H as <- <-; simpl; rewrite ?Hv2, ?Hv1, ?Hp2, ?Hp1; auto.
Qed.

End Frames.

(** ** [FindTour] as a whole *)

Section Trials.

Context {double Rest Stats : Type} (E : Externals double Rest Stats).
Local Abbreviation Mach := (Machine double Rest Stats).
Implicit Types (m : Mach) (ns : list Node).

Lemma FindTour_parts fuel m c m' :
  FindTour E fuel m = Ok c m' ->
  exists (t : double) m1 m2 m3,
    FindTour_entry E fuel m = Ok t m1 /\
    FindTour_trials E fuel t (with_var (set_Trial 1 (var (glob m1))) m1) = Ok tt m2 /\
    FindTour_backbone_end fuel m2 = Ok tt m3 /\
    FindTour_exit E fuel m3 = Ok c m'.
Proof.
  unfold FindTour. intros H.
  apply bind_Ok in H as (t & m1 & H1 & H).
  apply bind_Ok in H as ([] & m1' & H1' & H). unfold assign in H1'. injection H1' as <-.
  apply bind_Ok in H as ([] & m2 & H2 & H).
  apply bind_Ok in H as ([] & m3 & H3 & H).
  exists t, m1, m2, m3. auto.
Qed.

Lemma FindTour_vars fuel m c m' :
  FindTour E fuel m = Ok c m' ->
  let p := par (glob m) in
  let v := var (glob m) in
  let v' := var (glob m') in
  par (glob m') = p /\
  c = BetterCost v' /\
  c <= PLUS_INFINITY /\
  kept_by_FindTour v' = kept_by_FindTour v /\
  (Run v <> 1 \/ Dimension p <> DimensionSaved p -> OrdinalTourCost v' = OrdinalTourCost v) /\
  (1 <= MaxTrials p -> 1 <= Trial v' <= MaxTrials p) /\
  (MaxTrials p <= 0 -> Trial v' = MaxTrials p).
Proof.
  intros H p v v'. subst p v v'.
  apply FindTour_parts in H as (t & m1 & m2 & m3 & H1 & H2 & H3 & H4).
  apply FindTour_entry_vars in H1 as (Hp1 & Hb1 & Hk1 & Ho1).
  apply FindTour_trials_vars in H2 as (Hp2 & Hb2 & Ht2 & Hm2 & Hk2 & Ho2).
  set (m1' := with_var _ m1) in *.
  assert (Hp1' : par (glob m1') = par (glob m1)) by reflexivity.
  assert (Hb1' : BetterCost (var (glob m1')) = BetterCost (var (glob m1))) by reflexivity.
  assert (Ht1' : Trial (var (glob m1')) = 1) by reflexivity.
  assert (Hk1' : kept_by_FindTour (var (glob m1')) = kept_by_FindTour (var (glob m1)))
    by reflexivity.
  assert (Ho1' : OrdinalTourCost (var (glob m1')) = OrdinalTourCost (var (glob m1)))
    by reflexivity.
  apply keeps_vars in H3 as [Hp3 Hv3]; [|apply FindTour_backbone_end_resp].
  apply FindTour_exit_vars in H4 as (Hp4 & Hc & Hv4).
  rewrite Hv3, Hp3 in Hv4. rewrite Hv3 in Hc.
  assert (Hp : par (glob m2) = par (glob m)) by congruence.
  rewrite Hp in Hv4. rewrite Hp1', Hp1 in Hm2. rewrite Ht1' in Ht2, Hm2.
  assert (Hk : kept_by_FindTour (var (glob m2)) = kept_by_FindTour (var (glob m)))
    by congruence.
  split; [congruence|].
  destruct (Z.gtb_spec (Trial (var (glob m2))) (MaxTrials (par (glob m)))) as [Hgt|Hle];
    rewrite Hv4; cbn [BetterCost OrdinalTourCost Trial set_Trial];
    (split; [exact Hc|]); (split; [lia|]); (split; [exact Hk|]);
    (split; [intros Hcond; rewrite Ho2, Ho1'; apply Ho1; exact Hcond|]);
    split; lia.
Qed.

(** [BetterCost] never increases during the trials: a trial that has passed
    the time check assigns no variable but [BetterCost], and that only with
    a smaller cost, so over the loop of the trials [BetterCost] does not
    grow; and what [FindTour] returns is [BetterCost] as that loop has left
    it, after starting from PLUS_INFINITY. *)
Theorem BetterCost_non_increasing fuel m :
  let v := var (glob m) in
  (forall (EntryTime : double) m',
     FindTour_trials E fuel EntryTime m = Ok tt m' ->
     BetterCost (var (glob m')) <= BetterCost v) /\
  (forall flow m',
     Trial_body E fuel m = Ok flow m' ->
     exists Cost,
       var (glob m') = (if Cost <? BetterCost v then set_BetterCost Cost v else v)) /\
  (forall c m',
     FindTour E fuel m = Ok c m' ->
     exists (EntryTime : double) m1 m2,
       FindTour_trials E fuel EntryTime m1 = Ok tt m2 /\
       BetterCost (var (glob m1)) = PLUS_INFINITY /\
       BetterCost (var (glob m2)) = c /\
       BetterCost (var (glob m')) = c).
Proof.
  intros v. subst v. split; [|split].
  - intros t m' H. apply FindTour_trials_vars in H as (_ & H & _). exact H.
  - intros flow m' H. apply Trial_body_vars in H as (_ & H). exact H.
  - intros c m' H.
    pose proof (FindTour_vars _ _ _ _ H) as (_ & Hc & _).
    apply FindTour_parts in H as (t & m1 & m2 & m3 & H1 & H2 & H3 & H4).
    apply FindTour_entry_vars in H1 as (_ & Hb1 & _).
    apply keeps_vars in H3 as [_ Hv3]; [|apply FindTour_backbone_end_resp].
    apply FindTour_exit_vars in H4 as (_ & Hc4 & _).
    exists t, (with_var (set_Trial 1 (var (glob m1))) m1), m2.
    split; [exact H2|]. split; [exact Hb1|]. split; congruence.
Qed.

(** What [FindTour] leaves alone: the parameters, and of the variables
    [ParameterFileName], [MaxMatrixDimension], [Run], [Runs], [BestCost],
    [Optimum] and [Seed]; it assigns [Trial] and [BetterCost], and
    [OrdinalTourCost] only in the first run with
    [Dimension == DimensionSaved]. *)
Theorem FindTour_frame fuel m c m' :
  FindTour E fuel m = Ok c m' ->
  let p := par (glob m) in
  let v := var (glob m) in
  let v' := var (glob m') in
  par (glob m') = p /\
  ParameterFileName v' = ParameterFileName v /\
  MaxMatrixDimension v' = MaxMatrixDimension v /\
  Run v' = Run v /\ Runs v' = Runs v /\
  BestCost v' = BestCost v /\ Optimum v' = Optimum v /\ Seed v' = Seed v /\
  (Run v <> 1 \/ Dimension p <> DimensionSaved p -> OrdinalTourCost v' = OrdinalTourCost v).
Proof.
  intros H p v v'. subst p v v'.
  apply FindTour_vars in H as (Hp & _ & _ & Hk & Ho & _).
  unfold kept_by_FindTour in Hk. injection Hk as -> -> -> -> -> -> ->.
  repeat split; auto.
Qed.


(** The time check of lines 66-70: when the time limit is reached at the
    top of a trial, the loop over the trials ends there.  No routine is
    called, no global changes ([Trial] is not incremented), and the only
    line printed is the notice, if [TraceLevel >= 1]. *)
Theorem FindTour_trials_time_limit fuel (EntryTime : double) m :
  let p := par (glob m) in
  Trial (var (glob m)) <= MaxTrials p ->
  dge E (dsub E (clock m (ticks m)) EntryTime) (TimeLimit p) = true ->
  exists m',
    FindTour_trials E (S fuel) EntryTime m = Ok tt m' /\
    glob m' = glob m /\
    new_events m m' =
      (if TraceLevel p >=? 1 then [Trace.printed Trace.TimeLimitExceeded] else []).
Proof.
  intros p Ht Hd. subst p.
  destruct (FindTour_trial_time_limit E fuel EntryTime m Hd) as (m' & H1 & Hg & He).
  exists m'. split; [|auto].
  cbn [FindTour_trials]. unfold bind at 1, params. unfold bind at 1, vars.
  apply Z.leb_le in Ht. rewrite Ht. unfold bind. rewrite H1. reflexivity.
Qed.

(** Lines 71-134, a trial that has passed the time check, do not depend on
    the clock: from the same globals and log, with any two clocks and any
    statistics, the trial ends in the same way, with the same globals and
    the same log (which does not keep the times printed) after the same
    number of clock readings. *)
Theorem Trial_body_clock_independent fuel m1 m2 :
  glob m1 = glob m2 ->
  ticks m1 = ticks m2 ->
  trace m1 = trace m2 ->
  match Trial_body E fuel m1, Trial_body E fuel m2 with
  | Ok r1 m1', Ok r2 m2' =>
      r1 = r2 /\ glob m1' = glob m2' /\ trace m1' = trace m2' /\ ticks m1' = ticks m2'
  | Fault, Fault => True
  | OutOfFuel, OutOfFuel => True
  | _, _ => False
  end.
Proof.
  intros Hg Ht Hl.
  pose proof (Trial_body_resp E (clock m1) (clock m2) (TimeLimit (par (glob m1)))
                (fun _ _ => True)) as H.
  specialize (H ltac:(easy) fuel m1 m2).
  unfold rsim in H.
  destruct (Trial_body E fuel m1) as [r1 m1'| |],
           (Trial_body E fuel m2) as [r2 m2'| |];
    try (apply H; repeat split; auto).
  destruct H as [Hr (Hg' & Ht' & Hl' & _)]; [repeat split; auto|]. auto.
Qed.

End Trials.

(** ** The loop over the runs *)

Section Runs.

Context {double Rest Stats : Type} (E : Externals double Rest Stats).
Local Abbreviation Mach := (Machine double Rest Stats).
Implicit Types (m : Mach) (ns : list Node).

Lemma Run_body_vars fuel m flow m' :
  Run_body E fuel m = Ok flow m' ->
  par (glob m') = par (glob m) /\
  Run (var (glob m')) = Run (var (glob m)) /\
  BestCost (var (glob m')) <= BestCost (var (glob m)) /\
  match flow with
  | Break =>
      Runs (var (glob m')) = Run (var (glob m)) /\
      Seed (var (glob m')) = Seed (var (glob m))
  | Continue =>
      Runs (var (glob m')) = Runs (var (glob m)) /\
      Seed (var (glob m')) = (Seed (var (glob m)) + 1) mod UINT_WIDTH
  end.
Proof.
  unfold Run_body. intros H.
  apply bind_Ok in H as (t & m0 & H0 & H). unfold GetTime in H0. injection H0 as <- <-.
  apply bind_Ok in H as (Cost & m1 & H1 & H).
  apply (keeps_reads run_counters) in H1 as [Hp1 Hk1].
  2:{ apply Run_cost_resp; [apply clocks_agree_refl|..];
      intros x; apply reads_stable; reflexivity. }
  cbn [ticked glob] in Hp1, Hk1.
  unfold run_counters in Hk1. injection Hk1 as Hr1 Hrs1 Hb1 Hs1.
  unfold Run_finish in H.
  apply bind_Ok in H as ([] & m2 & H2 & H).
  destruct (Run_new_best_spec E Cost m1) as (m2' & H2' & Hp2 & Hv2).
  rewrite H2 in H2'. injection H2' as <-.
  apply bind_Ok in H as (old & m3 & H3 & H).
  apply Run_new_optimum_spec in H3 as (-> & Hp3 & Hv3).
  apply bind_Ok in H as ([] & m4 & H4 & H).
  apply Run_report_frame in H4 as [Hp4 Hv4].
  assert (Hv : Run (var (glob m4)) = Run (var (glob m)) /\
               Runs (var (glob m4)) = Runs (var (glob m)) /\
               BestCost (var (glob m4)) <= BestCost (var (glob m)) /\
               Seed (var (glob m4)) = Seed (var (glob m))).
  { rewrite Hv4, Hv3, <- Hr1, <- Hrs1, <- Hb1, <- Hs1.
    destruct (Cost <? Optimum (var (glob m2))); rewrite Hv2;
      destruct (Z.ltb_spec Cost (BestCost (var (glob m1)))); simpl; repeat split; lia. }
  destruct Hv as (Hr & Hrs & Hb & Hs).
  assert (Hp : par (glob m4) = par (glob m)) by congruence.
  destruct (stop_condition_cases (par (glob m4)) Cost (Optimum (var (glob m2)))) as [Hc|Hc].
  - rewrite (Run_next_Break E fuel _ _ _ Hc) in H. injection H as <- <-.
    cbn [with_var with_glob glob par var Run Runs BestCost Seed set_Runs].
    repeat split; auto.
  - apply (Run_next_Continue E _ _ _ _ _ _ Hc) in H as (-> & Hp5 & Hv5 & _).
    rewrite Hv5, Hp5. cbn [Run Runs BestCost Seed set_Seed].
    rewrite Hs. repeat split; auto.
Qed.

Lemma main_runs_vars fuel : forall m m',
  main_runs E fuel m = Ok tt m' ->
  let v := var (glob m) in
  let v' := var (glob m') in
  par (glob m') = par (glob m) /\
  BestCost v' <= BestCost v /\
  Run v <= Run v' /\
  Runs v' <= Runs v /\
  (Run v <= Runs v + 1 -> Run v' = Runs v' \/ Run v' = Runs v' + 1) /\
  Seed v' mod UINT_WIDTH = (Seed v + (Run v' - Run v)) mod UINT_WIDTH.
Proof.
  induction fuel as [|fuel IH]; intros m m' H; [discriminate|].
  cbn [main_runs] in H. revert H. unfold bind at 1, vars. cbv zeta.
  destruct (Z.leb_spec (Run (var (glob m))) (Runs (var (glob m)))) as [Hle|Hgt].
  - intros H. apply bind_Ok in H as (flow & m1 & H1 & H).
    apply Run_body_vars in H1 as (Hp1 & Hr1 & Hb1 & Hf).
    destruct flow.
    + destruct Hf as [Hrs1 Hs1].
      apply bind_Ok in H as ([] & m2 & H2 & H). unfold assign in H2. injection H2 as <-.
      apply IH in H as (Hp & Hb & Hr & Hrs & Hend & Hs). cbv zeta in *.
      set (m2 := with_var _ m1) in *.
      assert (Hp2 : par (glob m2) = par (glob m1)) by reflexivity.
      assert (Hb2 : BestCost (var (glob m2)) = BestCost (var (glob m1))) by reflexivity.
      assert (Hr2 : Run (var (glob m2)) = Run (var (glob m1)) + 1) by reflexivity.
      assert (Hrs2 : Runs (var (glob m2)) = Runs (var (glob m1))) by reflexivity.
      assert (Hs2 : Seed (var (glob m2)) = Seed (var (glob m1))) by reflexivity.
      split; [congruence|]. split; [lia|]. split; [lia|]. split; [lia|].
      split; [intros _; apply Hend; lia|].
      rewrite Hs, Hs2, Hs1, Hr2, Hr1.
      rewrite Zplus_mod_idemp_l. f_equal. lia.
    + destruct Hf as [Hrs1 Hs1]. unfold ret in H. injection H as <-.
      split; [exact Hp1|]. split; [exact Hb1|]. split; [lia|]. split; [lia|].
      split; [intros _; left; congruence|].
      rewrite Hs1, Hr1. f_equal. lia.
  - unfold ret. intros H. injection H as <-.
    split; [reflexivity|]. split; [lia|]. split; [lia|]. split; [lia|].
    split; [intros Hle; right; lia|]. f_equal. lia.
Qed.

(** The loop over the runs never increases [BestCost]: a run assigns it
    only when its cost is less (lines 103-104), and the search of the run
    does not assign it. *)
Theorem main_runs_BestCost fuel m m' :
  main_runs E fuel m = Ok tt m' ->
  BestCost (var (glob m')) <= BestCost (var (glob m)).
Proof. intros H. apply main_runs_vars in H as (_ & H & _). exact H. Qed.


(** [Seed] advances with [Run]: every run that is followed by another one
    increments both (lines 63 and 154), the run that leaves the loop
    increments neither, so at the end of the loop [Seed] has grown, modulo
    2^32, by as much as [Run]. *)
Theorem main_runs_Seed fuel m m' :
  main_runs E fuel m = Ok tt m' ->
  let v := var (glob m) in
  let v' := var (glob m') in
  Seed v' mod UINT_WIDTH = (Seed v + (Run v' - Run v)) mod UINT_WIDTH.
Proof. intros H. apply main_runs_vars in H as (_ & _ & _ & _ & _ & H). exact H. Qed.



End Runs.

(** ** What is logged

    A part [logs_only] the events of a class when it only appends such
    events to the log. *)

Section LogBasics.

Context {double Rest Stats : Type}.
Variable allowed : Trace.Event -> bool.
Local Abbreviation Mach := (Machine double Rest Stats).
Local Abbreviation L := (@logs_only double Rest Stats allowed _).
Implicit Types (m : Mach).

Lemma logs_silent {A} (c : M Mach A) :
  (forall m a m', c m = Ok a m' -> trace m' = trace m) -> L c.
Proof.
  intros H m a m' Hc. exists []. rewrite app_nil_r. split; [eauto|constructor].
Qed.

Lemma ret_logs {A} (a : A) : L (ret a).
Proof. apply logs_silent. intros m x m' H. now injection H as _ <-. Qed.

Lemma bind_logs_post {A B} (Q : A -> Prop) (c : M Mach A) (k : A -> M Mach B) :
  L c -> (forall m a m', c m = Ok a m' -> Q a) -> (forall a, Q a -> L (k a)) ->
  L (bind c k).
Proof.
  intros Hc HQ Hk m b m' H. apply bind_Ok in H as (a & m1 & H1 & H2).
  pose proof (HQ _ _ _ H1) as Ha.
  apply Hc in H1 as (n1 & Ht1 & Hf1). apply (Hk a Ha) in H2 as (n2 & Ht2 & Hf2).
  exists (n1 ++ n2). split.
  - rewrite Ht2, Ht1. now rewrite app_assoc.
  - apply Forall_app. auto.
Qed.

Lemma bind_logs {A B} (c : M Mach A) (k : A -> M Mach B) :
  L c -> (forall a, L (k a)) -> L (bind c k).
Proof. intros Hc Hk. apply (bind_logs_post (fun _ => True)); auto. Qed.

Lemma fault_logs {A} : L (@fault Mach A).
Proof. intros m a m' H. discriminate H. Qed.

Lemma out_of_fuel_logs {A} : L (@out_of_fuel Mach A).
Proof. intros m a m' H. discriminate H. Qed.

Lemma GetTime_logs : L GetTime.
Proof. apply logs_silent. intros m x m' H. now injection H as _ <-. Qed.

Lemma emit_logs e : allowed e = true -> L (emit e).
Proof.
  intros He m a m' H. injection H as _ <-. exists [e]. split; [reflexivity|].
  constructor; [exact He|constructor].
Qed.

Lemma globals_logs : L globals.
Proof. apply logs_silent. intros m x m' H. now injection H as _ <-. Qed.

Lemma params_logs : L params.
Proof. apply logs_silent. intros m x m' H. now injection H as _ <-. Qed.

Lemma vars_logs : L vars.
Proof. apply logs_silent. intros m x m' H. now injection H as _ <-. Qed.

Lemma work_logs : L work.
Proof. apply logs_silent. intros m x m' H. now injection H as _ <-. Qed.

Lemma assign_logs f : L (assign f).
Proof. apply logs_silent. intros m x m' H. now injection H as _ <-. Qed.

Lemma put_work_logs w : L (put_work w).
Proof. apply logs_silent. intros m x m' H. now injection H as _ <-. Qed.

Lemma call_logs r f : allowed (Trace.called r) = true -> L (call r f).
Proof.
  intros H. unfold call. apply bind_logs; [apply emit_logs; exact H|]. intros.
  apply bind_logs; [apply globals_logs|]. intros. apply put_work_logs.
Qed.

Lemma call_val_logs {A} r (f : _ -> A * _) :
  allowed (Trace.called r) = true -> L (call_val r f).
Proof.
  intros H. unfold call_val. apply bind_logs; [apply emit_logs; exact H|]. intros.
  apply bind_logs; [apply globals_logs|]. intros.
  apply bind_logs; [apply put_work_logs|]. intros. apply ret_logs.
Qed.

Lemma load_logs p : L (load p).
Proof.
  unfold load. apply bind_logs; [apply work_logs|]. intros w.
  destruct p as [i|]; [|apply fault_logs].
  destruct (NodeSet w !! i); [apply ret_logs|apply fault_logs].
Qed.

Lemma store_logs p f : L (store p f).
Proof.
  unfold store. apply bind_logs; [apply load_logs|]. intros n.
  apply bind_logs; [apply work_logs|]. intros w.
  destruct p; [apply put_work_logs|apply fault_logs].
Qed.

Lemma NodeSet_at_logs k : L (NodeSet_at k).
Proof. unfold NodeSet_at. destruct (k <? 0); [apply fault_logs|apply ret_logs]. Qed.

Lemma for_range_logs n : forall lo (body : Z -> M Mach unit),
  (forall i, L (body i)) -> L (for_range lo n body).
Proof.
  induction n; intros lo body Hb; simpl; [apply ret_logs|].
  apply bind_logs; [apply Hb|]. intros. apply IHn. exact Hb.
Qed.

Lemma ring_walk_logs fuel : forall (visit : NodePtr -> M Mach NodePtr) t,
  (forall t, L (visit t)) -> L (ring_walk fuel visit t).
Proof.
  induction fuel; intros visit t Hv; simpl; [apply out_of_fuel_logs|].
  apply bind_logs; [apply Hv|]. intros t'.
  apply bind_logs; [apply work_logs|]. intros w.
  destruct (ptr_eqb t' (FirstNode w)); [apply ret_logs|]. apply IHfuel. exact Hv.
Qed.

Lemma logs_weaken (stronger : Trace.Event -> bool) {A} (c : M Mach A) :
  (forall e, stronger e = true -> allowed e = true) ->
  logs_only stronger c -> L c.
Proof.
  intros Hs Hc m a m' H. apply Hc in H as (new & Ht & Hf). exists new. split; [exact Ht|].
  eapply Forall_impl; [exact Hf|]. exact Hs.
Qed.

End LogBasics.

Create HintDb logs.

Ltac logs :=
  cbv zeta;
  match goal with
  | |- logs_only _ (bind _ _) => apply bind_logs; [ logs | intros; logs ]
  | |- logs_only _ (ret _) => apply ret_logs
  | |- logs_only _ fault => apply fault_logs
  | |- logs_only _ out_of_fuel => apply out_of_fuel_logs
  | |- logs_only _ GetTime => apply GetTime_logs
  | |- logs_only _ globals => apply globals_logs
  | |- logs_only _ params => apply params_logs
  | |- logs_only _ vars => apply vars_logs
  | |- logs_only _ work => apply work_logs
  | |- logs_only _ (assign _) => apply assign_logs
  | |- logs_only _ (put_work _) => apply put_work_logs
  | |- logs_only _ (load _) => apply load_logs
  | |- logs_only _ (store _ _) => apply store_logs
  | |- logs_only _ (NodeSet_at _) => apply NodeSet_at_logs
  | |- logs_only _ (emit _) => apply emit_logs; reflexivity
  | |- logs_only _ (printff _) => apply emit_logs; reflexivity
  | |- logs_only _ (call_out _) => apply emit_logs; reflexivity
  | |- logs_only _ (call _ _) => apply call_logs; reflexivity
  | |- logs_only _ (call_val _ _) => apply call_val_logs; reflexivity
  | |- logs_only _ (ring_walk _ _ _) => apply ring_walk_logs; intros; logs
  | |- logs_only _ (for_range _ _ _) => apply for_range_logs; intros; logs
  | |- logs_only _ (if ?b then _ else _) => destruct b; logs
  | |- logs_only _ (match ?x with _ => _ end) => destruct x; logs
  | |- _ => solve [eauto with logs]
  | |- _ => idtac
  end.

Section FindTourLogs.

Context {double Rest Stats : Type} (E : Externals double Rest Stats).
Local Abbreviation Mach := (Machine double Rest Stats).
Local Abbreviation L := (@logs_only double Rest Stats FindTour_event _).

Lemma SwapCandidateSets_logs fuel : L (SwapCandidateSets fuel).
Proof. unfold SwapCandidateSets. logs. Qed.
#[local] Hint Resolve SwapCandidateSets_logs : logs.

Lemma FindTour_clear_logs fuel : L (FindTour_clear fuel).
Proof. unfold FindTour_clear. logs. Qed.
#[local] Hint Resolve FindTour_clear_logs : logs.

Lemma reduced_cost_logs i j : L (reduced_cost E i j).
Proof. unfold reduced_cost. logs. Qed.
#[local] Hint Resolve reduced_cost_logs : logs.

Lemma FindTour_OrdinalTourCost_logs : L (FindTour_OrdinalTourCost E).
Proof. unfold FindTour_OrdinalTourCost, add_OrdinalTourCost. logs. Qed.
#[local] Hint Resolve FindTour_OrdinalTourCost_logs : logs.

Lemma FindTour_entry_logs fuel : L (FindTour_entry E fuel).
Proof. unfold FindTour_entry. logs. Qed.
#[local] Hint Resolve FindTour_entry_logs : logs.

Lemma advance_FirstNode_logs i : L (advance_FirstNode i).
Proof. induction i; simpl; logs. Qed.
#[local] Hint Resolve advance_FirstNode_logs : logs.

Lemma Trial_start_logs : L (Trial_start E).
Proof. unfold Trial_start. logs. Qed.
#[local] Hint Resolve Trial_start_logs : logs.

Lemma Trial_merge_better_logs fuel c : L (Trial_merge_better E fuel c).
Proof. unfold Trial_merge_better. logs. Qed.
#[local] Hint Resolve Trial_merge_better_logs : logs.

Lemma Trial_merge_ordinal_logs c : L (Trial_merge_ordinal E c).
Proof. unfold Trial_merge_ordinal. logs. Qed.
#[local] Hint Resolve Trial_merge_ordinal_logs : logs.

Lemma Trial_record_logs c : L (Trial_record E c).
Proof. unfold Trial_record, print_gap. logs. Qed.
#[local] Hint Resolve Trial_record_logs : logs.

Lemma Trial_backbone_logs fuel : L (Trial_backbone E fuel).
Proof. unfold Trial_backbone. logs. Qed.
#[local] Hint Resolve Trial_backbone_logs : logs.

Lemma Trial_body_logs fuel : L (Trial_body E fuel).
Proof. unfold Trial_body. logs. Qed.
#[local] Hint Resolve Trial_body_logs : logs.

Lemma FindTour_trial_logs fuel (t : double) : L (FindTour_trial E fuel t).
Proof. unfold FindTour_trial. logs. Qed.
#[local] Hint Resolve FindTour_trial_logs : logs.

Lemma FindTour_trials_logs fuel (t : double) : L (FindTour_trials E fuel t).
Proof. induction fuel; simpl; logs. Qed.
#[local] Hint Resolve FindTour_trials_logs : logs.

Lemma FindTour_backbone_end_logs fuel : L (FindTour_backbone_end fuel).
Proof. unfold FindTour_backbone_end. logs. Qed.
#[local] Hint Resolve FindTour_backbone_end_logs : logs.

Lemma FindTour_exit_logs fuel : L (FindTour_exit E fuel).
Proof. unfold FindTour_exit, adopt_Suc, commit_BestSuc. logs. Qed.
#[local] Hint Resolve FindTour_exit_logs : logs.

Lemma FindTour_logs fuel : L (FindTour E fuel).
Proof. unfold FindTour. logs. Qed.

End FindTourLogs.

(** ** What [FindTour] calls *)

Section Recorded.

Context {double Rest Stats : Type} (E : Externals double Rest Stats).
Local Abbreviation Mach := (Machine double Rest Stats).
Implicit Types (m : Mach) (ns : list Node).

(** What [FindTour] prints and calls, and what it does not: whenever it
    returns, the log has only grown, by lines of FindTour.c and calls of
    [HashInitialize], [HashInsert], [ChooseInitialTour], [Random],
    [LinKernighan], [MergeWithTour], [RecordBetterTour],
    [AdjustCandidateSet], [ResetCandidateSet], [CandidateReport] and
    [WriteTour] of the better tour to the output file.  In particular it
    never records or writes the best tour, never writes to the tour file,
    never reseeds the generator and never touches the statistics or the
    population. *)
Theorem FindTour_events fuel m c m' :
  FindTour E fuel m = Ok c m' ->
  exists new,
    trace m' = trace m ++ new /\
    Forall (fun e => FindTour_event e = true) new /\
    ~ In (Trace.called Trace.RecordBestTour) new /\
    (forall t cost, ~ In (Trace.called (Trace.WriteTour Trace.TourFileName t cost)) new) /\
    (forall cost, ~ In (Trace.called (Trace.WriteTour Trace.OutputTourFileName
                                        Trace.BestTour cost)) new) /\
    (forall s, ~ In (Trace.called (Trace.SRandom s)) new).
Proof.
  intros H. apply FindTour_logs in H as (new & Ht & Hf).
  exists new. split; [exact Ht|]. split; [exact Hf|].
  rewrite List.Forall_forall in Hf.
  repeat split; repeat intro;
    match goal with Hin : In _ new |- _ => apply Hf in Hin; discriminate Hin end.
Qed.

Lemma recorded_refl m : recorded m m.
Proof. exists []. rewrite app_nil_r. auto. Qed.

Lemma recorded_trans m1 m2 m3 : recorded m1 m2 -> recorded m2 m3 -> recorded m1 m3.
Proof.
  intros (n1 & Ht1 & H1) (n2 & Ht2 & H2). exists (n1 ++ n2). split.
  - rewrite Ht2, Ht1. now rewrite app_assoc.
  - rewrite in_app_iff. destruct H1 as [H1|H1], H2 as [H2|H2]; auto. left. congruence.
Qed.

Lemma recorded_frame {A} (c : M Mach A) m a m' :
  logs_only FindTour_event c ->
  respects (clock m) (clock m) (TimeLimit (par (glob m)))
    (fixed (par (glob m)) (var (glob m))) eq c c ->
  c m = Ok a m' -> recorded m m'.
Proof.
  intros Hl Hr Hc. destruct (Hl _ _ _ Hc) as (new & Ht & _).
  apply keeps_vars in Hc as [_ Hv]; [|exact Hr].
  exists new. split; [exact Ht|]. left. now rewrite Hv.
Qed.

Lemma Trial_record_recorded Cost m flow m' :
  Trial_record E Cost m = Ok flow m' -> recorded m m'.
Proof.
  unfold Trial_record, recorded. run.
  destruct (Cost <? BetterCost (var (glob m))).
  - destruct (TraceLevel (par (glob m)) >=? 1); run;
      [destruct (gap_wanted (var (glob m))); run|];
      (destruct ((Dimension (par (glob m)) =? DimensionSaved (par (glob m)))
                 && (Cost <? BestCost (var (glob m)))); run;
       destruct (truthy (StopAtOptimum (par (glob m))) && (Cost =? Optimum (var (glob m))));
       run; intros H; injection H as <- <-; simpl;
       eexists; (split; [rewrite <- ?app_assoc; simpl; reflexivity|]);
       right; simpl; auto 12).
  - destruct (TraceLevel (par (glob m)) >=? 2); run;
      intros H; injection H as <- <-; simpl.
    + eexists. split; [reflexivity|]. auto.
    + exists []. rewrite app_nil_r. auto.
Qed.

Lemma Trial_body_recorded fuel m flow m' :
  Trial_body E fuel m = Ok flow m' -> recorded m m'.
Proof.
  unfold Trial_body. intros H.
  apply bind_Ok in H as ([] & m1 & H1 & H).
  apply recorded_frame in H1; [|apply Trial_start_logs|apply Trial_start_resp].
  apply bind_Ok in H as (c2 & m2 & H2 & H).
  apply recorded_frame in H2; [|apply call_val_logs; reflexivity|apply call_val_resp].
  apply bind_Ok in H as (c3 & m3 & H3 & H).
  apply recorded_frame in H3;
    [|apply Trial_merge_better_logs|apply Trial_merge_better_resp].
  apply bind_Ok in H as (c4 & m4 & H4 & H).
  apply recorded_frame in H4;
    [|apply Trial_merge_ordinal_logs|apply Trial_merge_ordinal_resp].
  apply bind_Ok in H as (fl & m5 & H5 & H).
  apply Trial_record_recorded in H5.
  assert (Hr : recorded m m5) by eauto using recorded_trans.
  destruct fl.
  - apply bind_Ok in H as ([] & m6 & H6 & H).
    apply recorded_frame in H6; [|apply Trial_backbone_logs|apply Trial_backbone_resp].
    unfold ret in H. injection H as <- <-. eauto using recorded_trans.
  - unfold ret in H. injection H as <- <-. exact Hr.
Qed.

Lemma FindTour_trial_recorded fuel (t : double) m flow m' :
  FindTour_trial E fuel t m = Ok flow m' -> recorded m m'.
Proof.
  unfold FindTour_trial. intros H.
  apply bind_Ok in H as (p & m0 & H0 & H). unfold params in H0. injection H0 as <- <-.
  apply bind_Ok in H as (now & m1 & H1 & H). unfold GetTime in H1. injection H1 as <- <-.
  destruct (dge E _ _).
  - revert H. destruct (TraceLevel (par (glob m)) >=? 1); run;
      intros H; injection H as <- <-; unfold recorded; simpl.
    + eexists. split; [reflexivity|]. auto.
    + exists []. rewrite app_nil_r. auto.
  - apply Trial_body_recorded in H. exact H.
Qed.

Lemma FindTour_trials_recorded fuel (t : double) : forall m m',
  FindTour_trials E fuel t m = Ok tt m' -> recorded m m'.
Proof.
  induction fuel as [|fuel IH]; intros m m' H; [discriminate|].
  cbn [FindTour_trials] in H. revert H. unfold bind at 1, params. unfold bind at 1, vars.
  destruct (Trial (var (glob m)) <=? MaxTrials (par (glob m))).
  - intros H. apply bind_Ok in H as (flow & m1 & H1 & H).
    apply FindTour_trial_recorded in H1.
    destruct flow.
    + apply bind_Ok in H as ([] & m2 & H2 & H). unfold assign in H2. injection H2 as <-.
      apply IH in H. eapply recorded_trans; [exact H1|]. exact H.
    + unfold ret in H. injection H as <-. exact H1.
  - unfold ret. intros H. injection H as <-. apply recorded_refl.
Qed.

(** A cost below PLUS_INFINITY returned by [FindTour] is the cost of a tour
    recorded during this call: [RecordBetterTour] has been called since the
    entry. *)
Theorem FindTour_finite_recorded fuel m c m' :
  FindTour E fuel m = Ok c m' ->
  c < PLUS_INFINITY ->
  In (Trace.called Trace.RecordBetterTour) (new_events m m').
Proof.
  intros H Hc.
  apply FindTour_parts in H as (t & m1 & m2 & m3 & H1 & H2 & H3 & H4).
  destruct (FindTour_entry_logs E fuel _ _ _ H1) as (n1 & Ht1 & _).
  apply FindTour_entry_vars in H1 as (_ & Hb1 & _).
  apply FindTour_trials_recorded in H2 as (n2 & Ht2 & Hr2).
  destruct (FindTour_backbone_end_logs fuel _ _ _ H3) as (n3 & Ht3 & _).
  apply keeps_vars in H3 as [_ Hv3]; [|apply FindTour_backbone_end_resp].
  destruct (FindTour_exit_logs E fuel _ _ _ H4) as (n4 & Ht4 & _).
  apply FindTour_exit_vars in H4 as (_ & Hc4 & _).
  unfold new_events. rewrite Ht4, Ht3, Ht2. cbn [with_var with_glob trace]. rewrite Ht1.
  rewrite <- !app_assoc, drop_app_length. rewrite !in_app_iff.
  destruct Hr2 as [Hr2|Hr2]; [|auto].
  exfalso. rewrite Hv3, Hr2 in Hc4. cbn [with_var with_glob glob var BetterCost set_Trial] in Hc4.
  lia.
Qed.

End Recorded.

(** ** The crossover *)

Section Crossover.

Context {double Rest Stats : Type} (E : Externals double Rest Stats).
Local Abbreviation Mach := (Machine double Rest Stats).
Local Abbreviation L := (@logs_only double Rest Stats crossover_event _).
Implicit Types (m : Mach).

Lemma select_Parent2_differs fuel : forall Parent1 m Parent2 m',
  select_Parent2 E fuel Parent1 m = Ok Parent2 m' -> Parent2 <> Parent1.
Proof.
  induction fuel as [|fuel IH]; intros Parent1 m Parent2 m' H; [discriminate|].
  cbn [select_Parent2] in H.
  apply bind_Ok in H as (w & m0 & H0 & H).
  apply bind_Ok in H as (P2 & m1 & H1 & H).
  destruct (Z.eqb_spec P2 Parent1) as [Heq|Hne].
  - apply IH in H. exact H.
  - unfold ret in H. injection H as <- <-. exact Hne.
Qed.

Lemma select_Parent2_crossover fuel : forall Parent1, L (select_Parent2 E fuel Parent1).
Proof. induction fuel; intros Parent1; simpl; logs. Qed.

Lemma adopt_child_edge_crossover N : L (adopt_child_edge E N).
Proof. unfold adopt_child_edge. logs. Qed.

Lemma Run_crossover_logs fuel : L (Run_crossover E fuel).
Proof.
  unfold Run_crossover.
  apply bind_logs; [logs|]. intros p.
  apply bind_logs; [logs|]. intros v.
  apply bind_logs; [logs|]. intros w.
  destruct (_ && _); [|logs].
  apply bind_logs; [logs|]. intros Parent1.
  apply (bind_logs_post _ (fun Parent2 => Parent2 <> Parent1)).
  - apply select_Parent2_crossover.
  - intros m a m' H. eapply select_Parent2_differs. exact H.
  - intros Parent2 Hne. apply bind_logs.
    + apply call_logs. simpl. now destruct (Z.eqb_spec Parent2 Parent1).
    + intros _. apply bind_logs; [logs|]. intros w'.
      apply bind_logs; [|intros; logs].
      apply ring_walk_logs. intros. apply adopt_child_edge_crossover.
Qed.

(** The crossover of lines 133-153 of [main]: whenever it completes, it has
    only called [LinearSelection], [ApplyCrossover] and [AddCandidate], and
    [ApplyCrossover] only with two different parents: the loop of lines
    139-141 selects again until the second parent differs from the first.
    The parameters and the variables are unchanged. *)
Theorem Run_crossover_parents fuel m m' :
  Run_crossover E fuel m = Ok tt m' ->
  exists new,
    trace m' = trace m ++ new /\
    Forall (fun e => crossover_event e = true) new /\
    (forall Parent1 Parent2,
       In (Trace.called (Trace.ApplyCrossover Parent1 Parent2)) new -> Parent2 <> Parent1) /\
    par (glob m') = par (glob m) /\ var (glob m') = var (glob m).
Proof.
  intros H. destruct (Run_crossover_logs fuel _ _ _ H) as (new & Ht & Hf).
  apply Run_crossover_frame in H as [Hp Hv].
  exists new. repeat split; auto.
  intros P1 P2 Hin. rewrite List.Forall_forall in Hf. apply Hf in Hin. simpl in Hin.
  now destruct (Z.eqb_spec P2 P1).
Qed.

End Crossover.

(** ** The statistics *)

Section Statistics.

Context {double Rest Stats : Type} (E : Externals double Rest Stats).
Local Abbreviation Mach := (Machine double Rest Stats).
Local Abbreviation L := (@logs_only double Rest Stats no_statistics _).
Implicit Types (m : Mach).

Lemma FindTour_event_no_statistics e : FindTour_event e = true -> no_statistics e = true.
Proof.
  destruct e as [msg|r]; [reflexivity|].
  destruct r; unfold no_statistics; simpl; intros H; try reflexivity; discriminate H.
Qed.

Lemma FindTour_quiet fuel : L (FindTour E fuel).
Proof.
  apply (logs_weaken _ FindTour_event); [apply FindTour_event_no_statistics|].
  apply FindTour_logs.
Qed.
#[local] Hint Resolve FindTour_quiet : logs.

Lemma merge_with_population_quiet fuel : forall i c, L (merge_with_population E fuel i c).
Proof. induction fuel; intros i c; simpl; unfold print_gap; logs. Qed.
#[local] Hint Resolve merge_with_population_quiet : logs.

Lemma update_population_quiet c : L (update_population E c).
Proof. unfold update_population, Fitness_at. logs. Qed.
#[local] Hint Resolve update_population_quiet : logs.












End Statistics.

(** ** The population *)

Section Population.

Context {double Rest Stats : Type} (E : Externals double Rest Stats).
Local Abbreviation Mach := (Machine double Rest Stats).
Implicit Types (m : Mach).

Lemma merged_individuals_app l1 l2 :
  merged_individuals (l1 ++ l2) = merged_individuals l1 ++ merged_individuals l2.
Proof. unfold merged_individuals. apply flat_map_app. Qed.

(** The loop of lines 77-88 of [main]: the tour is merged with the
    individuals i, i + 1, i + 2, ... in this order, each once, until the
    index reaches [PopulationSize]; nothing else is called, and the
    parameters and variables are unchanged. *)
Theorem merge_with_population_order fuel : forall i Cost m c m',
  merge_with_population E fuel i Cost m = Ok c m' ->
  exists (k : nat) new,
    trace m' = trace m ++ new /\
    merged_individuals new = map (fun j => i + Z.of_nat j) (seq 0 k) /\
    Forall (fun e => merge_event e = true) new /\
    PopulationSize (wk (glob m')) <= i + Z.of_nat k /\
    par (glob m') = par (glob m) /\ var (glob m') = var (glob m).
Proof.
  induction fuel as [|fuel IH]; intros i Cost m c m' H; [discriminate|].
  cbn [merge_with_population] in H. revert H.
  unfold bind at 1, params. unfold bind at 1, work.
  destruct (Z.ltb_spec i (PopulationSize (wk (glob m)))) as [Hlt|Hge].
  - cbv zeta. intros H. apply bind_Ok in H as (c1 & m1 & H1 & H).
    unfold call_val in H1. revert H1. run. intros H1. injection H1 as <- <-.
    apply bind_Ok in H as ([] & m2 & H2 & H).
    assert (Hm2 : exists n2, trace m2 = trace m ++ Trace.called (Trace.MergeTourWithIndividual i) :: n2 /\
              merged_individuals n2 = [] /\
              Forall (fun e => merge_event e = true) n2 /\
              par (glob m2) = par (glob m) /\ var (glob m2) = var (glob m)).
    { revert H2. destruct (_ && _); run; run;
        [match goal with |- context [gap_wanted ?v] => destruct (gap_wanted v) end; run|];
        intros H2; injection H2 as <-; simpl;
        (eexists; split; [rewrite <- ?app_assoc; simpl; reflexivity|]);
        (split; [reflexivity|]); (split; [repeat constructor|]); split; reflexivity. }
    destruct Hm2 as (n2 & Ht2 & Hmi2 & Hf2 & Hp2 & Hv2).
    apply IH in H as (k & new & Ht & Hmi & Hf & Hps & Hp & Hv).
    exists (S k), (Trace.called (Trace.MergeTourWithIndividual i) :: n2 ++ new).
    split; [|split; [|split; [|split; [|split]]]].
    + rewrite Ht, Ht2. rewrite <- app_assoc. reflexivity.
    + change (Trace.called (Trace.MergeTourWithIndividual i) :: n2 ++ new)
        with ([Trace.called (Trace.MergeTourWithIndividual i)] ++ n2 ++ new).
      rewrite !merged_individuals_app, Hmi2, Hmi. cbn [seq map app merged_individuals flat_map].
      rewrite Z.add_0_r. f_equal. rewrite <- seq_shift, map_map.
      apply map_ext. intros j. lia.
    + constructor; [reflexivity|]. apply Forall_app. auto.
    + lia.
    + congruence.
    + congruence.
  - unfold ret. intros H. injection H as <- <-. exists 0%nat, [].
    rewrite app_nil_r. repeat split; auto. simpl. lia.
Qed.

End Population.

(** ** The cost of the tour 1, 2, ..., Dimension *)

Lemma sum_snoc l x : foldr Z.add 0 (l ++ [x]) = foldr Z.add 0 l + x.
Proof. induction l as [|y l IH]; simpl; [lia|]. rewrite IH. lia. Qed.

Lemma sum_bound B l :
  Forall (fun x => - B <= x <= B) l ->
  - (Z.of_nat (length l) * B) <= foldr Z.add 0 l <= Z.of_nat (length l) * B.
Proof.
  induction 1 as [|x l Hx _ IH]; [simpl; lia|].
  cbn [foldr length]. rewrite Nat2Z.inj_succ. lia.
Qed.

Lemma wrap_int_sub_l x y : wrap_int (wrap_int x - y) = wrap_int (x - y).
Proof.
  unfold wrap_int. f_equal.
  replace ((x + 2 ^ 31) mod 2 ^ 32 - 2 ^ 31 - y + 2 ^ 31)
    with ((x + 2 ^ 31) mod 2 ^ 32 - y) by lia.
  rewrite Zminus_mod_idemp_l. f_equal. lia.
Qed.

Lemma wrap_int_range z : - 2 ^ 31 <= wrap_int z <= INT_MAX.
Proof.
  unfold wrap_int, INT_MAX.
  pose proof (Z.mod_pos_bound (z + 2 ^ 31) (2 ^ 32) ltac:(lia)). lia.
Qed.

Lemma wrap_int_small z : - 2 ^ 31 <= z <= INT_MAX -> wrap_int z = z.
Proof.
  unfold wrap_int, INT_MAX. intros H. rewrite Z.mod_small by lia. lia.
Qed.

Section Ordinal.

Context {double Rest Stats : Type} (E : Externals double Rest Stats).
Local Abbreviation Mach := (Machine double Rest Stats).
Implicit Types (m : Mach) (ns : list Node).

Variable g0 : Globals double Rest.
Local Abbreviation G := (fun c => mkGlobals (par g0) (set_OrdinalTourCost c (var g0)) (wk g0)).
Hypothesis C_static : forall c a b, C E (G c) a b = C E g0 a b.

Lemma reduced_cost_value (i j : Z) m c :
  glob m = G c ->
  0 <= i < Z.of_nat (length (NodeSet (wk g0))) ->
  0 <= j < Z.of_nat (length (NodeSet (wk g0))) ->
  reduced_cost E i j m = Ok (reduced E g0 (Z.to_nat i) (Z.to_nat j)) m.
Proof.
  intros Hg Hi Hj.
  destruct (lookup_in_range _ _ Hi) as [na Ha].
  destruct (lookup_in_range _ _ Hj) as [nb Hb].
  unfold reduced_cost. unfold bind at 1. rewrite NodeSet_at_ok by lia.
  unfold bind at 1. rewrite NodeSet_at_ok by lia.
  unfold bind at 1, globals. unfold bind at 1.
  rewrite (load_Some _ na) by (unfold nodes_of; rewrite Hg; exact Ha).
  unfold bind at 1.
  rewrite (load_Some _ nb) by (unfold nodes_of; rewrite Hg; exact Hb).
  unfold ret, reduced, Pi_at. rewrite Ha, Hb. cbn [from_option].
  rewrite Hg, C_static. now rewrite wrap_int_sub_l.
Qed.

Lemma ordinal_loop_value n : forall lo m c,
  glob m = G c ->
  0 <= lo -> lo + Z.of_nat n < Z.of_nat (length (NodeSet (wk g0))) ->
  for_range lo n
    (fun i => let* d := reduced_cost E i (i + 1) in add_OrdinalTourCost d) m =
  Ok tt (with_glob
           (G (c + foldr Z.add 0 (map (fun i => reduced E g0 i (S i)) (seq (Z.to_nat lo) n))))
           m).
Proof.
  induction n as [|n IH]; intros lo m c Hg Hlo Hlen.
  - simpl. unfold ret. rewrite Z.add_0_r, <- Hg. destruct m. reflexivity.
  - cbn [for_range seq map foldr]. unfold bind at 1. unfold bind at 1.
    rewrite (reduced_cost_value _ _ _ c) by (auto; lia).
    rewrite add_OrdinalTourCost_ok.
    rewrite (IH _ _ (c + reduced E g0 (Z.to_nat lo) (S (Z.to_nat lo)))).
    + replace (Z.to_nat (lo + 1)) with (S (Z.to_nat lo)) by lia.
      rewrite Z.add_assoc. reflexivity.
    + unfold with_var, with_glob. cbn [glob]. rewrite Hg. cbn.
      replace (Z.to_nat (lo + 1)) with (S (Z.to_nat lo)) by lia. reflexivity.
    + lia.
    + lia.
Qed.

Lemma FindTour_OrdinalTourCost_at m :
  glob m = g0 ->
  1 <= Dimension (par g0) < Z.of_nat (length (NodeSet (wk g0))) ->
  FindTour_OrdinalTourCost E m =
    if Precision (par g0) =? 0 then Fault
    else Ok tt (with_var (set_OrdinalTourCost (ordinal_tour_cost E g0) (var g0)) m).
Proof.
  intros Hg HD. unfold FindTour_OrdinalTourCost.
  unfold bind at 1, params. unfold bind at 1, assign.
  unfold bind at 1. rewrite Hg.
  rewrite (ordinal_loop_value _ _ _ 0)
    by first [unfold with_var, with_glob; cbn [glob]; rewrite Hg; reflexivity | simpl; lia].
  unfold bind at 1.
  erewrite reduced_cost_value; [|reflexivity|lia|lia].
  unfold bind at 1. rewrite add_OrdinalTourCost_ok.
  destruct (Precision (par g0) =? 0); [reflexivity|].
  unfold assign, ordinal_tour_cost, ordinal_terms. rewrite sum_snoc. cbn.
  replace (Z.to_nat (Dimension (par g0) - 1)) with (Z.to_nat (Dimension (par g0)) - 1)%nat
    by lia.
  unfold with_var, with_glob. cbn [glob par var wk stats clock ticks trace]. rewrite Hg.
  rewrite Z.add_0_l. reflexivity.
Qed.

Lemma ordinal_terms_int : Forall (fun x => - 2 ^ 31 <= x <= INT_MAX) (ordinal_terms E g0).
Proof.
  unfold ordinal_terms. apply Forall_app. split.
  - apply Forall_map. apply Forall_forall. intros i _. apply wrap_int_range.
  - constructor; [apply wrap_int_range|constructor].
Qed.

Lemma ordinal_sums_fit k :
  1 <= Dimension (par g0) <= INT_MAX ->
  MINUS_INFINITY <= foldr Z.add 0 (take k (ordinal_terms E g0)) <= PLUS_INFINITY.
Proof.
  intros HD.
  pose proof (sum_bound (2 ^ 31) (take k (ordinal_terms E g0))) as H.
  assert (Hlen : Z.of_nat (length (take k (ordinal_terms E g0))) <= Dimension (par g0)).
  { rewrite length_take. unfold ordinal_terms.
    rewrite length_app, length_map, length_seq. simpl. lia. }
  destruct H as [H1 H2].
  { apply Forall_take. eapply Forall_impl; [apply ordinal_terms_int|].
    unfold INT_MAX. simpl. intros x Hx. lia. }
  unfold MINUS_INFINITY, PLUS_INFINITY, INT_MAX in *. nia.
Qed.

End Ordinal.

Section OrdinalCost.

Context {double Rest Stats : Type} (E : Externals double Rest Stats).
Local Abbreviation Mach := (Machine double Rest Stats).
Implicit Types (m : Mach) (ns : list Node).

(** Lines 44-53 of [FindTour]: with the nodes 1 to [Dimension] in the node
    array and a cost function that does not read [OrdinalTourCost] (a
    static variable of FindTour.c), [OrdinalTourCost] becomes the sum of the
    reduced costs C(i, i+1) - Pi(i) - Pi(i+1) along the tour
    1, 2, ..., Dimension, 1, divided by [Precision] with truncation toward
    zero; nothing else changes.  With [Precision] 0 the division is by
    zero.  Each reduced cost is an [int], computed with the wrap-around of
    [int]; the sum is accumulated in a [long long], and as long as
    [Dimension] is an [int] no partial sum leaves the range of
    [long long]. *)
Theorem FindTour_OrdinalTourCost_value m :
  let g := glob m in
  1 <= Dimension (par g) < Z.of_nat (length (nodes_of m)) ->
  (forall c a b,
     C E (mkGlobals (par g) (set_OrdinalTourCost c (var g)) (wk g)) a b = C E g a b) ->
  FindTour_OrdinalTourCost E m =
    (if Precision (par g) =? 0 then Fault
     else Ok tt (with_var (set_OrdinalTourCost (ordinal_tour_cost E g) (var g)) m)) /\
  Forall (fun x => - 2 ^ 31 <= x <= INT_MAX) (ordinal_terms E g) /\
  (Dimension (par g) <= INT_MAX ->
   forall k, MINUS_INFINITY <= foldr Z.add 0 (take k (ordinal_terms E g)) <= PLUS_INFINITY).
Proof.
  intros g HD HC. split; [|split].
  - apply (FindTour_OrdinalTourCost_at E g HC m); [reflexivity|exact HD].
  - apply ordinal_terms_int.
  - intros Hint k. apply ordinal_sums_fit. lia.
Qed.

End OrdinalCost.

(** ** The further properties on the small instances *)

Lemma SwapCandidateSets_exchanges_witness :
  let m := Toy.machine0 (Toy.params0 2 0 1 0 1000) (Toy.vars0 2 MINUS_INFINITY) in
  ring Suc (nodes_of m) (FirstNode (wk (glob m))) [1%nat; 2%nat; 3%nat] /\
  exists ns',
    SwapCandidateSets 3 m =
      Ok tt (with_NodeSet ns' (logged (Trace.printed Trace.SwapBanner) m)) /\
    forall a n, a ∈ [1%nat; 2%nat; 3%nat] -> nodes_of m !! a = Some n ->
      exists n', ns' !! a = Some n' /\ CandidateSet n' = BackboneCandidateSet n /\
                 BackboneCandidateSet n' = CandidateSet n.
Proof.
  intros m. split; [exact ring_nodes|].
  destruct (SwapCandidateSets_exchanges 3 m [1%nat; 2%nat; 3%nat]) as (ns' & H1 & H2 & _).
  - exact ring_nodes.
  - simpl. lia.
  - exists ns'. split; [exact H1|]. intros a n Ha Hn.
    destruct (H2 a n Ha Hn) as (n' & Hn' & Hc & Hb & _). eauto.
Defined.


Lemma FindTour_clear_links_witness :
  let m := Toy.with_nodes (map Toy.record_better Toy.nodes)
             (Toy.machine0 (Toy.params0 2 0 1 0 1000) (Toy.vars0 2 MINUS_INFINITY)) in
  ring Suc (nodes_of m) (FirstNode (wk (glob m))) [1%nat; 2%nat; 3%nat] /\
  exists ns',
    FindTour_clear 3 m = Ok tt (with_NodeSet ns' m) /\
    forall a n, a ∈ [1%nat; 2%nat; 3%nat] -> nodes_of m !! a = Some n ->
      exists n', ns' !! a = Some n' /\ BestSuc n' = None.
Proof.
  intros m.
  assert (Hr : ring Suc (nodes_of m) (FirstNode (wk (glob m))) [1%nat; 2%nat; 3%nat]).
  { split; [reflexivity|]. split.
    - apply NoDup_ListNoDup. repeat constructor; simpl; intuition discriminate.
    - simpl. repeat split; eexists; split; reflexivity. }
  split; [exact Hr|].
  destruct (FindTour_clear_links 3 m [1%nat; 2%nat; 3%nat]) as (ns' & H1 & H2 & _).
  - exact Hr.
  - simpl. lia.
  - exists ns'. split; [exact H1|]. intros a n Ha Hn.
    destruct (H2 a n Ha Hn) as (n' & Hn' & _ & _ & _ & Hb & _). eauto.
Defined.

Lemma Trial_merge_better_spec_witness :
  let m := Toy.with_nodes (map Toy.record_better Toy.nodes)
             (Toy.machine0 (Toy.params0 2 0 1 0 1000) (Toy.vars0 2 MINUS_INFINITY)) in
  ring BestSuc (nodes_of m) (FirstNode (wk (glob m))) [1%nat; 2%nat; 3%nat] /\
  exists ns',
    Trial_merge_better Toy.E97 3 9 m =
      call_val Trace.MergeWithTour (MergeWithTour Toy.E97) (with_NodeSet ns' m) /\
    forall a n, a ∈ [1%nat; 2%nat; 3%nat] -> nodes_of m !! a = Some n ->
      ns' !! a = Some (set_Next (BestSuc n) n).
Proof.
  intros m. split; [exact ring_recorded|].
  pose proof (Trial_merge_better_spec Toy.E97 3 9 m 1%nat
                (Toy.record_better (Toy.node 3 2)) [1%nat; 2%nat; 3%nat]
                eq_refl eq_refl) as H.
  destruct H as (ns' & H1 & H2 & _).
  - intros _. split; [exact ring_recorded|]. simpl. lia.
  - exists ns'. auto.
Defined.

Lemma FindTour_backbone_end_frees_witness :
  let m := Toy.machine0 ToyGA.params_backbone
             (mkVars None 0 1 1 2 9 PLUS_INFINITY MINUS_INFINITY 12 1) in
  0 < BackboneTrials (par (glob m)) < MaxTrials (par (glob m)) /\
  ring Suc (nodes_of m) (FirstNode (wk (glob m))) [1%nat; 2%nat; 3%nat] /\
  exists ns',
    FindTour_backbone_end 3 m =
      Ok tt (with_NodeSet ns' (logged (Trace.printed Trace.SwapBanner) m)) /\
    forall a n, a ∈ [1%nat; 2%nat; 3%nat] -> nodes_of m !! a = Some n ->
      ns' !! a = Some (set_BackboneCandidateSet None (swap_sets n)).
Proof.
  intros m.
  assert (Hb : 0 < BackboneTrials (par (glob m)) < MaxTrials (par (glob m))).
  { simpl. lia. }
  split; [exact Hb|]. split; [exact ring_nodes|].
  destruct (FindTour_backbone_end_frees 3 m [1%nat; 2%nat; 3%nat]) as (_ & H).
  destruct (H Hb ring_nodes) as (ns' & H1 & H2 & _).
  - simpl. lia.
  - exists ns'. split; [exact H1|exact H2].
Defined.

Lemma advance_FirstNode_ring_witness :
  let m := Toy.machine0 (Toy.params0 2 0 1 0 1000) (Toy.vars0 2 MINUS_INFINITY) in
  ring Suc (nodes_of m) (FirstNode (wk (glob m))) [1%nat; 2%nat; 3%nat] /\
  advance_FirstNode 4 m = Ok tt (with_work (set_FirstNode (Some 2%nat) (wk (glob m))) m).
Proof.
  intros m. split; [exact ring_nodes|].
  destruct (advance_FirstNode_ring 4 m [1%nat; 2%nat; 3%nat] ring_nodes) as (b & Hb & H).
  simpl in Hb. injection Hb as <-. exact H.
Defined.

Lemma Trial_start_first_node_witness :
  let m := Toy.machine0 (Toy.params0 2 0 1 0 1000) (Toy.vars0 2 MINUS_INFINITY) in
  let m' := Toy.machine0 ToyGA.params_sub (Toy.vars0 2 MINUS_INFINITY) in
  fst (Random Toy.E97 (glob m)) = 1 /\
  Trial_start Toy.E97 m = Ok tt (started Toy.E97 (Some 2%nat) m) /\
  Dimension (par (glob m')) <> DimensionSaved (par (glob m')) /\
  Trial_start Toy.E97 m' = Ok tt (started Toy.E97 (Some 2%nat) m').
Proof.
  intros m m'. split; [reflexivity|]. split; [|split; [discriminate|]].
  - destruct (Trial_start_first_node Toy.E97 m) as (_ & H & _).
    destruct H as [_ H]; [reflexivity|simpl; lia|simpl; lia|exact H].
  - destruct (Trial_start_first_node Toy.E97 m') as (_ & _ & H).
    destruct (H [1%nat; 2%nat; 3%nat]) as (b & Hb & Hs).
    + discriminate.
    + simpl. lia.
    + simpl. lia.
    + exact ring_nodes.
    + simpl in Hb. injection Hb as <-. exact Hs.
Defined.

Lemma BetterCost_non_increasing_witness :
  let m := Toy.machine0 (Toy.params0 2 0 1 0 1000)
             (mkVars None 0 1 2 1 PLUS_INFINITY PLUS_INFINITY MINUS_INFINITY 12 1) in
  (exists m',
     FindTour_trials Toy.E97 10 0 m = Ok tt m' /\
     BetterCost (var (glob m')) = 7 /\
     BetterCost (var (glob m')) <= BetterCost (var (glob m))) /\
  (exists flow m' Cost,
     Trial_body Toy.E97 10 m = Ok flow m' /\
     BetterCost (var (glob m')) = 9 /\
     var (glob m') =
       (if Cost <? BetterCost (var (glob m)) then set_BetterCost Cost (var (glob m))
        else var (glob m))) /\
  (exists m',
     FindTour Toy.E97 10 m = Ok 7 m' /\ BetterCost (var (glob m')) = 7).
Proof.
  intros m.
  destruct (BetterCost_non_increasing Toy.E97 10 m) as (Hle & Hbody & Hret).
  split; [|split].
  - assert (H : exists m', FindTour_trials Toy.E97 10 0 m = Ok tt m' /\
                           BetterCost (var (glob m')) = 7).
    { eexists. split; vm_compute; reflexivity. }
    destruct H as (m' & H & H7). exists m'. split; [exact H|]. split; [exact H7|].
    exact (Hle 0 m' H).
  - assert (H : exists flow m', Trial_body Toy.E97 10 m = Ok flow m' /\
                                BetterCost (var (glob m')) = 9).
    { do 2 eexists. split; vm_compute; reflexivity. }
    destruct H as (flow & m' & H & H7).
    destruct (Hbody flow m' H) as [Cost HC].
    exists flow, m', Cost. split; [exact H|]. split; [exact H7|exact HC].
  - assert (H : exists m', FindTour Toy.E97 10 m = Ok 7 m').
    { eexists. vm_compute. reflexivity. }
    destruct H as (m' & H). exists m'. split; [exact H|].
    destruct (Hret 7 m' H) as (t & m1 & m2 & _ & _ & _ & H7). exact H7.
Defined.

Lemma FindTour_frame_witness :
  let m := Toy.machine0 (Toy.params0 2 0 1 0 1000)
             (mkVars None 0 2 2 1 PLUS_INFINITY 7 MINUS_INFINITY 12 2) in
  exists c m',
    FindTour Toy.E97 10 m = Ok c m' /\
    par (glob m') = par (glob m) /\
    BestCost (var (glob m')) = 7 /\ Seed (var (glob m')) = 2 /\
    OrdinalTourCost (var (glob m')) = 12.
Proof.
  intros m.
  assert (H : exists c m', FindTour Toy.E97 10 m = Ok c m').
  { do 2 eexists. vm_compute. reflexivity. }
  destruct H as (c & m' & H). exists c, m'. split; [exact H|].
  destruct (FindTour_frame Toy.E97 10 m c m' H) as (Hp & _ & _ & _ & _ & Hb & _ & Hs & Ho).
  split; [exact Hp|]. split; [exact Hb|]. split; [exact Hs|].
  apply Ho. left. discriminate.
Defined.


Lemma FindTour_trials_time_limit_witness :
  let m := Toy.machine0 (Toy.params0 2 0 1 0 0) (Toy.vars0 2 MINUS_INFINITY) in
  Trial (var (glob m)) <= MaxTrials (par (glob m)) /\
  exists m', FindTour_trials Toy.E97 1 0 m = Ok tt m' /\ glob m' = glob m.
Proof.
  intros m.
  assert (Ht : Trial (var (glob m)) <= MaxTrials (par (glob m))).
  { simpl. lia. }
  split; [exact Ht|].
  destruct (FindTour_trials_time_limit Toy.E97 0 0 m Ht eq_refl) as (m' & H & Hg & _).
  exists m'. auto.
Defined.

Lemma Trial_body_clock_independent_witness :
  let p := Toy.params0 2 0 1 0 1000 in
  let v := mkVars None 0 1 2 1 PLUS_INFINITY PLUS_INFINITY MINUS_INFINITY 12 1 in
  let m1 := Toy.machine Toy.steady p v in
  let m2 := Toy.machine Toy.frozen p v in
  exists m1' m2',
    Trial_body Toy.E97 5 m1 = Ok Continue m1' /\
    Trial_body Toy.E97 5 m2 = Ok Continue m2' /\
    glob m1' = glob m2' /\ trace m1' = trace m2'.
Proof.
  intros p v m1 m2.
  assert (H1 : exists m1', Trial_body Toy.E97 5 m1 = Ok Continue m1').
  { eexists. vm_compute. reflexivity. }
  assert (H2 : exists m2', Trial_body Toy.E97 5 m2 = Ok Continue m2').
  { eexists. vm_compute. reflexivity. }
  destruct H1 as [m1' H1], H2 as [m2' H2].
  pose proof (Trial_body_clock_independent Toy.E97 5 m1 m2) as H.
  specialize (H eq_refl). specialize (H eq_refl). specialize (H eq_refl).
  rewrite H1, H2 in H. destruct H as (_ & Hg & Ht & _).
  exists m1', m2'. repeat split; assumption.
Defined.

Lemma FindTour_exit_null_witness :
  let m := Toy.machine0 (Toy.params0 2 0 1 0 1000) (Toy.vars0 2 MINUS_INFINITY) in
  Norm (par (glob m)) <> 0 /\ FindTour_exit Toy.E97 1 m = Fault.
Proof.
  intros m.
  assert (HN : Norm (par (glob m)) <> 0) by discriminate.
  split; [exact HN|].
  exact (FindTour_exit_null Toy.E97 0 m 1%nat (Toy.node 3 2) HN eq_refl eq_refl eq_refl).
Defined.

Lemma FindTour_events_witness :
  let m := Toy.machine0 (Toy.params0 2 0 1 0 1000) (Toy.vars0 2 MINUS_INFINITY) in
  exists c m' new,
    FindTour Toy.E97 10 m = Ok c m' /\
    trace m' = trace m ++ new /\
    ~ In (Trace.called Trace.RecordBestTour) new.
Proof.
  intros m.
  assert (H : exists c m', FindTour Toy.E97 10 m = Ok c m').
  { do 2 eexists. vm_compute. reflexivity. }
  destruct H as (c & m' & H).
  destruct (FindTour_events Toy.E97 10 m c m' H) as (new & Ht & _ & Hn & _).
  exists c, m', new. auto.
Defined.

Lemma FindTour_finite_recorded_witness :
  let m := Toy.machine0 (Toy.params0 2 0 1 0 1000) (Toy.vars0 2 MINUS_INFINITY) in
  exists m',
    FindTour Toy.E97 10 m = Ok 7 m' /\
    In (Trace.called Trace.RecordBetterTour) (new_events m m').
Proof.
  intros m.
  assert (H : exists m', FindTour Toy.E97 10 m = Ok 7 m').
  { eexists. vm_compute. reflexivity. }
  destruct H as [m' H]. exists m'. split; [exact H|].
  apply (FindTour_finite_recorded Toy.E97 10 m 7 m' H). reflexivity.
Defined.

Lemma FindTour_OrdinalTourCost_value_witness :
  let m := Toy.machine0 (Toy.params0 2 0 1 0 1000) (Toy.vars0 2 MINUS_INFINITY) in
  let m' := Toy.with_nodes (map (ToyGA.with_Pi (- 2 ^ 30)) Toy.nodes) m in
  ordinal_tour_cost Toy.E97 (glob m) = 12 /\
  FindTour_OrdinalTourCost Toy.E97 m =
    Ok tt (with_var (set_OrdinalTourCost 12 (var (glob m))) m) /\
  ordinal_terms Toy.E97 (glob m') = [-2147483248; -2147483248; -2147483248] /\
  FindTour_OrdinalTourCost Toy.E97 m' =
    Ok tt (with_var (set_OrdinalTourCost (-64424497) (var (glob m'))) m').
Proof.
  intros m m'. split; [reflexivity|]. split; [|split; [reflexivity|]].
  - destruct (FindTour_OrdinalTourCost_value Toy.E97 m) as (H & _).
    + simpl. lia.
    + intros c a b. reflexivity.
    + exact H.
  - destruct (FindTour_OrdinalTourCost_value Toy.E97 m') as (H & _).
    + simpl. lia.
    + intros c a b. reflexivity.
    + exact H.
Defined.

Lemma main_runs_BestCost_witness :
  let m := Toy.machine0 (Toy.params0 2 0 1 0 1000) (Toy.vars0 2 MINUS_INFINITY) in
  exists m',
    main_runs Toy.E97 10 m = Ok tt m' /\
    BestCost (var (glob m')) <= BestCost (var (glob m)).
Proof.
  intros m.
  assert (H : exists m', main_runs Toy.E97 10 m = Ok tt m').
  { eexists. vm_compute. reflexivity. }
  destruct H as [m' H]. exists m'. split; [exact H|].
  exact (main_runs_BestCost Toy.E97 10 m m' H).
Defined.


Lemma main_runs_Seed_witness :
  let m := Toy.machine0 (Toy.params0 2 0 1 0 1000) (Toy.vars0 2 MINUS_INFINITY) in
  exists m',
    main_runs Toy.E97 10 m = Ok tt m' /\
    Seed (var (glob m')) mod UINT_WIDTH =
      (Seed (var (glob m)) + (Run (var (glob m')) - Run (var (glob m)))) mod UINT_WIDTH.
Proof.
  intros m.
  assert (H : exists m', main_runs Toy.E97 10 m = Ok tt m').
  { eexists. vm_compute. reflexivity. }
  destruct H as [m' H]. exists m'. split; [exact H|].
  exact (main_runs_Seed Toy.E97 10 m m' H).
Defined.


Lemma Run_crossover_parents_witness :
  let m := ToyGA.machine2 (Toy.params0 2 2 1 0 1000) (Toy.vars0 2 MINUS_INFINITY) in
  exists m' new,
    Run_crossover ToyGA.E_select 5 m = Ok tt m' /\
    trace m' = trace m ++ new /\
    In (Trace.called (Trace.ApplyCrossover 1 0)) (trace m') /\
    forall Parent1 Parent2,
      In (Trace.called (Trace.ApplyCrossover Parent1 Parent2)) new -> Parent2 <> Parent1.
Proof.
  intros m.
  assert (H : exists m', Run_crossover ToyGA.E_select 5 m = Ok tt m' /\
                         In (Trace.called (Trace.ApplyCrossover 1 0)) (trace m')).
  { eexists. split; [vm_compute; reflexivity|]. simpl. auto 10. }
  destruct H as (m' & H & Hin).
  destruct (Run_crossover_parents ToyGA.E_select 5 m m' H) as (new & Ht & _ & Hd & _).
  exists m', new. auto.
Defined.


Lemma merge_with_population_order_witness :
  let m := ToyGA.machine2 (Toy.params0 2 2 1 0 1000) (Toy.vars0 2 MINUS_INFINITY) in
  exists c m' k new,
    merge_with_population Toy.E97 5 0 9 m = Ok c m' /\
    trace m' = trace m ++ new /\
    merged_individuals new = map (fun j => 0 + Z.of_nat j) (seq 0 k) /\
    PopulationSize (wk (glob m')) <= 0 + Z.of_nat k.
Proof.
  intros m.
  assert (H : exists c m', merge_with_population Toy.E97 5 0 9 m = Ok c m').
  { do 2 eexists. vm_compute. reflexivity. }
  destruct H as (c & m' & H).
  destruct (merge_with_population_order Toy.E97 5 0 9 m c m' H)
    as (k & new & Ht & Ho & _ & Hk & _).
  exists c, m', k, new. auto.
Defined.
